(** * Checkpoint subroutine injection: a model of the LLVM pass

    Shallow embedding of [SubroutineInjection] (the second pass of
    lib/dale_passes/ModuleTransformationPass.cpp): the inputs binder, the
    candidate selector, the CFG surgeon, the marshaller, the SSA propagator
    and the dispatcher finaliser, over a small model of the LLVM IR.

    Pointers are handles: a [Value*] or [BasicBlock*] is a [positive], and
    the address order that [std::set] and [std::map] iterate in is the
    order of the handles.  Containers whose iteration order the pass never
    observes are [gmap] and [gset]; where the pass iterates, the elements
    are taken in ascending handle order. *)

From stdpp Require Import gmap strings list fin_maps sorting pretty.
From Stdlib Require Import ZArith Lia.

Set Warnings "-register-all".

Open Scope positive_scope.
Open Scope string_scope.
Open Scope list_scope.

(** ** The IR *)

Abbreviation Value := positive (only parsing).
Abbreviation BasicBlock := positive (only parsing).

Inductive Ty :=
| VoidTy
| Int32Ty
| Int64Ty
| DoubleTy
| PointerTy (pointee : Ty)
| ArrayTy (elt : Ty) (len : nat)
| StructTy (elts : list Ty).

Definition isPointerTy (t : Ty) : bool :=
  match t with PointerTy _ => true | _ => false end.

Definition getNumContainedTypes (t : Ty) : nat :=
  match t with
  | PointerTy _ => 1
  | ArrayTy _ _ => 1
  | StructTy elts => length elts
  | _ => 0
  end.

(** [getContainedType(0)]; every call in the pass is guarded by
    [isPointerTy]. *)
Definition getContainedType0 (t : Ty) : Ty :=
  match t with
  | PointerTy p => p
  | ArrayTy e _ => e
  | StructTy (e :: _) => e
  | _ => VoidTy
  end.

(** An operand is an SSA value (instruction result or argument) or a
    constant; LLVM uniques constants, so a constant is its type and value. *)
Inductive Operand :=
| OVal (v : Value)
| OConst (ty : Ty) (z : Z).

(** Terminators carry their successor labels: [Term] stands for [ret]
    (no label), [br] (one) and conditional [br] (two).  Calls are direct
    calls, named by their callee. *)
Inductive Opcode :=
| Call (callee : string)
| Load
| Store
| GetElementPtr
| Alloca
| Add
| PHI (incomingBlocks : list BasicBlock)
| Term (succs : list BasicBlock)
| Switch (default : BasicBlock) (cases : list (Z * BasicBlock))
| OtherOp (mnemonic : string).

Record Instruction := mkInst {
  result : Value;
  iname : string;
  ity : Ty;
  opcode : Opcode;
  operands : list Operand }.

(** A block is its instructions followed by its terminator. *)
Record Block := mkBlock {
  bid : BasicBlock;
  bname : string;
  body : list Instruction;
  term : Instruction }.

Record Argument := mkArg { aval : Value; aname : string; aty : Ty }.

Inductive Linkage := ExternalLinkage | InternalLinkage | LinkOnceODRLinkage.

(** [nextValue] and [nextBlock] stand for the allocator: the handle the
    next created instruction or block receives. *)
Record Function := mkFunction {
  fhandle : positive;
  fname : string;
  linkage : Linkage;
  fargs : list Argument;
  blocks : list Block;
  nextValue : Value;
  nextBlock : BasicBlock }.

Abbreviation Module := (list Function) (only parsing).

Global Instance Ty_eq_dec : EqDecision Ty.
Proof.
  refine (fix go (x y : Ty) {struct x} : Decision (x = y) :=
    match x, y with
    | VoidTy, VoidTy | Int32Ty, Int32Ty | Int64Ty, Int64Ty
    | DoubleTy, DoubleTy => left eq_refl
    | PointerTy a, PointerTy b => cast_if (go a b)
    | ArrayTy a n, ArrayTy b m => cast_if_and (go a b) (decide (n = m))
    | StructTy l, StructTy k =>
        cast_if ((fix gol (l k : list Ty) {struct l} : Decision (l = k) :=
           match l, k with
           | [], [] => left eq_refl
           | a :: l', b :: k' => cast_if_and (go a b) (gol l' k')
           | _, _ => right _
           end) l k)
    | _, _ => right _
    end); congruence.
Defined.

Global Instance Operand_eq_dec : EqDecision Operand.
Proof. solve_decision. Defined.
Global Instance Opcode_eq_dec : EqDecision Opcode.
Proof. solve_decision. Defined.
Global Instance Instruction_eq_dec : EqDecision Instruction.
Proof. solve_decision. Defined.
Global Instance Block_eq_dec : EqDecision Block.
Proof. solve_decision. Defined.
Global Instance Linkage_eq_dec : EqDecision Linkage.
Proof. solve_decision. Defined.

Definition instructions (b : Block) : list Instruction := body b ++ [term b].

Definition successors (b : Block) : list BasicBlock :=
  match opcode (term b) with
  | Term succs => succs
  | Switch default cases => default :: cases.*2
  | _ => []
  end.

Definition getBlock (F : Function) (b : BasicBlock) : option Block :=
  find (fun blk => bool_decide (bid blk = b)) (blocks F).

(** [BB->getTerminator()->getNumSuccessors()]. *)
Definition getNumSuccessors (F : Function) (b : BasicBlock) : nat :=
  match getBlock F b with
  | Some blk => length (successors blk)
  | None => 0%nat
  end.

(** [succ_begin .. succ_end]. *)
Definition getBBSuccessors (F : Function) (b : BasicBlock) : list BasicBlock :=
  match getBlock F b with
  | Some blk => successors blk
  | None => []
  end.

(** [pred_begin .. pred_end]: one entry per incoming edge. *)
Definition getBBPredecessors (F : Function) (b : BasicBlock) : list BasicBlock :=
  blocks F ≫= (fun blk =>
    (fun _ => bid blk) <$> filter (fun s => s = b) (successors blk)).

Definition hasNPredecessorsOrMore (F : Function) (b : BasicBlock) (n : nat) : bool :=
  bool_decide (n ≤ length (getBBPredecessors F b))%nat.

Definition allInstructions (F : Function) : list Instruction :=
  blocks F ≫= instructions.

(** [Value::getType] and the value's name without its sigil: fields of the
    object the handle points to. *)
Definition getType (F : Function) (v : Value) : Ty :=
  match find (fun a => bool_decide (aval a = v)) (fargs F) with
  | Some a => aty a
  | None =>
      match find (fun i => bool_decide (result i = v)) (allInstructions F) with
      | Some i => ity i
      | None => VoidTy
      end
  end.

Definition valueName (F : Function) (v : Value) : string :=
  match find (fun a => bool_decide (aval a = v)) (fargs F) with
  | Some a => aname a
  | None =>
      match find (fun i => bool_decide (result i = v)) (allInstructions F) with
      | Some i => iname i
      | None => ""
      end
  end.

(** [JsonHelper::getOpName] prints a value as an operand, without its
    type: a register with its sigil, a constant as its digits. *)
Definition getOpName (F : Function) (op : Operand) : string :=
  match op with
  | OVal v => "%" +:+ valueName F v
  | OConst _ z => pretty z
  end.

(** [std::map::emplace]: inserts only when the key is absent. *)
Definition emplace `{Countable K} {A} (k : K) (a : A) (m : gmap K A) : gmap K A :=
  match m !! k with
  | Some _ => m
  | None => <[k := a]> m
  end.

(** Iteration over a [std::set] of pointers: ascending handle order. *)
Definition iterate (s : gset positive) : list positive :=
  merge_sort Pos.le (elements s).

(** ** Inputs binder *)

Definition valuePtrsOfFunction (F : Function) : gmap string Operand :=
  foldl (fun m blk =>
    foldl (fun m inst =>
      foldl (fun m operand => emplace (getOpName F operand) operand m)
            m (operands inst))
          m (instructions blk))
        ∅ (blocks F).

(** [jsonMap] is the tracked-values JSON: function name, then block name,
    then value names.  The result is keyed by the function. *)
Definition getFuncValuePtrsMap (M : Module)
    (jsonMap : gmap string (gmap string (gset string)))
    : gmap positive (gmap string Operand) :=
  foldl (fun funcValuePtrsMap F =>
    let funcName := "@" +:+ fname F in
    match jsonMap !! funcName with
    | None => funcValuePtrsMap
    | Some _ => emplace (fhandle F) (valuePtrsOfFunction F) funcValuePtrsMap
    end) ∅ M.

(** ** Candidate selector *)

Definition getBBsWithOneSuccessor (F : Function)
    (bbTrackedVals : gmap BasicBlock (gset Value)) : gmap BasicBlock (gset Value) :=
  filter (fun kv => getNumSuccessors F kv.1 = 1%nat) bbTrackedVals.

Definition isNestedPtr (t : Ty) : bool :=
  isPointerTy t && bool_decide (0 < getNumContainedTypes (getContainedType0 t))%nat.

Definition removeNestedPtrTrackedVals (F : Function)
    (bbTrackedVals : gmap BasicBlock (gset Value)) : gmap BasicBlock (gset Value) :=
  (fun trackedValues : gset Value =>
     filter (fun val => isNestedPtr (getType F val) = false) trackedValues)
  <$> bbTrackedVals.

Definition removeBBsWithNoTrackedVals
    (bbTrackedVals : gmap BasicBlock (gset Value)) : gmap BasicBlock (gset Value) :=
  filter (fun kv => (0 < size kv.2)%nat) bbTrackedVals.

(** [StringRef::contains]. *)
Fixpoint contains (needle hay : string) : bool :=
  if String.prefix needle hay then true
  else match hay with
       | EmptyString => false
       | String _ rest => contains needle rest
       end.

Definition isCheckpointDirective (inst : Instruction) : bool :=
  match opcode inst with
  | Call name => contains "checkpoint" name
  | _ => false
  end.

(** The instruction loop of [chooseBBWithCheckpointDirective] for one
    block: at the first directive call of a block that has tracked-values
    data, the call is erased and the scan of the block ends.  A terminator
    is never a call, and an invoke has two successors, so only the body is
    scanned. *)
Fixpoint scanForDirective (bbTrackedVals : gmap BasicBlock (gset Value))
    (BB : BasicBlock) (insts : list Instruction)
    : option (list Instruction * gset Value) :=
  match insts with
  | [] => None
  | inst :: rest =>
      if isCheckpointDirective inst then
        match bbTrackedVals !! BB with
        | Some trackedVals => Some (rest, trackedVals)
        | None =>
            match scanForDirective bbTrackedVals BB rest with
            | Some (rest', tv) => Some (inst :: rest', tv)
            | None => None
            end
        end
      else
        match scanForDirective bbTrackedVals BB rest with
        | Some (rest', tv) => Some (inst :: rest', tv)
        | None => None
        end
  end.

Definition setBody (blk : Block) (insts : list Instruction) : Block :=
  mkBlock (bid blk) (bname blk) insts (term blk).

Definition setBlocks (F : Function) (bs : list Block) : Function :=
  mkFunction (fhandle F) (fname F) (linkage F) (fargs F) bs (nextValue F) (nextBlock F).

Fixpoint chooseBlocks (bbTrackedVals : gmap BasicBlock (gset Value))
    (bs : list Block) (cpBBMap : gmap BasicBlock (gset Value))
    : list Block * gmap BasicBlock (gset Value) :=
  match bs with
  | [] => ([], cpBBMap)
  | BB :: rest =>
      match scanForDirective bbTrackedVals (bid BB) (body BB) with
      | Some (insts, trackedVals) =>
          let '(rest', m) := chooseBlocks bbTrackedVals rest
                               (emplace (bid BB) trackedVals cpBBMap) in
          (setBody BB insts :: rest', m)
      | None =>
          let '(rest', m) := chooseBlocks bbTrackedVals rest cpBBMap in
          (BB :: rest', m)
      end
  end.

(** Returns the function with the selected directives erased, and the
    checkpoint-block map. *)
Definition chooseBBWithCheckpointDirective
    (bbTrackedVals : gmap BasicBlock (gset Value)) (F : Function)
    : Function * gmap BasicBlock (gset Value) :=
  let '(bs, cpBBMap) := chooseBlocks bbTrackedVals (blocks F) ∅ in
  (setBlocks F bs, cpBBMap).

(** Steps "= 0" of [injectSubroutines]: the filter chain and the choice. *)
Definition selectCheckpointBBs (F : Function)
    (bbTrackedVals : gmap BasicBlock (gset Value))
    : Function * gmap BasicBlock (gset Value) :=
  let filteredBBTrackedVals := getBBsWithOneSuccessor F bbTrackedVals in
  let filteredBBTrackedVals := removeNestedPtrTrackedVals F filteredBBTrackedVals in
  let filteredBBTrackedVals := removeBBsWithNoTrackedVals filteredBBTrackedVals in
  chooseBBWithCheckpointDirective filteredBBTrackedVals F.

(** ** Outcomes

    The pass can end by an exception ([std::map::at] on a missing key), by
    dereferencing an end iterator or a null pointer, or not at all (the
    propagator's work queue is given fuel). *)

Inductive Error := OutOfRange | Undefined | OutOfFuel.

Inductive Res (A : Type) :=
| Ret (a : A)
| Raise (e : Error).
Arguments Ret {A} a.
Arguments Raise {A} e.

Global Instance Res_bind : MBind Res := fun A B f m =>
  match m with
  | Ret a => f a
  | Raise e => Raise e
  end.

(** ** Editing the IR *)

Definition setTerm (blk : Block) (t : Instruction) : Block :=
  mkBlock (bid blk) (bname blk) (body blk) t.

Definition setBlockName (blk : Block) (n : string) : Block :=
  mkBlock (bid blk) n (body blk) (term blk).

Definition updateBlock (b : BasicBlock) (f : Block -> Block) (F : Function) : Function :=
  setBlocks F ((fun blk => if bool_decide (bid blk = b) then f blk else blk) <$> blocks F).

Definition bumpValue (F : Function) : Function :=
  mkFunction (fhandle F) (fname F) (linkage F) (fargs F) (blocks F)
             (Pos.succ (nextValue F)) (nextBlock F).

Definition bumpBlock (F : Function) : Function :=
  mkFunction (fhandle F) (fname F) (linkage F) (fargs F) (blocks F)
             (nextValue F) (Pos.succ (nextBlock F)).

Definition blockName (F : Function) (b : BasicBlock) : string :=
  match getBlock F b with
  | Some blk => bname blk
  | None => ""
  end.

Definition setName (b : BasicBlock) (n : string) (F : Function) : Function :=
  updateBlock b (fun blk => setBlockName blk n) F.

(** Insertion before the terminator of [b]: at the end of its body. *)
Definition insertBeforeTerminator (b : BasicBlock) (inst : Instruction)
    (F : Function) : Function :=
  updateBlock b (fun blk => setBody blk (body blk ++ [inst])) F.

(** [new I(..., InsertBefore = terminator of b)]: the instruction is
    created with a fresh handle and inserted. *)
Definition createBeforeTerminator (b : BasicBlock) (name : string) (ty : Ty)
    (opc : Opcode) (ops : list Operand) (F : Function) : Value * Function :=
  let v := nextValue F in
  (v, insertBeforeTerminator b (mkInst v name ty opc ops) (bumpValue F)).

(** [BasicBlock::Create(ctx, name, &F, nullptr)] followed by
    [BranchInst::Create(target, newBB)]: a block at the end of the
    function, holding one branch. *)
Definition createBlockWithBranch (name : string) (target : BasicBlock)
    (F : Function) : BasicBlock * Function :=
  let b := nextBlock F in
  let br := mkInst (nextValue F) "" VoidTy (Term [target]) [] in
  (b, setBlocks (bumpBlock (bumpValue F)) (blocks F ++ [mkBlock b name [] br])).

(** ** LLVM's edge and block splitting

    [SplitCriticalEdge] and [SplitBlock] are LLVM library functions; the
    pass sees them through their result, a block or null.  The pass is
    stated over any such pair; [llvmSplit] below models the two functions
    as LLVM implements them. *)

Record SplitPrimitives := {
  SplitCriticalEdge : Function -> BasicBlock -> nat -> option Function;
  SplitBlock : Function -> BasicBlock -> option (Function * BasicBlock) }.

Definition isPHI (i : Instruction) : bool :=
  match opcode i with PHI _ => true | _ => false end.

Definition setOpcode (i : Instruction) (opc : Opcode) : Instruction :=
  mkInst (result i) (iname i) (ity i) opc (operands i).

Definition setOperands (i : Instruction) (ops : list Operand) : Instruction :=
  mkInst (result i) (iname i) (ity i) (opcode i) ops.

(** [PHINode::replaceIncomingBlockWith]. *)
Definition replaceIncomingBlockWith (Old New : BasicBlock) (i : Instruction) : Instruction :=
  match opcode i with
  | PHI bs => setOpcode i (PHI ((fun b => if bool_decide (b = Old) then New else b) <$> bs))
  | _ => i
  end.

Fixpoint replaceFirst (Old New : BasicBlock) (bs : list BasicBlock) : list BasicBlock :=
  match bs with
  | [] => []
  | b :: rest => if bool_decide (b = Old) then New :: rest
                 else b :: replaceFirst Old New rest
  end.

Definition setFirstIncomingBlock (Old New : BasicBlock) (i : Instruction) : Instruction :=
  match opcode i with
  | PHI bs => setOpcode i (PHI (replaceFirst Old New bs))
  | _ => i
  end.

Definition setSuccessor (n : nat) (New : BasicBlock) (t : Instruction) : Instruction :=
  match opcode t with
  | Term succs => setOpcode t (Term (<[n := New]> succs))
  | Switch d cases =>
      match n with
      | O => setOpcode t (Switch New cases)
      | S k => setOpcode t (Switch d (imap (fun j c => if bool_decide (j = k) then (c.1, New) else c) cases))
      end
  | _ => t
  end.

(** [SplitBlock(Old, Old->getTerminator())]: the terminator moves to a new
    block placed after [Old], [Old] branches to it, and the phis of the
    new block's successors name it instead of [Old]. *)
Definition llvm_SplitBlock (F : Function) (BB : BasicBlock)
    : option (Function * BasicBlock) :=
  match getBlock F BB with
  | None => None
  | Some Old =>
      let New := nextBlock F in
      let br := mkInst (nextValue F) "" VoidTy (Term [New]) [] in
      let newBlk := mkBlock New (bname Old +:+ ".split") [] (term Old) in
      let fixPhis := fun blk : Block =>
        if bool_decide (bid blk ∈ successors newBlk)
        then setBody blk (replaceIncomingBlockWith BB New <$> body blk) else blk in
      let bs := blocks F ≫= (fun blk =>
        if bool_decide (bid blk = BB)
        then [setTerm (fixPhis blk) br; newBlk]
        else [fixPhis blk]) in
      Some (setBlocks (bumpBlock (bumpValue F)) bs, New)
  end.

Definition isCriticalEdge (F : Function) (BB : BasicBlock) (SuccNum : nat) : bool :=
  match getBBSuccessors F BB !! SuccNum with
  | Some Dest =>
      bool_decide (1 < length (getBBSuccessors F BB))%nat
      && bool_decide (2 ≤ length (getBBPredecessors F Dest))%nat
  | None => false
  end.

(** [SplitCriticalEdge]: null unless the edge is critical; otherwise a new
    block holding a branch to the destination is placed after the source,
    the source's terminator is redirected to it and the destination's phis
    name it on that edge. *)
Definition llvm_SplitCriticalEdge (F : Function) (BB : BasicBlock) (SuccNum : nat)
    : option Function :=
  if isCriticalEdge F BB SuccNum then
    match getBlock F BB, getBBSuccessors F BB !! SuccNum with
    | Some TIBB, Some Dest =>
        let New := nextBlock F in
        let br := mkInst (nextValue F) "" VoidTy (Term [Dest]) [] in
        let newBlk := mkBlock New (bname TIBB +:+ "." +:+ blockName F Dest +:+ "_crit_edge") [] br in
        let fixPhis := fun blk : Block =>
          if bool_decide (bid blk = Dest)
          then setBody blk (setFirstIncomingBlock BB New <$> body blk) else blk in
        let bs := blocks F ≫= (fun blk =>
          if bool_decide (bid blk = BB)
          then [setTerm (fixPhis blk) (setSuccessor SuccNum New (term blk)); newBlk]
          else [fixPhis blk]) in
        Some (setBlocks (bumpBlock (bumpValue F)) bs)
    | _, _ => None
    end
  else None.

Definition llvmSplit : SplitPrimitives :=
  {| SplitCriticalEdge := llvm_SplitCriticalEdge; SplitBlock := llvm_SplitBlock |}.

(** [GetSuccessorNumber]: the index of the first edge to [Succ]. *)
Definition GetSuccessorNumber (F : Function) (BB Succ : BasicBlock) : nat :=
  match list_find (fun s => s = Succ) (getBBSuccessors F BB) with
  | Some (i, _) => i
  | None => 0%nat
  end.

Section Pass.

Variable sp : SplitPrimitives.

(** The assertion that a non-critical edge leaves a block with a single
    successor is compiled out. *)
Definition SplitEdgeCustom (F : Function) (BB Succ : BasicBlock)
    : option (Function * BasicBlock) :=
  let SuccNum := GetSuccessorNumber F BB Succ in
  match SplitCriticalEdge sp F BB SuccNum with
  | Some F' =>
      match getBBSuccessors F' BB !! SuccNum with
      | Some New => Some (F', New)
      | None => None
      end
  | None => SplitBlock sp F BB
  end.

(** The wrapper names the block one statement before it tests it for
    null: on a null from the split, [setName] is called through the null
    pointer, so the null test that follows never sees a null and the
    wrapper never returns one. *)
Definition splitEdgeWrapper (F : Function) (edgeStartBB edgeEndBB : BasicBlock)
    (checkpointName : string) : Res (option (Function * BasicBlock)) :=
  match SplitEdgeCustom F edgeStartBB edgeEndBB with
  | None => Raise Undefined
  | Some (F', insertedBB) => Ret (Some (setName insertedBB checkpointName F', insertedBB))
  end.

End Pass.

(** ** SSA repair: the propagator *)

Record BBUpdateRequest := mkRequest {
  startBB : BasicBlock;
  currBB : BasicBlock;
  prevBB : BasicBlock;
  oldVal : Value;
  newVal : Value;
  valueVersions : gset Value }.

(** The liveness analysis result of one block. *)
Record LiveVals := mkLiveVals { liveOutVals : gset Value }.

(** What the propagator reads and never writes: the blocks created for
    the current checkpoint, the analysis result keyed by function, and the
    live-out sets the marshaller recorded for the new blocks. *)
Record PropEnv := mkPropEnv {
  newBBs : gset BasicBlock;
  funcBBLiveValsMap : gmap positive (gmap BasicBlock LiveVals);
  funcSaveBBsLiveOutMap : gmap BasicBlock (gset Value);
  funcRestoreBBsLiveOutMap : gmap BasicBlock (gset Value);
  funcJunctionBBsLiveOutMap : gmap BasicBlock (gset Value) }.

(** What the propagator mutates: the function, the work queue and the
    per-block history of value versions. *)
Record PropState := mkPropState {
  pF : Function;
  queue : list BBUpdateRequest;
  visitedBBs : gmap BasicBlock (gset Value) }.

Definition liveOutOfPred (env : PropEnv) (F : Function) (pred : BasicBlock)
    : Res (gset Value) :=
  match funcJunctionBBsLiveOutMap env !! pred with
  | Some s => Ret s
  | None =>
    match funcSaveBBsLiveOutMap env !! pred with
    | Some s => Ret s
    | None =>
      match funcRestoreBBsLiveOutMap env !! pred with
      | Some s => Ret s
      | None =>
        match funcBBLiveValsMap env !! fhandle F with
        | None => Raise OutOfRange
        | Some bbLive =>
            match bbLive !! pred with
            | Some lv => Ret (liveOutVals lv)
            | None => Ret ∅
            end
        end
      end
    end
  end.

Fixpoint countLiveOut (env : PropEnv) (F : Function) (val : Value)
    (preds : list BasicBlock) (count : nat) : Res nat :=
  match preds with
  | [] => Ret count
  | pred :: rest =>
      liveOutSet ← liveOutOfPred env F pred;
      countLiveOut env F val rest
        (if bool_decide (val ∈ liveOutSet) then S count else count)
  end.

Definition numOfPredsWhereVarIsLiveOut (env : PropEnv) (F : Function)
    (BB : BasicBlock) (val : Value) : Res nat :=
  countLiveOut env F val (getBBPredecessors F BB) 0.

(** [BB->phis()]: the phi nodes that lead the block. *)
Fixpoint phis (insts : list Instruction) : list Instruction :=
  match insts with
  | i :: rest => if isPHI i then i :: phis rest else []
  | [] => []
  end.

Definition incomingBlocks (phi : Instruction) : list BasicBlock :=
  match opcode phi with PHI bs => bs | _ => [] end.

Definition isVersion (valueVersions : gset Value) (op : Operand) : bool :=
  match op with
  | OVal v => bool_decide (v ∈ valueVersions)
  | OConst _ _ => false
  end.

Definition isPhiInstExistForIncomingBBForTrackedVal (valueVersions : gset Value)
    (currBlk : Block) (prevBB : BasicBlock) : bool :=
  existsb (fun phi =>
    existsb (fun i =>
      match operands phi !! i, incomingBlocks phi !! i with
      | Some incomingValue, Some incomingBB =>
          bool_decide (incomingBB = prevBB) && isVersion valueVersions incomingValue
      | _, _ => false
      end) (seq 0 (length (operands phi))))
    (phis (body currBlk)).

Definition replaceOperandsInInst (inst : Instruction) (oldVal newVal : Value) : Instruction :=
  setOperands inst
    ((fun value => if bool_decide (value = OVal oldVal) then OVal newVal else value)
     <$> operands inst).

(** Sets every incoming value for block [BB] to [V]. *)
Definition setIncomingValueForBlock (phi : Instruction) (BB : BasicBlock) (V : Value)
    : Instruction :=
  setOperands phi
    (imap (fun Op value =>
       if bool_decide (incomingBlocks phi !! Op = Some BB) then OVal V else value)
     (operands phi)).

(** One turn of the inner loop of the "modify existing phi" branch; the
    flag records whether an incoming value was rewritten. *)
Definition modifyPhiStep (valueVersions : gset Value) (prevBB : BasicBlock)
    (newVal : Value) (acc : Instruction * bool) (i : nat) : Instruction * bool :=
  let '(phi, changed) := acc in
  match operands phi !! i, incomingBlocks phi !! i with
  | Some incomingValue, Some incomingBB =>
      if bool_decide (incomingBB = prevBB) && isVersion valueVersions incomingValue
      then if bool_decide (incomingValue = OVal newVal) then (phi, changed)
           else (setIncomingValueForBlock phi incomingBB newVal, true)
      else (phi, changed)
  | _, _ => (phi, changed)
  end.

Definition modifyPhi (valueVersions : gset Value) (prevBB : BasicBlock)
    (newVal : Value) (phi : Instruction) : Instruction * bool :=
  foldl (modifyPhiStep valueVersions prevBB newVal) (phi, false)
        (seq 0 (length (operands phi))).

Definition modifyPhis (valueVersions : gset Value) (prevBB : BasicBlock)
    (newVal : Value) (blk : Block) : Block * bool :=
  let ps := modifyPhi valueVersions prevBB newVal <$> phis (body blk) in
  (setBody blk (ps.*1 ++ drop (length ps) (body blk)), existsb id ps.*2).

(** [getOrDefault]: marks the block as visited. *)
Definition getOrDefault (key : BasicBlock) (map : gmap BasicBlock (gset Value))
    : gset Value * gmap BasicBlock (gset Value) :=
  match map !! key with
  | Some s => (s, map)
  | None => (∅, <[key := ∅]> map)
  end.

Definition updateMapEntry (key : BasicBlock) (newVal : gset Value)
    (map : gmap BasicBlock (gset Value)) : gmap BasicBlock (gset Value) :=
  emplace key newVal (delete key map).

Definition mapInstructions (f : Instruction -> Instruction) (blk : Block) : Block :=
  mkBlock (bid blk) (bname blk) (f <$> body blk) (f (term blk)).

(** The requests pushed for the successors of [currBB]. *)
Definition successorRequests (F : Function) (r : BBUpdateRequest)
    (newVal : Value) (valueVersions : gset Value) : list BBUpdateRequest :=
  (fun succBB => mkRequest (startBB r) succBB (currBB r) (oldVal r) newVal valueVersions)
  <$> filter (fun succBB => succBB ≠ currBB r) (getBBSuccessors F (currBB r)).

(** The three tests made when a request is dequeued. *)
Definition stopsAtStart (r : BBUpdateRequest) (st : PropState) : bool :=
  bool_decide (currBB r = startBB r) && bool_decide (is_Some (visitedBBs st !! currBB r)).

Definition stopsAtExit (r : BBUpdateRequest) (st : PropState) : bool :=
  bool_decide (getNumSuccessors (pF st) (currBB r) = 0%nat).

Definition stopsAtSameVersions (r : BBUpdateRequest) (st : PropState) : bool :=
  let bbValueVersions := (getOrDefault (currBB r) (visitedBBs st)).1 in
  forallb (fun v => bool_decide (v ∈ valueVersions r)) (elements bbValueVersions)
  && bool_decide (size bbValueVersions = size (valueVersions r)).

(** The test that selects the phi-handling branches. *)
Definition isJoin (env : PropEnv) (F : Function) (r : BBUpdateRequest) : Res bool :=
  if negb (bool_decide (currBB r ∈ newBBs env)) && hasNPredecessorsOrMore F (currBB r) 2
  then n ← numOfPredsWhereVarIsLiveOut env F (currBB r) (oldVal r);
       Ret (bool_decide (1 < n)%nat)
  else Ret false.

Definition processUpdateRequest (env : PropEnv) (updateRequest : BBUpdateRequest)
    (st : PropState) : Res PropState :=
  let F := pF st in
  let r := updateRequest in
  let isStop := stopsAtStart r st in
  let isStop := isStop || stopsAtExit r st in
  let '(bbValueVersions, visited) := getOrDefault (currBB r) (visitedBBs st) in
  let isStop := isStop || stopsAtSameVersions r st in
  join ← isJoin env F r;
  match getBlock F (currBB r) with
  | None => Raise Undefined
  | Some blk =>
    if join : bool then
      if isPhiInstExistForIncomingBBForTrackedVal (valueVersions r) blk (prevBB r) then
        (* modify existing phi input from oldVal to newVal *)
        let '(blk', changed) := modifyPhis (valueVersions r) (prevBB r) (newVal r) blk in
        let visited' :=
          if changed : bool
          then updateMapEntry (currBB r) (bbValueVersions ∪ valueVersions r) visited
          else visited in
        Ret (mkPropState (updateBlock (currBB r) (fun _ => blk') F) (queue st) visited')
      else
        (* make new phi node *)
        let predecessors := getBBPredecessors F (currBB r) in
        let newPhi := nextValue F in
        let phiInputs :=
          (fun predBB => if bool_decide (predBB = prevBB r) then newVal r else oldVal r)
          <$> predecessors in
        let phi := mkInst newPhi (valueName F (newVal r) +:+ ".phi")
                     (getType F (oldVal r)) (PHI predecessors) (OVal <$> phiInputs) in
        let valueVersions1 := valueVersions r ∪ list_to_set phiInputs in
        let blk1 := setBody blk (phi :: body blk) in
        let blk2 := mapInstructions (fun inst =>
                      if bool_decide (result inst = newPhi) then inst
                      else replaceOperandsInInst inst (oldVal r) newPhi) blk1 in
        let isStop := isStop ||
          existsb (fun inst => bool_decide (result inst ∈ valueVersions1))
                  (instructions blk1) in
        let valueVersions2 := valueVersions1 ∪ {[newPhi]} in
        let visited' :=
          updateMapEntry (currBB r) (bbValueVersions ∪ valueVersions2) visited in
        let F' := updateBlock (currBB r) (fun _ => blk2) (bumpValue F) in
        let pushed := if isStop then []
                      else successorRequests F' r newPhi valueVersions2 in
        Ret (mkPropState F' (queue st ++ pushed) visited')
    else
      (* update instructions in BB *)
      let blk' := mapInstructions (fun inst =>
                    replaceOperandsInInst inst (oldVal r) (newVal r)) blk in
      let isStop := isStop ||
        existsb (fun inst => bool_decide (result inst ∈ valueVersions r))
                (instructions blk) in
      let valueVersions1 := valueVersions r ∪ {[newVal r]} in
      let visited' :=
        updateMapEntry (currBB r) (bbValueVersions ∪ valueVersions1) visited in
      let F' := updateBlock (currBB r) (fun _ => blk') F in
      let pushed := if isStop then []
                    else successorRequests F' r (newVal r) valueVersions1 in
      Ret (mkPropState F' (queue st ++ pushed) visited')
  end.

(** The [while (!q.empty())] loop. *)
Fixpoint drainQueue (env : PropEnv) (fuel : nat) (st : PropState) : Res PropState :=
  match queue st with
  | [] => Ret st
  | updateRequest :: q =>
      match fuel with
      | O => Raise OutOfFuel
      | S fuel' =>
          st' ← processUpdateRequest env updateRequest
                  (mkPropState (pF st) q (visitedBBs st));
          drainQueue env fuel' st'
      end
  end.

Definition propagateRestoredValuesBFS (env : PropEnv) (fuel : nat)
    (startBB prevBB : BasicBlock) (oldVal newVal : Value)
    (visitedBBs : gmap BasicBlock (gset Value)) (F : Function) : Res PropState :=
  let valueVersions : gset Value := {[oldVal]} ∪ {[newVal]} in
  let updateRequest := mkRequest startBB startBB prevBB oldVal newVal valueVersions in
  drainQueue env fuel (mkPropState F [updateRequest] visitedBBs).

(** The propagation as the pass calls it, for one tracked value: from the
    resume block, with the junction block as predecessor, the tracked
    value as [oldVal], its junction phi as [newVal] and a fresh history
    of visited blocks. *)
Definition Propagator : Type :=
  PropEnv -> BasicBlock -> BasicBlock -> Value -> Value -> Function -> Res PropState.

Definition propagateWithFuel (fuel : nat) : Propagator :=
  fun env resumeBB junctionBB trackedVal phi F =>
    propagateRestoredValuesBFS env fuel resumeBB junctionBB trackedVal phi ∅ F.

(** ** Checkpoint memory layout *)

(** Modelled from the spec: the slot indices of the checkpoint memory
    ([HEARTBEAT], [CKPT_ID], [IS_COMPLETE], [VALUES_START]); the header
    that defines these macros is not among the sources. *)
Definition HEARTBEAT : Z := 0.
Definition CKPT_ID : Z := 1.
Definition IS_COMPLETE : Z := 2.
Definition VALUES_START : Z := 3.

(** ** Marshaller *)

Record CheckpointTopo := mkTopo {
  checkpointBB : BasicBlock;
  saveBB : BasicBlock;
  restoreBB : BasicBlock;
  junctionBB : BasicBlock;
  resumeBB : BasicBlock }.

Record MarshalState := mkMarshal {
  mF : Function;
  valMemSegIndex : Z;
  saveBBLiveOutSet : gset Value;
  restoreBBLiveOutSet : gset Value;
  junctionBBLiveOutSet : gset Value;
  trackedValPhiValMap : gmap Value Value }.

(** [GetElementPtrInst::CreateInBounds(i32, ckpt_mem, {index}, name, before)]. *)
Definition createSlotPtr (b : BasicBlock) (name : string) (ckptMemSegment : Value)
    (index : Z) (F : Function) : Value * Function :=
  createBeforeTerminator b name (PointerTy Int32Ty) GetElementPtr
    [OVal ckptMemSegment; OConst Int32Ty index] F.

(** Steps 3.3.2 to 3.3.6 for one tracked value. *)
Definition marshalValue (ckptMemSegment : Value) (saveBB restoreBB junctionBB : BasicBlock)
    (trackedVal : Value) (m : MarshalState) : MarshalState :=
  let F := mF m in
  let valName := valueName F trackedVal in
  let valRawType := getType F trackedVal in
  let isPointer := isPointerTy valRawType in
  let containedType := if isPointer then getContainedType0 valRawType else valRawType in
  (* store value to memory segment *)
  let '(saveVal, F) :=
    if isPointer
    then createBeforeTerminator saveBB ("deref_" +:+ valName) Int32Ty Load
           [OVal trackedVal] F
    else (trackedVal, F) in
  let '(elemPtrStore, F) :=
    createSlotPtr saveBB ("idx_" +:+ valName) ckptMemSegment (valMemSegIndex m) F in
  let '(_, F) :=
    createBeforeTerminator saveBB "" VoidTy Store [OVal saveVal; OVal elemPtrStore] F in
  (* load value from memory *)
  let '(elemPtrLoad, F) :=
    createSlotPtr restoreBB ("idx_" +:+ valName) ckptMemSegment (valMemSegIndex m) F in
  let '(loadInst, F) :=
    createBeforeTerminator restoreBB ("load." +:+ valName) containedType Load
      [OVal elemPtrLoad] F in
  let '(restoredVal, F) :=
    if isPointer
    then
      let '(allocaInstR, F) :=
        createBeforeTerminator restoreBB ("alloca." +:+ valName)
          (PointerTy containedType) Alloca [OConst Int32Ty 1] F in
      let '(_, F) :=
        createBeforeTerminator restoreBB "" VoidTy Store
          [OVal loadInst; OVal allocaInstR] F in
      (allocaInstR, F)
    else (loadInst, F) in
  (* phi node in junctionBB to merge loaded val and original val *)
  let '(phi, F) :=
    createBeforeTerminator junctionBB ("new." +:+ valName) valRawType
      (PHI [saveBB; restoreBB]) [OVal trackedVal; OVal restoredVal] F in
  mkMarshal F (valMemSegIndex m + 1)
    (saveBBLiveOutSet m ∪ {[trackedVal]})
    (restoreBBLiveOutSet m ∪ {[trackedVal]})
    (junctionBBLiveOutSet m ∪ {[trackedVal]})
    (<[trackedVal := phi]> (trackedValPhiValMap m)).

(** Step 3.3: the loop over the tracked values of the checkpoint, in the
    iteration order of the set. *)
Definition populateSaveAndRestoreBB (ckptMemSegment : Value)
    (saveBB restoreBB junctionBB : BasicBlock) (trackedVals : gset Value)
    (F : Function) : MarshalState :=
  foldl (fun m trackedVal =>
           marshalValue ckptMemSegment saveBB restoreBB junctionBB trackedVal m)
        (mkMarshal F VALUES_START ∅ ∅ ∅ ∅) (iterate trackedVals).

(** Step 3.3.6: save isComplete in the memory segment. *)
Definition storeIsComplete (ckptMemSegment : Value) (saveBB : BasicBlock)
    (F : Function) : Function :=
  let '(elemPtrIsCompleteS, F) :=
    createSlotPtr saveBB "idx_isComplete" ckptMemSegment IS_COMPLETE F in
  (createBeforeTerminator saveBB "" VoidTy Store
     [OConst Int32Ty 1; OVal elemPtrIsCompleteS] F).2.

(** ** The pass *)

Record InjState := mkInj {
  iF : Function;
  saveBBcheckpointBBMap : gmap BasicBlock BasicBlock;
  checkpointBBTopoMap : gmap BasicBlock CheckpointTopo;
  iNewBBs : gset BasicBlock;
  iSaveBBsLiveOutMap : gmap BasicBlock (gset Value);
  iRestoreBBsLiveOutMap : gmap BasicBlock (gset Value);
  iJunctionBBsLiveOutMap : gmap BasicBlock (gset Value);
  funcJunctionBBPhiValsMap : gmap BasicBlock (gmap Value Value) }.

Inductive SkipReason :=
| IsLinkOnceODR
| NoTrackedValuesData
| NoCkptMemSegment
| SingleBasicBlock
| NoCheckpointDirective
| RestoreControllerSplitFailed
| NoCheckpointsInserted.

(** What the loop body of [injectSubroutines] leaves for one function:
    the function, whether the body set [isModified], and, when it ran to
    its end, the dispatcher block and the checkpoint maps. *)
Inductive FuncOutcome :=
| Skipped (why : SkipReason) (F : Function) (isModified : bool)
| Injected (F : Function) (restoreControllerBB : BasicBlock)
    (restoreControllerSuccessor : BasicBlock)
    (checkpointBBTopoMap : gmap BasicBlock CheckpointTopo)
    (ckptIDsCkptToposMap : gmap Z CheckpointTopo).

Definition outcomeFunction (o : FuncOutcome) : Function :=
  match o with
  | Skipped _ F _ => F
  | Injected F _ _ _ _ => F
  end.

Definition outcomeModified (o : FuncOutcome) : bool :=
  match o with
  | Skipped _ _ m => m
  | Injected _ _ _ _ _ => true
  end.

Definition getFuncParams (F : Function) : gset Value :=
  list_to_set (aval <$> fargs F).

Definition getCkptMemSegmentPtr (F : Function) (funcParams : gset Value)
    (segmentName : string) : option Value :=
  find (fun arg => bool_decide (valueName F arg = segmentName)) (iterate funcParams).

Definition getCkptBBsInFunc (F : Function)
    (bbCheckpoints : gmap BasicBlock (gset Value)) : gset BasicBlock :=
  list_to_set (filter (fun b => is_Some (bbCheckpoints !! b)) (bid <$> blocks F)).

(** [BasicBlock::getSingleSuccessor]. *)
Definition getSingleSuccessor (F : Function) (b : BasicBlock) : option BasicBlock :=
  match getBBSuccessors F b with
  | [TheSucc] => Some TheSucc
  | _ => None (* no successors, or multiple successors *)
  end.

(** Iteration over a [std::map] keyed by pointers or by integers. *)
Definition iterateMap {A} (m : gmap positive A) : list (positive * A) :=
  omap (fun k => (fun a => (k, a)) <$> m !! k) (iterate (dom m)).

Definition iterateZMap {A} (m : gmap Z A) : list (Z * A) :=
  omap (fun k => (fun a => (k, a)) <$> m !! k) (merge_sort Z.le (elements (dom m))).

(** The counter is a [uint8_t]. *)
Definition getCheckpointIdBBMap (checkpointBBTopoMap : gmap BasicBlock CheckpointTopo)
    (F : Function) : Function * gmap Z CheckpointTopo :=
  let '(F, _, checkpointIdBBMap) :=
    foldl (fun '(F, checkpointIDCounter, checkpointIdBBMap) entry =>
      let checkpointTopo : CheckpointTopo := entry.2 in
      let suffix := ".id" +:+ pretty checkpointIDCounter in
      let F := setName (saveBB checkpointTopo)
                 (blockName F (saveBB checkpointTopo) +:+ suffix) F in
      let F := setName (restoreBB checkpointTopo)
                 (blockName F (restoreBB checkpointTopo) +:+ suffix) F in
      let F := setName (junctionBB checkpointTopo)
                 (blockName F (junctionBB checkpointTopo) +:+ suffix) F in
      (F, ((checkpointIDCounter + 1) `mod` 256)%Z,
       emplace checkpointIDCounter checkpointTopo checkpointIdBBMap))
    (F, 1%Z, ∅) (iterateMap checkpointBBTopoMap) in
  (F, checkpointIdBBMap).

(** Step 4 for one checkpoint: the id store and the heartbeat increments. *)
Definition addIdAndHeartbeat (ckptMemSegment : Value) (F : Function)
    (entry : Z * CheckpointTopo) : Function :=
  let ckpt_id := entry.1 in
  let saveBB := saveBB entry.2 in
  let restoreBB := restoreBB entry.2 in
  let '(elemPtrCkptId, F) := createSlotPtr saveBB "idx_ckpt_id" ckptMemSegment CKPT_ID F in
  let '(_, F) := createBeforeTerminator saveBB "" VoidTy Store
                   [OConst Int32Ty ckpt_id; OVal elemPtrCkptId] F in
  let '(elemPtrHeartbeatS, F) :=
    createSlotPtr saveBB "idx_heartbeat" ckptMemSegment HEARTBEAT F in
  let '(loadHeartbeatS, F) :=
    createBeforeTerminator saveBB "load.heartbeat" Int32Ty Load [OVal elemPtrHeartbeatS] F in
  let '(addInstS, F) :=
    createBeforeTerminator saveBB "heartbeat_incr" Int32Ty Add
      [OVal loadHeartbeatS; OConst Int32Ty 1] F in
  let '(_, F) := createBeforeTerminator saveBB "" VoidTy Store
                   [OVal addInstS; OVal elemPtrHeartbeatS] F in
  let '(elemPtrHeartbeatR, F) :=
    createSlotPtr restoreBB "idx_heartbeat" ckptMemSegment HEARTBEAT F in
  let '(loadHeartbeatR, F) :=
    createBeforeTerminator restoreBB "load.heartbeat" Int32Ty Load [OVal elemPtrHeartbeatR] F in
  let '(addInstR, F) :=
    createBeforeTerminator restoreBB "heartbeat_incr" Int32Ty Add
      [OVal loadHeartbeatR; OConst Int32Ty 1] F in
  (createBeforeTerminator restoreBB "" VoidTy Store
     [OVal addInstR; OVal elemPtrHeartbeatR] F).2.

(** Step 5: the checkpoint id is loaded and the terminator of the
    dispatcher block becomes a switch on it. *)
Definition populateRestoreControllerBB (ckptMemSegment : Value)
    (restoreControllerBB restoreControllerSuccessor : BasicBlock)
    (ckptIDsCkptToposMap : gmap Z CheckpointTopo) (F : Function) : Function :=
  let '(elemPtrLoad, F) :=
    createSlotPtr restoreControllerBB "idx_ckpt_id_load" ckptMemSegment CKPT_ID F in
  let '(loadCheckpointID, F) :=
    createBeforeTerminator restoreControllerBB "load.ckpt_id" Int32Ty Load
      [OVal elemPtrLoad] F in
  let cases := (fun entry : Z * CheckpointTopo => (entry.1, restoreBB entry.2))
               <$> iterateZMap ckptIDsCkptToposMap in
  let switchInst := mkInst (nextValue F) "" VoidTy
                      (Switch restoreControllerSuccessor cases) [OVal loadCheckpointID] in
  updateBlock restoreControllerBB (fun blk => setTerm blk switchInst) (bumpValue F).

Section Injection.

Variable sp : SplitPrimitives.
Variable propagate : Propagator.
Variable funcBBTrackedValsMap : gmap positive (gmap BasicBlock (gset Value)).
Variable funcBBLiveVals : gmap positive (gmap BasicBlock LiveVals).

(** Step 3.4: the propagation of every tracked value.  The pass is stated
    over the propagator; the pass itself is [propagateWithFuel]. *)
Fixpoint propagateLoadedValues (env : PropEnv) (resumeBB junctionBB : BasicBlock)
    (phiVals : gmap Value Value) (trackedVals : list Value) (F : Function)
    : Res Function :=
  match trackedVals with
  | [] => Ret F
  | trackedVal :: rest =>
      match phiVals !! trackedVal with
      | None => Raise OutOfRange
      | Some phi =>
          st ← propagate env resumeBB junctionBB trackedVal phi F;
          propagateLoadedValues env resumeBB junctionBB phiVals rest (pF st)
      end
  end.

(** The body of the loop over the successors of a checkpoint block
    (steps 3.1 to 3.4). *)
Definition addSubroutine (ckptMemSegment : Value)
    (bbCheckpoints : gmap BasicBlock (gset Value))
    (checkpointBB successorBB : BasicBlock) (st : InjState) : Res InjState :=
  let checkpointBBName := blockName (iF st) checkpointBB in
  inserted ← splitEdgeWrapper sp (iF st) checkpointBB successorBB
               (checkpointBBName +:+ ".saveBB");
  match inserted with
  | None => Ret st
  | Some (F, saveBB) =>
    let saveMap := emplace saveBB checkpointBB (saveBBcheckpointBBMap st) in
    let newBBs := iNewBBs st ∪ {[saveBB]} in
    match head (getBBSuccessors F saveBB) with
    | None => Raise Undefined
    | Some resumeBB =>
      inserted ← splitEdgeWrapper sp F saveBB resumeBB
                   (checkpointBBName +:+ ".junctionBB");
      match inserted with
      | None =>
          (* failed to inject mediator BB: skip this checkpoint *)
          Ret (mkInj F (delete saveBB saveMap) (checkpointBBTopoMap st) newBBs
                 (iSaveBBsLiveOutMap st) (iRestoreBBsLiveOutMap st)
                 (iJunctionBBsLiveOutMap st) (funcJunctionBBPhiValsMap st))
      | Some (F, junctionBB) =>
        let '(restoreBB, F) :=
          createBlockWithBranch (checkpointBBName +:+ ".restoreBB") junctionBB F in
        let checkpointTopo := mkTopo checkpointBB saveBB restoreBB junctionBB resumeBB in
        let topoMap := emplace checkpointBB checkpointTopo (checkpointBBTopoMap st) in
        let newBBs := newBBs ∪ {[restoreBB]} ∪ {[junctionBB]} in
        match bbCheckpoints !! checkpointBB with
        | None => Raise OutOfRange
        | Some trackedVals =>
          let m := populateSaveAndRestoreBB ckptMemSegment saveBB restoreBB junctionBB
                     trackedVals F in
          let saveLive := <[saveBB := saveBBLiveOutSet m]> (iSaveBBsLiveOutMap st) in
          let restoreLive := <[restoreBB := restoreBBLiveOutSet m]> (iRestoreBBsLiveOutMap st) in
          let junctionLive := <[junctionBB := junctionBBLiveOutSet m]> (iJunctionBBsLiveOutMap st) in
          let phiVals := <[junctionBB := trackedValPhiValMap m]> (funcJunctionBBPhiValsMap st) in
          let F := storeIsComplete ckptMemSegment saveBB (mF m) in
          let env := mkPropEnv newBBs funcBBLiveVals saveLive restoreLive junctionLive in
          F ← propagateLoadedValues env resumeBB junctionBB (trackedValPhiValMap m)
                (iterate trackedVals) F;
          Ret (mkInj F saveMap topoMap (newBBs ∖ {[saveBB]} ∖ {[restoreBB]} ∖ {[junctionBB]})
                 saveLive restoreLive junctionLive phiVals)
        end
      end
    end
  end.

Fixpoint addSubroutines (ckptMemSegment : Value)
    (bbCheckpoints : gmap BasicBlock (gset Value))
    (checkpointBB : BasicBlock) (checkpointBBSuccessorsList : list BasicBlock)
    (st : InjState) : Res InjState :=
  match checkpointBBSuccessorsList with
  | [] => Ret st
  | successorBB :: rest =>
      st' ← addSubroutine ckptMemSegment bbCheckpoints checkpointBB successorBB st;
      addSubroutines ckptMemSegment bbCheckpoints checkpointBB rest st'
  end.

(** Step 3: the loop over the checkpoint blocks ends after its first
    iteration. *)
Definition addSubroutinesForCheckpoints (ckptMemSegment : Value)
    (bbCheckpoints : gmap BasicBlock (gset Value))
    (checkpointBBPtrSet : gset BasicBlock) (st : InjState) : Res InjState :=
  match iterate checkpointBBPtrSet with
  | [] => Ret st
  | checkpointBB :: _ =>
      addSubroutines ckptMemSegment bbCheckpoints checkpointBB
        (getBBSuccessors (iF st) checkpointBB) st
  end.

(** The body of the loop over the functions of the module. *)
Definition injectSubroutinesInFunction (F : Function) : Res FuncOutcome :=
  if bool_decide (linkage F = LinkOnceODRLinkage) then Ret (Skipped IsLinkOnceODR F false)
  else
  match funcBBTrackedValsMap !! fhandle F with
  | None => Ret (Skipped NoTrackedValuesData F false)
  | Some bbTrackedVals =>
    match getCkptMemSegmentPtr F (getFuncParams F) "ckpt_mem" with
    | None => Ret (Skipped NoCkptMemSegment F false)
    | Some ckptMemSegment =>
      match blocks F with
      | [] => Raise Undefined
      | entryBlk :: _ =>
        let entryBB := bid entryBlk in
        match getBBSuccessors F entryBB with
        | [] => Ret (Skipped SingleBasicBlock F false)
        | restoreControllerSuccessor :: _ =>
          (* 0: get candidate checkpoint BBs *)
          let '(F, bbCheckpoints) := selectCheckpointBBs F bbTrackedVals in
          if bool_decide (size bbCheckpoints = 0%nat)
          then Ret (Skipped NoCheckpointDirective F false)
          else
          (* 1: get pointers to checkpoint BBs *)
          let checkpointBBPtrSet := getCkptBBsInFunc F bbCheckpoints in
          (* 2: add block on exit edge of entry block *)
          inserted ← splitEdgeWrapper sp F entryBB restoreControllerSuccessor
                       (fname F +:+ ".restoreControllerBB");
          match inserted with
          | None => Ret (Skipped RestoreControllerSplitFailed F false)
          | Some (F, restoreControllerBB) =>
            let restoreControllerSuccessor := getSingleSuccessor F restoreControllerBB in
            (* 3: add subroutines, one checkpoint at a time *)
            st ← addSubroutinesForCheckpoints ckptMemSegment bbCheckpoints
                   checkpointBBPtrSet
                   (mkInj F ∅ ∅ {[restoreControllerBB]} ∅ ∅ ∅ ∅);
            (* 4: add checkpoint IDs and heartbeat to saveBBs and restoreBBs *)
            let '(F, ckptIDsCkptToposMap) :=
              getCheckpointIdBBMap (checkpointBBTopoMap st) (iF st) in
            let F := foldl (addIdAndHeartbeat ckptMemSegment) F
                       (iterateZMap ckptIDsCkptToposMap) in
            (* 5: populate restoreControllerBB with the switch *)
            match restoreControllerSuccessor with
            | None => Raise Undefined
            | Some restoreControllerSuccessor =>
              let F := populateRestoreControllerBB ckptMemSegment restoreControllerBB
                         restoreControllerSuccessor ckptIDsCkptToposMap F in
              if bool_decide (size ckptIDsCkptToposMap = 0%nat)
              then Ret (Skipped NoCheckpointsInserted F true)
              else Ret (Injected F restoreControllerBB restoreControllerSuccessor
                          (checkpointBBTopoMap st) ckptIDsCkptToposMap)
            end
          end
        end
      end
    end
  end.

(** [injectSubroutines]: the functions are processed in module order;
    the result is the module and [isModified]. *)
Fixpoint injectSubroutines (M : Module) : Res (Module * bool) :=
  match M with
  | [] => Ret ([], false)
  | F :: rest =>
      o ← injectSubroutinesInFunction F;
      r ← injectSubroutines rest;
      Ret (outcomeFunction o :: r.1, outcomeModified o || r.2)
  end.

End Injection.

(** * Reading the results

    Definitions used to state the properties: what a scan of the function
    meets, what a block looks like once a directive is erased, and the
    inputs the examples run on. *)

Definition scannedOperands (F : Function) : list Operand :=
  allInstructions F ≫= operands.

Definition firstNamed (F : Function) (n : string) : option Operand :=
  head (filter (fun op => getOpName F op = n) (scannedOperands F)).

Definition lastNamed (F : Function) (n : string) : option Operand :=
  last (filter (fun op => getOpName F op = n) (scannedOperands F)).

Fixpoint eraseFirstDirective (insts : list Instruction) : list Instruction :=
  match insts with
  | [] => []
  | inst :: rest =>
      if isCheckpointDirective inst then rest else inst :: eraseFirstDirective rest
  end.

Definition hasDirective (blk : Block) : bool :=
  existsb isCheckpointDirective (body blk).

(** The tracked values of a block that are not nested pointers. *)
Definition savableTrackedVals (F : Function)
    (bbTrackedVals : gmap BasicBlock (gset Value)) (b : BasicBlock) : gset Value :=
  filter (fun val => isNestedPtr (getType F val) = false)
         (default ∅ (bbTrackedVals !! b)).

(** Whether the choice takes block [blk], given the filtered map. *)
Definition chosen (m : gmap BasicBlock (gset Value)) (blk : Block) : bool :=
  bool_decide (is_Some (m !! bid blk)) && hasDirective blk.

Definition F_c8 : Function :=
  mkFunction 1 "f" ExternalLinkage
    [mkArg 1 "a" Int32Ty; mkArg 2 "b" Int64Ty]
    [mkBlock 1 "entry"
       [mkInst 3 "x" Int32Ty Add [OVal 1; OConst Int32Ty 1];
        mkInst 4 "y" Int64Ty Add [OVal 2; OConst Int64Ty 1]]
       (mkInst 5 "" VoidTy (Term []) [])]
    6 2.


(** ** The propagator *)

(** The request is stopped by one of the three tests made at dequeue. *)
Definition stopsAtDequeue (r : BBUpdateRequest) (st : PropState) : bool :=
  stopsAtStart r st || stopsAtExit r st || stopsAtSameVersions r st.

(** The versions a new phi is checked against: the request's, with the
    inputs of the phi. *)
Definition versionsAtNewPhi (F : Function) (r : BBUpdateRequest) : gset Value :=
  valueVersions r ∪
  list_to_set ((fun predBB => if bool_decide (predBB = prevBB r) then newVal r else oldVal r)
               <$> getBBPredecessors F (currBB r)).

(** The phi that the "add new phi" branch creates. *)
Definition newPhiFor (F : Function) (r : BBUpdateRequest) : Instruction :=
  mkInst (nextValue F) (valueName F (newVal r) +:+ ".phi") (getType F (oldVal r))
    (PHI (getBBPredecessors F (currBB r)))
    (OVal <$> ((fun predBB => if bool_decide (predBB = prevBB r) then newVal r else oldVal r)
               <$> getBBPredecessors F (currBB r))).

(** An instruction of the block is itself one of the value versions. *)
Definition redefinesVersion (join : bool) (F : Function) (r : BBUpdateRequest)
    (blk : Block) : bool :=
  if join
  then existsb (fun inst => bool_decide (result inst ∈ versionsAtNewPhi F r))
               (newPhiFor F r :: instructions blk)
  else existsb (fun inst => bool_decide (result inst ∈ valueVersions r))
               (instructions blk).

Definition noOtherSuccessor (blk : Block) (b : BasicBlock) : bool :=
  forallb (fun s => bool_decide (s = b)) (successors blk).

(** What a processed request pushes. *)
Definition pushedRequests (env : PropEnv) (r : BBUpdateRequest) (st : PropState)
    (join : bool) (blk : Block) : list BBUpdateRequest :=
  let F := pF st in
  if join && isPhiInstExistForIncomingBBForTrackedVal (valueVersions r) blk (prevBB r)
  then []
  else if stopsAtDequeue r st || redefinesVersion join F r blk then []
  else if join
       then (fun succBB => mkRequest (startBB r) succBB (currBB r) (oldVal r)
                             (nextValue F) (versionsAtNewPhi F r ∪ {[nextValue F]}))
            <$> filter (fun succBB => succBB ≠ currBB r) (successors blk)
       else (fun succBB => mkRequest (startBB r) succBB (currBB r) (oldVal r)
                             (newVal r) (valueVersions r ∪ {[newVal r]}))
            <$> filter (fun succBB => succBB ≠ currBB r) (successors blk).

Global Instance Argument_eq_dec : EqDecision Argument.
Proof. solve_decision. Defined.
Global Instance Function_eq_dec : EqDecision Function.
Proof. solve_decision. Defined.
Global Instance BBUpdateRequest_eq_dec : EqDecision BBUpdateRequest.
Proof. solve_decision. Defined.
Global Instance PropState_eq_dec : EqDecision PropState.
Proof. solve_decision. Defined.
Global Instance LiveVals_eq_dec : EqDecision LiveVals.
Proof. solve_decision. Defined.
Global Instance PropEnv_eq_dec : EqDecision PropEnv.
Proof. solve_decision. Defined.

(** One turn of the loop that drains the queue. *)
Definition stepQueue (env : PropEnv) (st : PropState) : option PropState :=
  match queue st with
  | [] => None
  | updateRequest :: q =>
      match processUpdateRequest env updateRequest (mkPropState (pF st) q (visitedBBs st)) with
      | Ret st' => Some st'
      | Raise _ => None
      end
  end.

Fixpoint traceFrom (env : PropEnv) (n : nat) (st : PropState) : list PropState :=
  match n with
  | O => []
  | S n' => st :: match stepQueue env st with
                  | Some st' => traceFrom env n' st'
                  | None => []
                  end
  end.

Definition closedUnderStep (env : PropEnv) (orbit : list PropState) : bool :=
  forallb (fun s => match stepQueue env s with
                    | Some s' => bool_decide (s' ∈ orbit)
                    | None => false
                    end) orbit.



(** ** Example inputs *)

Definition br (h : Value) (l : list BasicBlock) : Instruction :=
  mkInst h "" VoidTy (Term l) [].

Definition condbr (h c : Value) (l : list BasicBlock) : Instruction :=
  mkInst h "" VoidTy (Term l) [OVal c].

Definition lv (l : list Value) : LiveVals := mkLiveVals (list_to_set l).

(** A function whose checkpoint resumes in front of a branch: one arm
    uses the tracked value [v] and joins a second path, both arms reach a
    loop that does not use [v].

    entry -> pre -> ckpt | other;  ckpt -> resume;  other -> use;
    resume -> loop | use;  use -> loop;  loop -> latch;  latch -> loop | exit *)
Definition F_c2 : Function :=
  mkFunction 1 "f" ExternalLinkage
   [mkArg 1 "ckpt_mem" (PointerTy Int32Ty); mkArg 2 "n" Int32Ty]
   [ mkBlock 1 "entry" [mkInst 20 "v" Int32Ty Add [OVal 2; OConst Int32Ty 1];
                        mkInst 21 "c" Int32Ty (OtherOp "icmp") [OVal 2; OConst Int32Ty 0]]
                       (br 30 [9]);
     mkBlock 9 "pre" [] (condbr 31 21 [2; 6]);
     mkBlock 2 "ckpt" [mkInst 32 "" VoidTy (Call "checkpoint") []] (br 33 [3]);
     mkBlock 6 "other" [] (br 34 [5]);
     mkBlock 3 "resume" [] (condbr 35 21 [4; 5]);
     mkBlock 5 "use" [mkInst 22 "w" Int32Ty Add [OVal 20; OConst Int32Ty 1]] (br 36 [4]);
     mkBlock 4 "loop" [] (br 37 [7]);
     mkBlock 7 "latch" [] (condbr 38 21 [4; 8]);
     mkBlock 8 "exit" [] (mkInst 39 "" VoidTy (Term []) []) ]
   100 100.
Definition tracked_c2 : gmap positive (gmap positive (gset positive)) :=
  {[ 1 := {[ 2 := {[ 20 ]} ]} ]}.
Definition live_c2 : gmap positive (gmap positive LiveVals) :=
  {[ 1 := {[ 1 := lv [20;21]; 9 := lv [20;21]; 2 := lv [20;21]; 6 := lv [20;21]; 3 := lv [20;21];
             5 := lv [21]; 4 := lv [21]; 7 := lv [21]; 8 := lv [] ]} ]}.
(** The propagator's input for [F_c2]: the function as the surgeon and
    the marshaller leave it, and the first request. *)
Definition env_c2 : PropEnv :=
  mkPropEnv {[100; 101; 102; 103]} live_c2 {[101 := {[20]}]} {[103 := {[20]}]} {[102 := {[20]}]}.

Definition marshalled_c2 : Function :=
  mkFunction 1 "f" ExternalLinkage
   [mkArg 1 "ckpt_mem" (PointerTy Int32Ty); mkArg 2 "n" Int32Ty]
   [ mkBlock 1 "entry" [mkInst 20 "v" Int32Ty Add [OVal 2; OConst Int32Ty 1];
                        mkInst 21 "c" Int32Ty (OtherOp "icmp") [OVal 2; OConst Int32Ty 0]]
                       (br 100 [100]);
     mkBlock 100 "f.restoreControllerBB" [] (br 30 [9]);
     mkBlock 9 "pre" [] (condbr 31 21 [2; 6]);
     mkBlock 2 "ckpt" [] (br 101 [101]);
     mkBlock 101 "ckpt.saveBB"
       [mkInst 104 "idx_v" (PointerTy Int32Ty) GetElementPtr [OVal 1; OConst Int32Ty 3];
        mkInst 105 "" VoidTy Store [OVal 20; OVal 104];
        mkInst 109 "idx_isComplete" (PointerTy Int32Ty) GetElementPtr [OVal 1; OConst Int32Ty 2];
        mkInst 110 "" VoidTy Store [OConst Int32Ty 1; OVal 109]]
       (br 102 [102]);
     mkBlock 102 "ckpt.junctionBB"
       [mkInst 108 "new.v" Int32Ty (PHI [101; 103]) [OVal 20; OVal 107]]
       (br 33 [3]);
     mkBlock 6 "other" [] (br 34 [5]);
     mkBlock 3 "resume" [] (condbr 35 21 [4; 5]);
     mkBlock 5 "use" [mkInst 22 "w" Int32Ty Add [OVal 20; OConst Int32Ty 1]] (br 36 [4]);
     mkBlock 4 "loop" [] (br 37 [7]);
     mkBlock 7 "latch" [] (condbr 38 21 [4; 8]);
     mkBlock 8 "exit" [] (mkInst 39 "" VoidTy (Term []) []);
     mkBlock 103 "ckpt.restoreBB"
       [mkInst 106 "idx_v" (PointerTy Int32Ty) GetElementPtr [OVal 1; OConst Int32Ty 3];
        mkInst 107 "load.v" Int32Ty Load [OVal 106]]
       (br 103 [102]) ]
   111 104.

Definition start_c2 : PropState :=
  mkPropState marshalled_c2 [mkRequest 3 3 102 20 108 ({[20]} ∪ {[108]})] ∅.


(** A function whose checkpoint resumes in a block that loops on itself
    and is also reached by a second path; [v] is live around the loop.

    entry -> pre -> ckpt | other;  ckpt -> spin;  other -> spin;
    spin -> spin | exit *)
Definition F_c6 : Function :=
  mkFunction 1 "g" ExternalLinkage
   [mkArg 1 "ckpt_mem" (PointerTy Int32Ty); mkArg 2 "n" Int32Ty]
   [ mkBlock 1 "entry" [mkInst 20 "v" Int32Ty Add [OVal 2; OConst Int32Ty 1];
                        mkInst 21 "c" Int32Ty (OtherOp "icmp") [OVal 2; OConst Int32Ty 0]]
                       (br 30 [9]);
     mkBlock 9 "pre" [] (condbr 31 21 [2; 4]);
     mkBlock 2 "ckpt" [mkInst 32 "" VoidTy (Call "checkpoint") []] (br 33 [3]);
     mkBlock 4 "other" [] (br 34 [3]);
     mkBlock 3 "spin" [mkInst 22 "w" Int32Ty Add [OVal 20; OConst Int32Ty 1]]
                      (condbr 35 21 [3; 5]);
     mkBlock 5 "exit" [] (mkInst 36 "" VoidTy (Term []) []) ]
   100 100.

Definition tracked_c6 : gmap positive (gmap BasicBlock (gset Value)) :=
  {[ 1 := {[ 2 := {[ 20 ]} ]} ]}.

Definition live_c6 : gmap positive (gmap BasicBlock LiveVals) :=
  {[ 1 := {[ 1 := lv [20;21]; 9 := lv [20;21]; 2 := lv [20;21]; 4 := lv [20;21];
             3 := lv [20;21]; 5 := lv [] ]} ]}.

(** The propagator's input for [F_c6]. *)
Definition env_c6 : PropEnv :=
  mkPropEnv {[100; 101; 102; 103]} live_c6 {[101 := {[20]}]} {[103 := {[20]}]} {[102 := {[20]}]}.

Definition spin_c6 : Block :=
  mkBlock 3 "spin" [mkInst 22 "w" Int32Ty Add [OVal 20; OConst Int32Ty 1]]
          (condbr 35 21 [3; 5]).

Definition marshalled_c6 : Function :=
  mkFunction 1 "g" ExternalLinkage
   [mkArg 1 "ckpt_mem" (PointerTy Int32Ty); mkArg 2 "n" Int32Ty]
   [ mkBlock 1 "entry" [mkInst 20 "v" Int32Ty Add [OVal 2; OConst Int32Ty 1];
                        mkInst 21 "c" Int32Ty (OtherOp "icmp") [OVal 2; OConst Int32Ty 0]]
                       (br 100 [100]);
     mkBlock 100 "g.restoreControllerBB" [] (br 30 [9]);
     mkBlock 9 "pre" [] (condbr 31 21 [2; 4]);
     mkBlock 2 "ckpt" [] (br 101 [101]);
     mkBlock 101 "ckpt.saveBB"
       [mkInst 104 "idx_v" (PointerTy Int32Ty) GetElementPtr [OVal 1; OConst Int32Ty 3];
        mkInst 105 "" VoidTy Store [OVal 20; OVal 104];
        mkInst 109 "idx_isComplete" (PointerTy Int32Ty) GetElementPtr [OVal 1; OConst Int32Ty 2];
        mkInst 110 "" VoidTy Store [OConst Int32Ty 1; OVal 109]]
       (br 102 [102]);
     mkBlock 102 "ckpt.junctionBB"
       [mkInst 108 "new.v" Int32Ty (PHI [101; 103]) [OVal 20; OVal 107]]
       (br 33 [3]);
     mkBlock 4 "other" [] (br 34 [3]);
     spin_c6;
     mkBlock 5 "exit" [] (mkInst 36 "" VoidTy (Term []) []);
     mkBlock 103 "ckpt.restoreBB"
       [mkInst 106 "idx_v" (PointerTy Int32Ty) GetElementPtr [OVal 1; OConst Int32Ty 3];
        mkInst 107 "load.v" Int32Ty Load [OVal 106]]
       (br 103 [102]) ]
   111 104.

Definition request_c6 : BBUpdateRequest := mkRequest 3 3 102 20 108 ({[20]} ∪ {[108]}).

Definition start_c6 : PropState := mkPropState marshalled_c6 [] ∅.


(** ** Reading the marshalled blocks *)

Definition bodyOf (F : Function) (b : BasicBlock) : list Instruction :=
  match getBlock F b with
  | Some blk => body blk
  | None => []
  end.

Definition hasBlock (F : Function) (b : BasicBlock) : Prop := is_Some (getBlock F b).

(** A store of the save block into a slot of the checkpoint memory: the
    value it saves, whether the stored word is a load through that value,
    and the slot. *)
Record Saved := mkSaved {
  savedValue : Value;
  savedThroughLoad : bool;
  savedSlot : Z }.

(** The scan of a save block, in instruction order: the pointers known to
    address a slot of [ckpt_mem], the results of loads with the pointer
    they load through, the slots stored to and the values saved. *)
Record SaveScan := mkSaveScan {
  slotPtrs : gmap Value Z;
  derefs : gmap Value Value;
  storedSlots : list Z;
  saved : list Saved }.

Definition scanSaveStep (ckptMem : Value) (s : SaveScan) (inst : Instruction) : SaveScan :=
  match opcode inst, operands inst with
  | GetElementPtr, [OVal base; OConst _ k] =>
      if bool_decide (base = ckptMem)
      then mkSaveScan (<[result inst := k]> (slotPtrs s)) (derefs s) (storedSlots s) (saved s)
      else s
  | Load, [OVal p] =>
      mkSaveScan (slotPtrs s) (<[result inst := p]> (derefs s)) (storedSlots s) (saved s)
  | Store, [val; OVal p] =>
      match slotPtrs s !! p with
      | Some k =>
          mkSaveScan (slotPtrs s) (derefs s) (storedSlots s ++ [k])
            (saved s ++
             match val with
             | OVal sv => [match derefs s !! sv with
                           | Some q => mkSaved q true k
                           | None => mkSaved sv false k
                           end]
             | OConst _ _ => []
             end)
      | None => s
      end
  | _, _ => s
  end.

Definition scanSave (ckptMem : Value) (insts : list Instruction) : SaveScan :=
  foldl (scanSaveStep ckptMem) (mkSaveScan ∅ ∅ [] []) insts.

(** The scan of a restore block: the slot pointers, the allocas, the
    slots loaded from, and for each value that holds a restored word
    whether it is an alloca the word was stored to, and the slot. *)
Record RestoreScan := mkRestoreScan {
  rSlotPtrs : gmap Value Z;
  allocas : gset Value;
  loadedSlots : list Z;
  restored : gmap Value (bool * Z) }.

Definition scanRestoreStep (ckptMem : Value) (s : RestoreScan) (inst : Instruction)
    : RestoreScan :=
  match opcode inst, operands inst with
  | GetElementPtr, [OVal base; OConst _ k] =>
      if bool_decide (base = ckptMem)
      then mkRestoreScan (<[result inst := k]> (rSlotPtrs s)) (allocas s)
             (loadedSlots s) (restored s)
      else s
  | Load, [OVal p] =>
      match rSlotPtrs s !! p with
      | Some k => mkRestoreScan (rSlotPtrs s) (allocas s) (loadedSlots s ++ [k])
                    (<[result inst := (false, k)]> (restored s))
      | None => s
      end
  | Alloca, _ =>
      mkRestoreScan (rSlotPtrs s) (allocas s ∪ {[result inst]}) (loadedSlots s) (restored s)
  | Store, [OVal t; OVal a] =>
      match restored s !! t with
      | Some (false, k) =>
          if bool_decide (a ∈ allocas s)
          then mkRestoreScan (rSlotPtrs s) (allocas s) (loadedSlots s)
                 (<[a := (true, k)]> (restored s))
          else s
      | _ => s
      end
  | _, _ => s
  end.

Definition scanRestore (ckptMem : Value) (insts : list Instruction) : RestoreScan :=
  foldl (scanRestoreStep ckptMem) (mkRestoreScan ∅ ∅ [] ∅) insts.

(** The phis of a junction block with exactly two incomings, the first
    from the save block and the second from the restore block: the value
    coming from the save block and the one from the restore block. *)
Definition junctionMerges (saveBB restoreBB : BasicBlock) (insts : list Instruction)
    : list (Value * Value) :=
  omap (fun inst =>
    match opcode inst, operands inst with
    | PHI [b1; b2], [OVal v; OVal r] =>
        if bool_decide (b1 = saveBB) && bool_decide (b2 = restoreBB)
        then Some (v, r) else None
    | _, _ => None
    end) insts.

(** The slots of the marshaller: [VALUES_START], [VALUES_START + 1], ... *)
Definition valueSlots (n : nat) : list Z :=
  (fun i : nat => (VALUES_START + Z.of_nat i)%Z) <$> seq 0 n.

(** What holds of the three blocks after the marshaller has treated the
    tracked values [l], [rs] being the values restored for them. *)
Definition marshalledSoFar (ckptMem : Value) (saveBB restoreBB junctionBB : BasicBlock)
    (F0 : Function) (l rs : list Value) (m : MarshalState) : Prop :=
  let F := mF m in
  let s := scanSave ckptMem (bodyOf F saveBB) in
  let t := scanRestore ckptMem (bodyOf F restoreBB) in
  hasBlock F saveBB /\ hasBlock F restoreBB /\ hasBlock F junctionBB
  /\ (nextValue F0 ≤ nextValue F)%positive
  /\ (forall u, u < nextValue F0 -> getType F u = getType F0 u)
  /\ valMemSegIndex m = (VALUES_START + Z.of_nat (length l))%Z
  /\ saved s = imap (fun i v => mkSaved v (isPointerTy (getType F0 v))
                                  (VALUES_START + Z.of_nat i)) l
  /\ storedSlots s = valueSlots (length l)
  /\ (forall u, u < nextValue F0 -> derefs s !! u = None)
  /\ loadedSlots t = valueSlots (length l)
  /\ length rs = length l
  /\ junctionMerges saveBB restoreBB (bodyOf F junctionBB) = zip l rs
  /\ (forall i v r, l !! i = Some v -> rs !! i = Some r ->
        restored t !! r = Some (isPointerTy (getType F0 v), (VALUES_START + Z.of_nat i)%Z))
  /\ (forall r, r ∈ rs -> r < nextValue F).

(** A function as the surgeon leaves it, with empty save, junction and
    restore blocks; the checkpoint tracks the pointer [a] and the word [v]. *)
Definition F_marshal : Function :=
  mkFunction 1 "g" ExternalLinkage
   [mkArg 1 "ckpt_mem" (PointerTy Int32Ty); mkArg 2 "a" (PointerTy DoubleTy)]
   [ mkBlock 1 "entry" [mkInst 20 "v" Int32Ty Add [OConst Int32Ty 1; OConst Int32Ty 1]]
                       (br 100 [100]);
     mkBlock 100 "g.restoreControllerBB" [] (br 30 [2]);
     mkBlock 2 "ckpt" [] (br 101 [101]);
     mkBlock 101 "ckpt.saveBB" [] (br 102 [102]);
     mkBlock 102 "ckpt.junctionBB" [] (br 33 [3]);
     mkBlock 3 "exit" [] (mkInst 39 "" VoidTy (Term []) []);
     mkBlock 103 "ckpt.restoreBB" [] (br 103 [102]) ]
   104 104.


(** A function whose checkpoint resumes in front of a diamond: both arms
    carry the tracked value [v] to the block that uses it.

    entry -> ckpt -> resume -> left | right;  left -> use;  right -> use;
    use -> exit *)
Definition F_diamond : Function :=
  mkFunction 1 "d" ExternalLinkage
   [mkArg 1 "ckpt_mem" (PointerTy Int32Ty); mkArg 2 "n" Int32Ty]
   [ mkBlock 1 "entry" [mkInst 20 "v" Int32Ty Add [OVal 2; OConst Int32Ty 1];
                        mkInst 21 "c" Int32Ty (OtherOp "icmp") [OVal 2; OConst Int32Ty 0]]
                       (br 30 [2]);
     mkBlock 2 "ckpt" [mkInst 32 "" VoidTy (Call "checkpoint") []] (br 33 [3]);
     mkBlock 3 "resume" [] (condbr 35 21 [4; 5]);
     mkBlock 4 "left" [] (br 36 [7]);
     mkBlock 5 "right" [] (br 37 [7]);
     mkBlock 7 "use" [mkInst 22 "w" Int32Ty Add [OVal 20; OConst Int32Ty 1]] (br 38 [8]);
     mkBlock 8 "exit" [] (mkInst 39 "" VoidTy (Term []) []) ]
   100 100.
Definition tracked_diamond : gmap positive (gmap positive (gset positive)) :=
  {[ 1 := {[ 2 := {[ 20 ]} ]} ]}.
Definition live_diamond : gmap positive (gmap positive LiveVals) :=
  {[ 1 := {[ 1 := lv [20;21]; 2 := lv [20;21]; 3 := lv [20]; 4 := lv [20]; 5 := lv [20];
             7 := lv []; 8 := lv [] ]} ]}.
Definition env_diamond : PropEnv :=
  mkPropEnv {[100; 101; 102; 103]} live_diamond {[101 := {[20]}]} {[103 := {[20]}]} {[102 := {[20]}]}.

Definition marshalled_diamond : Function :=
  mkFunction 1 "d" ExternalLinkage
   [mkArg 1 "ckpt_mem" (PointerTy Int32Ty); mkArg 2 "n" Int32Ty]
   [ mkBlock 1 "entry" [mkInst 20 "v" Int32Ty Add [OVal 2; OConst Int32Ty 1];
                        mkInst 21 "c" Int32Ty (OtherOp "icmp") [OVal 2; OConst Int32Ty 0]]
                       (br 100 [100]);
     mkBlock 100 "d.restoreControllerBB" [] (br 30 [2]);
     mkBlock 2 "ckpt" [] (br 101 [101]);
     mkBlock 101 "ckpt.saveBB"
       [mkInst 104 "idx_v" (PointerTy Int32Ty) GetElementPtr [OVal 1; OConst Int32Ty 3];
        mkInst 105 "" VoidTy Store [OVal 20; OVal 104];
        mkInst 109 "idx_isComplete" (PointerTy Int32Ty) GetElementPtr [OVal 1; OConst Int32Ty 2];
        mkInst 110 "" VoidTy Store [OConst Int32Ty 1; OVal 109]]
       (br 102 [102]);
     mkBlock 102 "ckpt.junctionBB"
       [mkInst 108 "new.v" Int32Ty (PHI [101; 103]) [OVal 20; OVal 107]]
       (br 33 [3]);
     mkBlock 3 "resume" [] (condbr 35 21 [4; 5]);
     mkBlock 4 "left" [] (br 36 [7]);
     mkBlock 5 "right" [] (br 37 [7]);
     mkBlock 7 "use" [mkInst 22 "w" Int32Ty Add [OVal 20; OConst Int32Ty 1]] (br 38 [8]);
     mkBlock 8 "exit" [] (mkInst 39 "" VoidTy (Term []) []);
     mkBlock 103 "ckpt.restoreBB"
       [mkInst 106 "idx_v" (PointerTy Int32Ty) GetElementPtr [OVal 1; OConst Int32Ty 3];
        mkInst 107 "load.v" Int32Ty Load [OVal 106]]
       (br 103 [102]) ]
   111 104.


(** The propagator's first state for [F_diamond]. *)
Definition start_diamond : PropState :=
  mkPropState marshalled_diamond [mkRequest 3 3 102 20 108 ({[20]} ∪ {[108]})] ∅.

(** A function with two checkpoint blocks in a row. *)
Definition F_two : Function :=
  mkFunction 1 "h" ExternalLinkage
   [mkArg 1 "ckpt_mem" (PointerTy Int32Ty); mkArg 2 "n" Int32Ty]
   [ mkBlock 1 "entry" [mkInst 20 "v" Int32Ty Add [OVal 2; OConst Int32Ty 1]] (br 30 [2]);
     mkBlock 2 "first" [mkInst 31 "" VoidTy (Call "checkpoint") []] (br 32 [3]);
     mkBlock 3 "second" [mkInst 33 "" VoidTy (Call "checkpoint") []] (br 34 [4]);
     mkBlock 4 "exit" [mkInst 21 "w" Int32Ty Add [OVal 20; OConst Int32Ty 1]]
                      (mkInst 35 "" VoidTy (Term []) []) ]
   100 100.
Definition tracked_two : gmap positive (gmap positive (gset positive)) :=
  {[ 1 := {[ 2 := {[ 20 ]}; 3 := {[ 20 ]} ]} ]}.
Definition live_two : gmap positive (gmap positive LiveVals) :=
  {[ 1 := {[ 1 := lv [20]; 2 := lv [20]; 3 := lv [20]; 4 := lv [] ]} ]}.


(** A function with LinkOnceODR linkage that holds a directive. *)
Definition F_odr : Function :=
  mkFunction 2 "inl" LinkOnceODRLinkage (fargs F_two) (blocks F_two) 100 100.

(** The control flow of a function and its signature: what the
    propagator has no business changing. *)
Definition sameControlFlow (F F' : Function) : Prop :=
  bid <$> blocks F' = bid <$> blocks F
  /\ (forall b, getBBSuccessors F' b = getBBSuccessors F b)
  /\ nextBlock F' = nextBlock F
  /\ fhandle F' = fhandle F /\ fname F' = fname F
  /\ linkage F' = linkage F /\ fargs F' = fargs F.

(** A propagator that, when it returns, has kept the control flow. *)
Definition keepsControlFlow (propagate : Propagator) : Prop :=
  forall env resumeBB junctionBB trackedVal phi F st,
    propagate env resumeBB junctionBB trackedVal phi F = Ret st ->
    sameControlFlow F (pF st).

(** The predecessors whose live-out set the count cannot read: the ones
    that are none of the new blocks, when the function has no liveness
    data. *)
Definition unreadablePred (env : PropEnv) (F : Function) (pred : BasicBlock) : Prop :=
  funcJunctionBBsLiveOutMap env !! pred = None
  /\ funcSaveBBsLiveOutMap env !! pred = None
  /\ funcRestoreBBsLiveOutMap env !! pred = None
  /\ funcBBLiveValsMap env !! fhandle F = None.

(** A function with the names of its blocks erased: what [setName]
    keeps of a function. *)
Definition unnamed (F : Function) : Function :=
  setBlocks F ((fun blk => setBlockName blk "") <$> blocks F).

(** The state of the loop of [getCheckpointIdBBMap] after the entries [l]:
    the counter, and the ids given so far. *)
Definition idsGiven (l : list (BasicBlock * CheckpointTopo)) (counter : Z)
    (ids : gmap Z CheckpointTopo) : Prop :=
  counter = ((1 + Z.of_nat (length l)) `mod` 256)%Z
  /\ (forall i e, (i < 256)%nat -> l !! i = Some e ->
        ids !! ((Z.of_nat i + 1) `mod` 256)%Z = Some e.2)
  /\ (forall k, is_Some (ids !! k) ->
        exists i, (i < length l)%nat /\ (i < 256)%nat /\ k = ((Z.of_nat i + 1) `mod` 256)%Z)
  /\ size ids = (length l `min` 256)%nat.

(** [std::max_element] and [std::min_element] with a comparison [comp]:
    the first greatest, the first least; the end iterator on an empty
    range. *)
Definition max_element {A} (comp : A -> A -> bool) (l : list A) : option A :=
  match l with
  | [] => None
  | first :: rest =>
      Some (foldl (fun largest x => if comp largest x then x else largest) first rest)
  end.

Definition min_element {A} (comp : A -> A -> bool) (l : list A) : option A :=
  match l with
  | [] => None
  | first :: rest =>
      Some (foldl (fun smallest x => if comp x smallest then x else smallest) first rest)
  end.

(** The end iterator is dereferenced when the map is empty. *)
Definition getMaxNumOfTrackedValsForBBs (bbTrackedVals : gmap BasicBlock (gset Value))
    : Res nat :=
  match max_element (fun a b : BasicBlock * gset Value => size a.2 <? size b.2)%nat
          (iterateMap bbTrackedVals) with
  | Some maxElem => Ret (size maxElem.2)
  | None => Raise Undefined
  end.

Definition chooseBBWithLeastTrackedVals (bbTrackedVals : gmap BasicBlock (gset Value))
    (F : Function) (minValsCount : nat) : Res (gmap BasicBlock (gset Value)) :=
  maxSize ← getMaxNumOfTrackedValsForBBs bbTrackedVals;
  if (maxSize <? minValsCount)%nat then Ret ∅
  else
    (* Find min number of tracked values that is >= minValsCount *)
    match min_element (fun a b : BasicBlock * gset Value =>
            if (size a.2 <? minValsCount)%nat then false
            else if (size b.2 <? minValsCount)%nat then true
            else (size a.2 <? size b.2)%nat)
          (iterateMap bbTrackedVals) with
    | None => Raise Undefined
    | Some minElem =>
        let minSize := size minElem.2 in
        if (minValsCount <=? minSize)%nat then
          Ret (foldl (fun cpBBMap (entry : BasicBlock * gset Value) =>
                 if (size entry.2 =? minSize)%nat
                 then emplace entry.1 entry.2 cpBBMap else cpBBMap)
               ∅ (iterateMap bbTrackedVals))
        else Ret ∅
    end.

(** [BasicBlock::isEntryBlock], for a block of [F]. *)
Definition isEntryBlock (F : Function) (BB : BasicBlock) : bool :=
  bool_decide (bid <$> head (blocks F) = Some BB).

Module ModuleTransformationPass.

Definition getMaxNumOfTrackedValsForBBsInFunc (F : Function)
    (map : gmap positive (gmap BasicBlock (gset Value))) : Res nat :=
  match map !! fhandle F with
  | Some bbTrackedVals =>
      match max_element (fun a b : BasicBlock * gset Value => size a.2 <? size b.2)%nat
              (iterateMap bbTrackedVals) with
      | Some maxElem => Ret (size maxElem.2)
      | None => Raise Undefined
      end
  | None =>
      (* No tracked values analysis info available for function. *)
      Ret 0%nat
  end.

Definition chooseBBWithLeastTrackedVals
    (map : gmap positive (gmap BasicBlock (gset Value))) (F : Function)
    (minValsCount : nat) : Res (gmap BasicBlock (gset Value)) :=
  match map !! fhandle F with
  | Some bbTrackedVals =>
      maxSize ← getMaxNumOfTrackedValsForBBsInFunc F map;
      if (maxSize <? minValsCount)%nat then Ret ∅
      else
        match min_element (fun a b : BasicBlock * gset Value =>
                (* ignore entry blocks *)
                if isEntryBlock F a.1 then false
                else if isEntryBlock F b.1 then true
                (* ignore blocks with fewer tracked values than the minValsCount *)
                else if (size a.2 <? minValsCount)%nat then false
                else if (size b.2 <? minValsCount)%nat then true
                else (size a.2 <? size b.2)%nat)
              (iterateMap bbTrackedVals) with
        | None => Raise Undefined
        | Some minElem =>
            let minSize := size minElem.2 in
            if (minValsCount <=? minSize)%nat then
              Ret (foldl (fun cpBBMap (entry : BasicBlock * gset Value) =>
                     if (size entry.2 =? minSize)%nat
                     then emplace entry.1 entry.2 cpBBMap else cpBBMap)
                   ∅ (iterateMap bbTrackedVals))
            else Ret ∅
        end
  | None => Ret ∅
  end.

End ModuleTransformationPass.

(** The least number of tracked values, at least [minValsCount], that a
    block of [bbTrackedVals] other than [entryBB] has. *)
Definition leastCount (bbTrackedVals : gmap BasicBlock (gset Value))
    (entryBB : option BasicBlock) (minValsCount least : nat) : Prop :=
  (exists BB trackedVals,
     entryBB ≠ Some BB /\ bbTrackedVals !! BB = Some trackedVals
     /\ size trackedVals = least)
  /\ (minValsCount ≤ least)%nat
  /\ forall BB trackedVals,
       entryBB ≠ Some BB -> bbTrackedVals !! BB = Some trackedVals ->
       (minValsCount ≤ size trackedVals)%nat -> (least ≤ size trackedVals)%nat.

(** ** The compare of a conditional branch *)

Definition isCmpInst (inst : Instruction) : bool :=
  match opcode inst with
  | OtherOp mnemonic => bool_decide (mnemonic = "icmp") || bool_decide (mnemonic = "fcmp")
  | _ => false
  end.

(** [getCmpInstForCondiBrInst] for the terminator of [blk]: the condition
    is the first operand of the branch (there is none on a branch that is
    not conditional), [getPrevNode] is the last instruction of the body.
    Every turn of the loop reads the same node. *)
Fixpoint getCmpInstForCondiBrInst (fuel : nat) (blk : Block) : Res (option Instruction) :=
  match head (operands (term blk)) with
  | None => Raise Undefined
  | Some condition =>
      match fuel with
      | O => Raise OutOfFuel
      | S fuel' =>
          match last (body blk) with
          | None => Ret None
          | Some instr =>
              if isCmpInst instr && bool_decide (OVal (result instr) = condition)
              then Ret (Some instr)
              else getCmpInstForCondiBrInst fuel' blk
          end
      end
  end.

(** The block handles of a function are distinct and the next handle to
    be given is above them: what fresh addresses give in the source. *)
Definition wellFormed (F : Function) : Prop :=
  NoDup (bid <$> blocks F) /\ forall b, b ∈ bid <$> blocks F -> b < nextBlock F.

(** [F'] is [F] with the block [New] added, and the successors of no
    block other than [BB] and [New] changed. *)
Definition blockAdded (F F' : Function) (BB New : BasicBlock) : Prop :=
  New = nextBlock F
  /\ nextBlock F' = Pos.succ (nextBlock F)
  /\ bid <$> blocks F' ≡ₚ New :: (bid <$> blocks F)
  /\ (forall b, b ≠ BB -> b ≠ New -> getBBSuccessors F' b = getBBSuccessors F b)
  /\ fhandle F' = fhandle F /\ fname F' = fname F
  /\ linkage F' = linkage F /\ fargs F' = fargs F.

(** A function whose entry block holds the directive. *)
Definition F_entry : Function :=
  mkFunction 1 "g" ExternalLinkage
   [mkArg 1 "ckpt_mem" (PointerTy Int32Ty); mkArg 2 "n" Int32Ty]
   [ mkBlock 1 "entry" [mkInst 20 "v" Int32Ty Add [OVal 2; OConst Int32Ty 1];
                        mkInst 31 "" VoidTy (Call "checkpoint") []] (br 30 [2]);
     mkBlock 2 "exit" [mkInst 21 "w" Int32Ty Add [OVal 20; OConst Int32Ty 1]]
                      (mkInst 35 "" VoidTy (Term []) []) ]
   100 100.

Definition tracked_entry : gmap positive (gmap positive (gset positive)) :=
  {[ 1 := {[ 1 := {[ 20 ]} ]} ]}.

Definition live_entry : gmap positive (gmap positive LiveVals) :=
  {[ 1 := {[ 1 := lv [20]; 2 := lv [] ]} ]}.

(** [removeSelectedTrackedVals]: every block keeps its entry; the tracked
    values that are among [ignoredValues] are left out of it. *)
Definition removeSelectedTrackedVals (bbTrackedVals : gmap BasicBlock (gset Value))
    (ignoredValues : gset Value) : gmap BasicBlock (gset Value) :=
  foldl (fun filteredBBTrackedVals (entry : BasicBlock * gset Value) =>
    let filteredTrackedValues :=
      foldl (fun filteredTrackedValues val =>
               if bool_decide (val ∈ ignoredValues) then filteredTrackedValues
               else filteredTrackedValues ∪ {[val]})
            ∅ (iterate entry.2) in
    emplace entry.1 filteredTrackedValues filteredBBTrackedVals)
  ∅ (iterateMap bbTrackedVals).

(** [b] can be reached from [a] along the edges of [F]. *)
Definition reachable (F : Function) : relation BasicBlock :=
  rtc (fun a b => b ∈ getBBSuccessors F a).

(** The propagator's input for [F_two]: the function as the surgeon and
    the marshaller leave it.

    entry -> dispatcher -> first -> save -> junction -> second -> exit;
    restore -> junction *)
Definition env_two : PropEnv :=
  mkPropEnv {[100; 101; 102; 103]} live_two {[101 := {[20]}]} {[103 := {[20]}]} {[102 := {[20]}]}.

Definition marshalled_two : Function :=
  mkFunction 1 "h" ExternalLinkage
   [mkArg 1 "ckpt_mem" (PointerTy Int32Ty); mkArg 2 "n" Int32Ty]
   [ mkBlock 1 "entry" [mkInst 20 "v" Int32Ty Add [OVal 2; OConst Int32Ty 1]] (br 100 [100]);
     mkBlock 100 "h.restoreControllerBB" [] (br 30 [2]);
     mkBlock 2 "first" [] (br 101 [101]);
     mkBlock 101 "first.saveBB"
       [mkInst 104 "idx_v" (PointerTy Int32Ty) GetElementPtr [OVal 1; OConst Int32Ty 3];
        mkInst 105 "" VoidTy Store [OVal 20; OVal 104];
        mkInst 109 "idx_isComplete" (PointerTy Int32Ty) GetElementPtr [OVal 1; OConst Int32Ty 2];
        mkInst 110 "" VoidTy Store [OConst Int32Ty 1; OVal 109]]
       (br 102 [102]);
     mkBlock 102 "first.junctionBB"
       [mkInst 108 "new.v" Int32Ty (PHI [101; 103]) [OVal 20; OVal 107]]
       (br 32 [3]);
     mkBlock 3 "second" [] (br 34 [4]);
     mkBlock 4 "exit" [mkInst 21 "w" Int32Ty Add [OVal 20; OConst Int32Ty 1]]
                      (mkInst 35 "" VoidTy (Term []) []);
     mkBlock 103 "first.restoreBB"
       [mkInst 106 "idx_v" (PointerTy Int32Ty) GetElementPtr [OVal 1; OConst Int32Ty 3];
        mkInst 107 "load.v" Int32Ty Load [OVal 106]]
       (br 103 [102]) ]
   111 104.

(** [F_two] without the [ckpt_mem] argument. *)
Definition F_no_ckpt_mem : Function :=
  mkFunction 1 "h" ExternalLinkage [mkArg 2 "n" Int32Ty] (blocks F_two) 100 100.


(** * Inputs binder: the first binding of a name is kept *)

Lemma emplace_lookup `{Countable K} {A} (k k' : K) (a : A) (m : gmap K A) :
  emplace k a m !! k' =
  match m !! k' with
  | Some x => Some x
  | None => if decide (k = k') then Some a else None
  end.
Proof.
  unfold emplace. destruct (m !! k) as [x|] eqn:Hk.
  - destruct (m !! k') eqn:Hk'; [done|]. case_decide; congruence.
  - rewrite lookup_insert. case_decide; subst.
    + by rewrite Hk.
    + by destruct (m !! k').
Qed.

Lemma foldl_emplace_lookup (F : Function) (ops : list Operand)
    (m : gmap string Operand) (n : string) :
  foldl (fun m operand => emplace (getOpName F operand) operand m) m ops !! n =
  match m !! n with
  | Some x => Some x
  | None => head (filter (fun op => getOpName F op = n) ops)
  end.
Proof.
  revert m. induction ops as [|op ops IH]; intros m; simpl.
  - by destruct (m !! n).
  - rewrite IH, emplace_lookup. destruct (m !! n); [done|].
    rewrite filter_cons. destruct (decide (getOpName F op = n)); done.
Qed.

Lemma foldl_bind {A B C} (f : C -> B -> C) (g : A -> list B) (l : list A) (c : C) :
  foldl (fun c a => foldl f c (g a)) c l = foldl f c (l ≫= g).
Proof.
  revert c. induction l as [|a l IH]; intros c; simpl; [done|].
  by rewrite IH, foldl_app.
Qed.

Lemma valuePtrsOfFunction_scan (F : Function) :
  valuePtrsOfFunction F =
  foldl (fun m operand => emplace (getOpName F operand) operand m) ∅ (scannedOperands F).
Proof.
  unfold valuePtrsOfFunction, scannedOperands, allInstructions.
  rewrite <- !foldl_bind. done.
Qed.

(** C8 (amended): the map binds every name met while scanning the operands
    of every instruction of every block, and a name that occurs more than
    once keeps the operand scanned first. *)
Theorem C8_first_scanned_operand_wins (F : Function) (n : string) :
  valuePtrsOfFunction F !! n = firstNamed F n.
Proof.
  rewrite valuePtrsOfFunction_scan, foldl_emplace_lookup. by rewrite lookup_empty.
Qed.

(** C8 as stated fails: with the constants [i32 1] and [i64 1], both
    printed "1", the binding of the last scanned operand is not the one
    kept. *)
Lemma C8_last_scanned_operand_does_not_win :
  ~ (forall n, valuePtrsOfFunction F_c8 !! n = lastNamed F_c8 n).
Proof.
  intros H. specialize (H "1"). vm_compute in H. discriminate H.
Qed.

(** * Candidate selector *)

Lemma getBlock_In (F : Function) (blk : Block) :
  NoDup (bid <$> blocks F) -> blk ∈ blocks F -> getBlock F (bid blk) = Some blk.
Proof.
  unfold getBlock. induction (blocks F) as [|b bs IH]; intros Hnd Hin.
  - by apply elem_of_nil in Hin.
  - simpl in *. apply NoDup_cons in Hnd as [Hb Hnd].
    apply elem_of_cons in Hin as [-> | Hin].
    + by rewrite bool_decide_eq_true_2.
    + rewrite bool_decide_eq_false_2; [by apply IH|].
      intros Heq. apply Hb. rewrite Heq. by apply list_elem_of_fmap_2.
Qed.

Lemma getBlock_Some (F : Function) (b : BasicBlock) (blk : Block) :
  getBlock F b = Some blk -> blk ∈ blocks F /\ bid blk = b.
Proof.
  unfold getBlock. intros H. apply find_some in H as [Hin Hb].
  split; [by apply list_elem_of_In | by apply bool_decide_eq_true_1 in Hb].
Qed.

Lemma filterChain_lookup (F : Function) (m : gmap BasicBlock (gset Value))
    (b : BasicBlock) (vs : gset Value) :
  removeBBsWithNoTrackedVals
    (removeNestedPtrTrackedVals F (getBBsWithOneSuccessor F m)) !! b = Some vs
  <-> getNumSuccessors F b = 1%nat /\ is_Some (m !! b)
      /\ vs = savableTrackedVals F m b /\ vs ≠ ∅.
Proof.
  unfold removeBBsWithNoTrackedVals, removeNestedPtrTrackedVals,
    getBBsWithOneSuccessor, savableTrackedVals.
  rewrite map_lookup_filter_Some, lookup_fmap. simpl.
  destruct (m !! b) as [vs0|] eqn:Hm; simpl.
  - split.
    + intros [Hl Hsz]. apply fmap_Some in Hl as (vs1 & Hl & ->).
      apply map_lookup_filter_Some in Hl as [Hl H1]. simpl in H1.
      assert (vs1 = vs0) as -> by congruence.
      repeat split; eauto.
      intros He. rewrite He, size_empty in Hsz. lia.
    + intros (H1 & _ & -> & Hne). split.
      * apply fmap_Some. exists vs0. split; [|done].
        by apply map_lookup_filter_Some.
      * assert (size (filter (λ val : positive, isNestedPtr (getType F val) = false) vs0) ≠ 0%nat); [|lia].
        apply size_non_empty_iff. by intros ?%leibniz_equiv.
  - split.
    + intros [Hl _]. apply fmap_Some in Hl as (vs1 & Hl & _).
      apply map_lookup_filter_Some in Hl as [Hl _]. congruence.
    + intros (_ & [? ?] & _). congruence.
Qed.

Lemma scanForDirective_spec (m : gmap BasicBlock (gset Value)) (b : BasicBlock)
    (insts : list Instruction) :
  scanForDirective m b insts =
  match m !! b with
  | Some tv => if existsb isCheckpointDirective insts
               then Some (eraseFirstDirective insts, tv) else None
  | None => None
  end.
Proof.
  induction insts as [|i rest IH]; simpl.
  - by destruct (m !! b).
  - rewrite IH. destruct (isCheckpointDirective i); simpl;
      destruct (m !! b); try done;
      by destruct (existsb isCheckpointDirective rest).
Qed.

Lemma chosen_eq (m : gmap BasicBlock (gset Value)) (blk : Block) :
  chosen m blk =
  match m !! bid blk with
  | Some _ => existsb isCheckpointDirective (body blk)
  | None => false
  end.
Proof.
  unfold chosen, hasDirective. destruct (m !! bid blk) eqn:Hm.
  - by rewrite bool_decide_eq_true_2 by eauto.
  - by rewrite bool_decide_eq_false_2 by (intros [? ?]; congruence).
Qed.

Lemma chooseBlocks_blocks (m : gmap BasicBlock (gset Value)) (bs : list Block)
    (cp : gmap BasicBlock (gset Value)) :
  (chooseBlocks m bs cp).1 =
  (fun blk => if chosen m blk then setBody blk (eraseFirstDirective (body blk)) else blk)
  <$> bs.
Proof.
  revert cp. induction bs as [|blk bs IH]; intros cp; simpl; [done|].
  rewrite scanForDirective_spec, chosen_eq.
  destruct (m !! bid blk) as [tv|] eqn:Hm;
    [destruct (existsb isCheckpointDirective (body blk)) eqn:Hd|].
  - specialize (IH (emplace (bid blk) tv cp)).
    destruct (chooseBlocks m bs (emplace (bid blk) tv cp)). simpl in *. by rewrite IH.
  - specialize (IH cp). destruct (chooseBlocks m bs cp). simpl in *. by rewrite IH.
  - specialize (IH cp). destruct (chooseBlocks m bs cp). simpl in *. by rewrite IH.
Qed.

Lemma chooseBlocks_lookup (m : gmap BasicBlock (gset Value)) (bs : list Block)
    (cp : gmap BasicBlock (gset Value)) (b : BasicBlock) :
  (chooseBlocks m bs cp).2 !! b =
  match cp !! b with
  | Some x => Some x
  | None => if existsb (fun blk => bool_decide (bid blk = b) && chosen m blk) bs
            then m !! b else None
  end.
Proof.
  revert cp. induction bs as [|blk bs IH]; intros cp; simpl.
  - by destruct (cp !! b).
  - rewrite scanForDirective_spec, chosen_eq.
    destruct (m !! bid blk) as [tv|] eqn:Hm;
      [destruct (existsb isCheckpointDirective (body blk)) eqn:Hd|].
    + specialize (IH (emplace (bid blk) tv cp)).
      destruct (chooseBlocks m bs (emplace (bid blk) tv cp)). simpl in *.
      rewrite IH, emplace_lookup. clear IH.
      destruct (cp !! b); [done|].
      case_decide as Hb; subst.
      * rewrite bool_decide_eq_true_2 by done. simpl. by rewrite Hm.
      * by rewrite bool_decide_eq_false_2 by done.
    + specialize (IH cp). destruct (chooseBlocks m bs cp). simpl in *.
      by rewrite IH, andb_false_r.
    + specialize (IH cp). destruct (chooseBlocks m bs cp). simpl in *.
      by rewrite IH, andb_false_r.
Qed.

Lemma selectCheckpointBBs_blocks (F : Function) (m : gmap BasicBlock (gset Value)) :
  let filtered := removeBBsWithNoTrackedVals
                    (removeNestedPtrTrackedVals F (getBBsWithOneSuccessor F m)) in
  blocks (selectCheckpointBBs F m).1 =
  (fun blk => if chosen filtered blk
              then setBody blk (eraseFirstDirective (body blk)) else blk)
  <$> blocks F.
Proof.
  intros filtered. unfold selectCheckpointBBs, chooseBBWithCheckpointDirective.
  fold filtered. rewrite <- chooseBlocks_blocks with (cp := ∅).
  by destruct (chooseBlocks filtered (blocks F) ∅).
Qed.

Lemma selectCheckpointBBs_lookup (F : Function) (m : gmap BasicBlock (gset Value))
    (b : BasicBlock) :
  let filtered := removeBBsWithNoTrackedVals
                    (removeNestedPtrTrackedVals F (getBBsWithOneSuccessor F m)) in
  (selectCheckpointBBs F m).2 !! b =
  if existsb (fun blk => bool_decide (bid blk = b) && chosen filtered blk) (blocks F)
  then filtered !! b else None.
Proof.
  intros filtered. unfold selectCheckpointBBs, chooseBBWithCheckpointDirective.
  fold filtered. pose proof (chooseBlocks_lookup filtered (blocks F) ∅ b) as H.
  destruct (chooseBlocks filtered (blocks F) ∅). simpl in *.
  by rewrite H, lookup_empty.
Qed.

(** C4: a block of the function is selected as a checkpoint block exactly
    when it has one successor, keeps a tracked value once the nested
    pointers are removed, and holds a call to a function whose name
    contains "checkpoint"; the selected blocks lose their first such call
    and nothing else changes. *)
Theorem C4_checkpoint_block_selection (F : Function)
    (bbTrackedVals : gmap BasicBlock (gset Value)) :
  NoDup (bid <$> blocks F) ->
  let F' := (selectCheckpointBBs F bbTrackedVals).1 in
  let bbCheckpoints := (selectCheckpointBBs F bbTrackedVals).2 in
  (forall blk, blk ∈ blocks F ->
     (is_Some (bbCheckpoints !! bid blk) <->
        length (successors blk) = 1%nat
        /\ savableTrackedVals F bbTrackedVals (bid blk) ≠ ∅
        /\ exists inst, inst ∈ body blk /\ isCheckpointDirective inst = true)
     /\ (is_Some (bbCheckpoints !! bid blk) ->
         bbCheckpoints !! bid blk = Some (savableTrackedVals F bbTrackedVals (bid blk))))
  /\ (forall b, is_Some (bbCheckpoints !! b) -> b ∈ bid <$> blocks F)
  /\ blocks F' =
     (fun blk => if bool_decide (is_Some (bbCheckpoints !! bid blk))
                 then setBody blk (eraseFirstDirective (body blk)) else blk)
     <$> blocks F.
Proof.
  intros Hnd F' cp. subst F' cp.
  set (filtered := removeBBsWithNoTrackedVals
                     (removeNestedPtrTrackedVals F (getBBsWithOneSuccessor F bbTrackedVals))).
  assert (Hsel : forall blk, blk ∈ blocks F ->
            existsb (fun blk' => bool_decide (bid blk' = bid blk) && chosen filtered blk')
                    (blocks F) = chosen filtered blk).
  { intros blk Hin. apply eq_true_iff_eq. rewrite existsb_exists. split.
    - intros (blk' & Hin' & Hc). apply andb_true_iff in Hc as [Hb Hc].
      apply bool_decide_eq_true_1 in Hb. apply list_elem_of_In in Hin'.
      assert (blk' = blk) as ->; [|done].
      pose proof (getBlock_In F blk' Hnd Hin') as H1.
      pose proof (getBlock_In F blk Hnd Hin) as H2. congruence.
    - intros Hc. exists blk. split; [by apply list_elem_of_In|].
      by rewrite bool_decide_eq_true_2. }
  assert (Hiff : forall blk, blk ∈ blocks F ->
            is_Some ((selectCheckpointBBs F bbTrackedVals).2 !! bid blk)
            <-> chosen filtered blk = true).
  { intros blk Hin. rewrite selectCheckpointBBs_lookup. fold filtered.
    rewrite (Hsel blk Hin). rewrite chosen_eq.
    destruct (filtered !! bid blk) eqn:Hf.
    - destruct (existsb isCheckpointDirective (body blk)); split; eauto.
      + intros [? ?]; congruence.
      + congruence.
    - split; [intros [? ?]|]; congruence. }
  split; [|split].
  - intros blk Hin. split.
    + rewrite (Hiff blk Hin), chosen_eq.
      destruct (filtered !! bid blk) as [vs|] eqn:Hf.
      * apply filterChain_lookup in Hf as (H1 & H2 & -> & H3).
        unfold getNumSuccessors in H1. rewrite (getBlock_In F blk Hnd Hin) in H1.
        rewrite existsb_exists. split.
        -- intros (i & Hi & Hd). repeat split; eauto.
           exists i. by rewrite list_elem_of_In.
        -- intros (_ & _ & i & Hi & Hd). exists i. by rewrite <- list_elem_of_In.
      * split; [done|]. intros (H1 & H2 & _). exfalso.
        assert (is_Some (bbTrackedVals !! bid blk)) as Hs.
        { unfold savableTrackedVals in H2. destruct (bbTrackedVals !! bid blk); [eauto|].
          simpl in H2. exfalso. apply H2. apply leibniz_equiv. set_solver. }
        assert (filtered !! bid blk = Some (savableTrackedVals F bbTrackedVals (bid blk))).
        { apply filterChain_lookup. repeat split; eauto.
          unfold getNumSuccessors. by rewrite (getBlock_In F blk Hnd Hin). }
        congruence.
    + intros Hs. pose proof Hs as Hc. rewrite (Hiff blk Hin) in Hc.
      rewrite selectCheckpointBBs_lookup. fold filtered. rewrite (Hsel blk Hin), Hc.
      rewrite chosen_eq in Hc. destruct (filtered !! bid blk) as [vs|] eqn:Hf; [|done].
      apply filterChain_lookup in Hf as (_ & _ & -> & _). done.
  - intros b [vs Hb]. rewrite selectCheckpointBBs_lookup in Hb. fold filtered in Hb.
    destruct (existsb _ (blocks F)) eqn:He in Hb; [|done].
    apply existsb_exists in He as (blk & Hin & Hc).
    apply andb_true_iff in Hc as [Hc _]. apply bool_decide_eq_true_1 in Hc. subst b.
    apply list_elem_of_fmap_2. by apply list_elem_of_In.
  - rewrite selectCheckpointBBs_blocks. fold filtered.
    apply list_fmap_ext. intros i blk Hi.
    assert (Hin : blk ∈ blocks F) by (by eapply list_elem_of_lookup_2).
    destruct (chosen filtered blk) eqn:Hc.
    + by rewrite bool_decide_eq_true_2 by (by apply Hiff).
    + rewrite bool_decide_eq_false_2; [done|]. rewrite (Hiff blk Hin). congruence.
Qed.

(** * Functions the pass leaves alone *)

Lemma bind_Ret {A B} (m : Res A) (f : A -> Res B) (b : B) :
  m ≫= f = Ret b -> exists a, m = Ret a /\ f a = Ret b.
Proof. destruct m as [a|e]; simpl; [eauto | discriminate]. Qed.

Section Skips.

Variable sp : SplitPrimitives.
Variable propagate : Propagator.
Variable funcBBTrackedValsMap : gmap positive (gmap BasicBlock (gset Value)).
Variable funcBBLiveVals : gmap positive (gmap BasicBlock LiveVals).

Lemma linkOnceODR_function_skipped (F : Function) :
  linkage F = LinkOnceODRLinkage ->
  injectSubroutinesInFunction sp propagate funcBBTrackedValsMap funcBBLiveVals F
  = Ret (Skipped IsLinkOnceODR F false).
Proof.
  intros H. unfold injectSubroutinesInFunction. by rewrite bool_decide_eq_true_2.
Qed.

Lemma injectSubroutines_length (M M' : Module) (b : bool) :
  injectSubroutines sp propagate funcBBTrackedValsMap funcBBLiveVals M = Ret (M', b) ->
  length M' = length M.
Proof.
  revert M' b. induction M as [|F M IH]; intros M' b H; simpl in H.
  - by inversion H.
  - apply bind_Ret in H as (o & Ho & H). apply bind_Ret in H as ([M1 b1] & Hr & H).
    inversion H; subst. simpl. f_equal. eauto.
Qed.

Lemma injectSubroutines_lookup (M M' : Module) (b : bool) (i : nat) (F : Function) :
  injectSubroutines sp propagate funcBBTrackedValsMap funcBBLiveVals M = Ret (M', b) ->
  M !! i = Some F ->
  exists o, injectSubroutinesInFunction sp propagate funcBBTrackedValsMap funcBBLiveVals F = Ret o
            /\ M' !! i = Some (outcomeFunction o).
Proof.
  revert M' b i. induction M as [|G M IH]; intros M' b i H Hi; simpl in H; [done|].
  apply bind_Ret in H as (o & Ho & H). apply bind_Ret in H as ([M1 b1] & Hr & H).
  inversion H; subst. destruct i as [|i]; simpl in *.
  - inversion Hi; subst. eauto.
  - eapply IH; eauto.
Qed.

(** C10: a function with LinkOnceODR linkage is skipped by the first test
    of the loop body, whatever its analysis data and directives, and the
    module the pass returns holds it unchanged. *)
Theorem C10_linkonce_odr_functions_unchanged (F : Function) :
  linkage F = LinkOnceODRLinkage ->
  injectSubroutinesInFunction sp propagate funcBBTrackedValsMap funcBBLiveVals F
  = Ret (Skipped IsLinkOnceODR F false)
  /\ forall (M M' : Module) (b : bool) (i : nat),
       injectSubroutines sp propagate funcBBTrackedValsMap funcBBLiveVals M = Ret (M', b) ->
       M !! i = Some F -> M' !! i = Some F.
Proof.
  intros Hl. split; [by apply linkOnceODR_function_skipped|].
  intros M M' b i H Hi.
  destruct (injectSubroutines_lookup M M' b i F H Hi) as (o & Ho & Hi').
  rewrite (linkOnceODR_function_skipped F Hl) in Ho. inversion Ho; subst. done.
Qed.

End Skips.

(** * The propagator *)

Lemma getBlock_updateBlock (b b' : BasicBlock) (f : Block -> Block) (F : Function) :
  (forall blk, bid (f blk) = bid blk) ->
  getBlock (updateBlock b f F) b' =
  if decide (b' = b) then f <$> getBlock F b' else getBlock F b'.
Proof.
  intros Hf. unfold getBlock, updateBlock. simpl.
  induction (blocks F) as [|blk bs IH]; simpl.
  - by case_decide.
  - destruct (decide (bid blk = b)) as [Hb|Hb].
    + rewrite (bool_decide_eq_true_2 _ Hb). rewrite Hf.
      destruct (decide (bid blk = b')) as [Hb'|Hb'].
      * rewrite !(bool_decide_eq_true_2 _ Hb'). case_decide; [done|congruence].
      * rewrite !(bool_decide_eq_false_2 _ Hb'). apply IH.
    + rewrite (bool_decide_eq_false_2 _ Hb).
      destruct (decide (bid blk = b')) as [Hb'|Hb'].
      * rewrite !(bool_decide_eq_true_2 _ Hb'). case_decide; [congruence|done].
      * rewrite !(bool_decide_eq_false_2 _ Hb'). apply IH.
Qed.

Lemma getBlock_bid (F : Function) (b : BasicBlock) (blk : Block) :
  getBlock F b = Some blk -> bid blk = b.
Proof.
  unfold getBlock. intros H. apply find_some in H as [_ H].
  by apply bool_decide_eq_true_1 in H.
Qed.

Lemma getBlock_replace (b : BasicBlock) (blk blk' : Block) (F : Function) :
  getBlock F b = Some blk -> bid blk' = b ->
  getBlock (updateBlock b (fun _ => blk') F) b = Some blk'.
Proof.
  intros Hg Hb. unfold getBlock, updateBlock in *. simpl.
  induction (blocks F) as [|x bs IH]; simpl in *; [done|].
  destruct (decide (bid x = b)) as [Hx|Hx].
  - rewrite (bool_decide_eq_true_2 _ Hx). simpl. by rewrite (bool_decide_eq_true_2 _ Hb).
  - rewrite (bool_decide_eq_false_2 _ Hx) in *. simpl.
    rewrite (bool_decide_eq_false_2 _ Hx). by apply IH.
Qed.

Lemma getBlock_bumpValue (F : Function) (b : BasicBlock) :
  getBlock (bumpValue F) b = getBlock F b.
Proof. done. Qed.

Lemma successors_mapInstructions (f : Instruction -> Instruction) (blk : Block) :
  (forall i, opcode (f i) = opcode i) ->
  successors (mapInstructions f blk) = successors blk.
Proof. intros H. unfold successors. simpl. by rewrite H. Qed.

Lemma successorRequests_nil (F : Function) (r : BBUpdateRequest) (blk : Block)
    (v : Value) (vs : gset Value) :
  getBlock F (currBB r) = Some blk ->
  successorRequests F r v vs = [] <-> noOtherSuccessor blk (currBB r) = true.
Proof.
  intros Hg. unfold successorRequests, getBBSuccessors, noOtherSuccessor. rewrite Hg.
  induction (successors blk) as [|s l IH]; simpl; [done|].
  rewrite filter_cons. destruct (decide (s ≠ currBB r)) as [Hs|Hs].
  - rewrite bool_decide_eq_false_2 by done. simpl. split; discriminate.
  - rewrite bool_decide_eq_true_2 by (by apply dec_stable). simpl. done.
Qed.

Lemma getBBSuccessors_replace (F : Function) (b : BasicBlock) (blk blk' : Block) :
  getBlock F b = Some blk -> bid blk' = b -> successors blk' = successors blk ->
  getBBSuccessors (updateBlock b (fun _ => blk') F) b = getBBSuccessors F b.
Proof.
  intros Hg Hb Hs. unfold getBBSuccessors.
  by rewrite (getBlock_replace b blk blk' F Hg Hb), Hg.
Qed.

Lemma opcode_replaceOperandsInInst (i : Instruction) (a b : Value) :
  opcode (replaceOperandsInInst i a b) = opcode i.
Proof. done. Qed.

Lemma successorRequests_replace (F : Function) (r : BBUpdateRequest) (blk blk' : Block)
    (v : Value) (vs : gset Value) :
  getBlock F (currBB r) = Some blk -> bid blk' = currBB r ->
  successors blk' = successors blk ->
  successorRequests (updateBlock (currBB r) (fun _ => blk') F) r v vs
  = (fun succBB => mkRequest (startBB r) succBB (currBB r) (oldVal r) v vs)
    <$> filter (fun succBB => succBB ≠ currBB r) (successors blk).
Proof.
  intros Hg Hb Hs. unfold successorRequests.
  rewrite (getBBSuccessors_replace F (currBB r) blk blk' Hg Hb Hs).
  unfold getBBSuccessors. by rewrite Hg.
Qed.

Lemma fmap_filter_nil (r : BBUpdateRequest) (blk : Block) (v : Value) (vs : gset Value) :
  (fun succBB => mkRequest (startBB r) succBB (currBB r) (oldVal r) v vs)
    <$> filter (fun succBB => succBB ≠ currBB r) (successors blk) = []
  <-> noOtherSuccessor blk (currBB r) = true.
Proof.
  unfold noOtherSuccessor.
  induction (successors blk) as [|s l IH]; simpl; [done|].
  rewrite filter_cons. destruct (decide (s ≠ currBB r)) as [Hs|Hs].
  - rewrite bool_decide_eq_false_2 by done. simpl. split; discriminate.
  - rewrite bool_decide_eq_true_2 by (by apply dec_stable). simpl. done.
Qed.

Lemma processUpdateRequest_queue (env : PropEnv) (r : BBUpdateRequest)
    (st st' : PropState) :
  processUpdateRequest env r st = Ret st' ->
  exists blk join,
    getBlock (pF st) (currBB r) = Some blk
    /\ isJoin env (pF st) r = Ret join
    /\ queue st' = queue st ++ pushedRequests env r st join blk.
Proof.
  unfold processUpdateRequest. intros H.
  destruct (getOrDefault (currBB r) (visitedBBs st)) as [bbVV visited] eqn:Hgd.
  apply bind_Ret in H as (join & Hj & H).
  destruct (getBlock (pF st) (currBB r)) as [blk|] eqn:Hg; [|discriminate].
  exists blk, join. split; [done|]. split; [done|].
  pose proof (getBlock_bid _ _ _ Hg) as Hbid.
  unfold pushedRequests, stopsAtDequeue.
  destruct join; simpl.
  - destruct (isPhiInstExistForIncomingBBForTrackedVal _ _ _) eqn:Hphi.
    + destruct (modifyPhis _ _ _ _) as [blk' ch]. injection H as <-. simpl.
      by rewrite app_nil_r.
    + injection H as <-. simpl. f_equal.
      unfold redefinesVersion, versionsAtNewPhi, newPhiFor.
      unfold instructions. simpl.
      match goal with |- (if ?c then _ else _) = _ => destruct c; [done|] end.
      rewrite (successorRequests_replace (bumpValue (pF st)) r blk); [done|done|done|].
      etrans; [apply successors_mapInstructions; intros i; by case_bool_decide|done].
  - injection H as <-. simpl. f_equal.
    unfold redefinesVersion.
    match goal with |- (if ?c then _ else _) = _ => destruct c; [done|] end.
    rewrite (successorRequests_replace (pF st) r blk); try done.
Qed.

(** C2 (amended): a dequeued request pushes nothing exactly when one of
    the three tests at dequeue stops it ([currBB] is [startBB] already
    visited, [currBB] has no successor, or the versions of the request are
    those accumulated at the block), or the block is a join that already
    has a matching phi, or an instruction of the block is itself one of
    the value versions, or the block has no successor other than itself. *)
Theorem C2_requests_that_push_nothing (env : PropEnv) (r : BBUpdateRequest)
    (st st' : PropState) :
  processUpdateRequest env r st = Ret st' ->
  exists blk join pushed,
    getBlock (pF st) (currBB r) = Some blk
    /\ isJoin env (pF st) r = Ret join
    /\ queue st' = queue st ++ pushed
    /\ (pushed = [] <->
          stopsAtStart r st = true
          \/ stopsAtExit r st = true
          \/ stopsAtSameVersions r st = true
          \/ (join = true /\
              isPhiInstExistForIncomingBBForTrackedVal (valueVersions r) blk (prevBB r) = true)
          \/ redefinesVersion join (pF st) r blk = true
          \/ noOtherSuccessor blk (currBB r) = true).
Proof.
  intros H. destruct (processUpdateRequest_queue env r st st' H) as (blk & join & Hg & Hj & Hq).
  exists blk, join, (pushedRequests env r st join blk).
  split; [done|]. split; [done|]. split; [done|].
  unfold pushedRequests, stopsAtDequeue.
  destruct (stopsAtStart r st).
  { destruct (_ && _); split; auto. }
  destruct (stopsAtExit r st).
  { destruct (_ && _); split; auto. }
  destruct (stopsAtSameVersions r st).
  { destruct (_ && _); split; auto. }
  destruct (isPhiInstExistForIncomingBBForTrackedVal _ _ _), join; cbn [andb orb].
  - split; auto 7.
  - destruct (redefinesVersion _ _ _ _); [split; auto 7|].
    rewrite fmap_filter_nil. split; [auto 7|].
    intros [?|[?|[?|[[? ?]|[?|?]]]]]; congruence.
  - destruct (redefinesVersion _ _ _ _); [split; auto 7|].
    rewrite fmap_filter_nil. split; [auto 7|].
    intros [?|[?|[?|[[? ?]|[?|?]]]]]; congruence.
  - destruct (redefinesVersion _ _ _ _); [split; auto 7|].
    rewrite fmap_filter_nil. split; [auto 7|].
    intros [?|[?|[?|[[? ?]|[?|?]]]]]; congruence.
Qed.

(** ** A function on which the queue never drains *)

Lemma closed_orbit_never_drains (env : PropEnv) (orbit : list PropState) :
  closedUnderStep env orbit = true ->
  forall fuel st, st ∈ orbit -> drainQueue env fuel st = Raise OutOfFuel.
Proof.
  intros Hc. unfold closedUnderStep in Hc. rewrite forallb_forall in Hc.
  induction fuel as [|fuel IH]; intros st Hin.
  - specialize (Hc st (proj1 (list_elem_of_In _ _) Hin)). unfold stepQueue in Hc.
    simpl. by destruct (queue st).
  - specialize (Hc st (proj1 (list_elem_of_In _ _) Hin)). unfold stepQueue in Hc.
    simpl. destruct (queue st) as [|r q]; [done|].
    destruct (processUpdateRequest env r _) as [st'|e]; [|done].
    simpl. apply IH. by apply bool_decide_eq_true_1 in Hc.
Qed.

Lemma start_c2_never_drains (fuel : nat) :
  drainQueue env_c2 fuel start_c2 = Raise OutOfFuel.
Proof.
  apply (closed_orbit_never_drains env_c2 (traceFrom env_c2 14 start_c2)).
  - vm_compute. reflexivity.
  - vm_compute. left.
Qed.



Section Ext.
Variable sp : SplitPrimitives.
Variables P P' : Propagator.
Hypothesis HP : forall env a b c d F, P env a b c d F = P' env a b c d F.

Lemma propagateLoadedValues_ext env r j phiVals tvs F :
  propagateLoadedValues P env r j phiVals tvs F
  = propagateLoadedValues P' env r j phiVals tvs F.
Proof.
  revert F. induction tvs as [|v tvs IH]; intros F; simpl; [done|].
  destruct (phiVals !! v); [|done]. rewrite HP.
  destruct (P' env r j v _ F); simpl; [apply IH|done].
Qed.

Lemma addSubroutine_ext live c cp b s st :
  addSubroutine sp P live c cp b s st = addSubroutine sp P' live c cp b s st.
Proof.
  unfold addSubroutine.
  destruct (splitEdgeWrapper sp (iF st) b s _) as [[[F1 sv]|]|e]; [|done|done].
  cbn [mbind Res_bind].
  destruct (head (getBBSuccessors F1 sv)) as [res|]; [|done].
  destruct (splitEdgeWrapper sp F1 sv res _) as [[[F2 jn]|]|e]; [|done|done].
  cbn [mbind Res_bind].
  destruct (createBlockWithBranch _ jn F2) as [rs F3].
  destruct (cp !! b) as [tv|]; [|done].
  by rewrite propagateLoadedValues_ext.
Qed.

Lemma addSubroutines_ext live c cp b succs st :
  addSubroutines sp P live c cp b succs st = addSubroutines sp P' live c cp b succs st.
Proof.
  revert st. induction succs as [|s succs IH]; intros st; simpl; [done|].
  rewrite addSubroutine_ext. destruct (addSubroutine sp P' live c cp b s st); simpl; [apply IH|done].
Qed.

Lemma injectSubroutinesInFunction_ext tracked live F :
  injectSubroutinesInFunction sp P tracked live F
  = injectSubroutinesInFunction sp P' tracked live F.
Proof.
  unfold injectSubroutinesInFunction, addSubroutinesForCheckpoints.
  case_bool_decide; [done|].
  destruct (tracked !! fhandle F); [|done].
  destruct (getCkptMemSegmentPtr _ _ _); [|done].
  destruct (blocks F); [done|].
  destruct (getBBSuccessors _ _); [done|].
  destruct (selectCheckpointBBs _ _) as [F1 cp].
  case_bool_decide; [done|].
  destruct (splitEdgeWrapper _ _ _ _ _) as [[[F2 rc]|]|e]; [|done|done].
  cbn [mbind Res_bind].
  destruct (iterate _); [done|].
  by rewrite addSubroutines_ext.
Qed.

End Ext.

Lemma pass_never_returns_on_F_c2 (fuel : nat) :
  injectSubroutinesInFunction llvmSplit (propagateWithFuel fuel) tracked_c2 live_c2 F_c2
  = Raise OutOfFuel.
Proof.
  rewrite (injectSubroutinesInFunction_ext llvmSplit (propagateWithFuel fuel)
    (fun env a b c d F =>
       if bool_decide ((env, a, b, c, d, F) = (env_c2, 3, 102, 20, 108, marshalled_c2))
       then Raise OutOfFuel else propagateWithFuel fuel env a b c d F)).
  - vm_compute. reflexivity.
  - intros env a b c d F. case_bool_decide as Heq; [|done].
    injection Heq as -> -> -> -> -> ->. apply start_c2_never_drains.
Qed.

(** ** Join blocks *)

Lemma phis_prefix (l : list Instruction) : phis l ++ drop (length (phis l)) l = l.
Proof.
  induction l as [|i l IH]; simpl; [done|].
  destruct (isPHI i); simpl; [by rewrite IH|done].
Qed.

Lemma incomingBlocks_setOperands (phi : Instruction) (ops : list Operand) :
  incomingBlocks (setOperands phi ops) = incomingBlocks phi.
Proof. done. Qed.

Lemma operands_setIncomingValueForBlock (phi : Instruction) (BB : BasicBlock)
    (V : Value) (i : nat) :
  operands (setIncomingValueForBlock phi BB V) !! i =
  (fun value => if bool_decide (incomingBlocks phi !! i = Some BB) then OVal V else value)
  <$> operands phi !! i.
Proof. unfold setIncomingValueForBlock. simpl. by rewrite list_lookup_imap. Qed.

(** The loop over the incoming values of one phi either leaves the phi
    as it is, every matching incoming value being [newVal] already, or
    sets every incoming value for [prevBB] to [newVal]. *)
Lemma modifyPhi_cases (vV : gset Value) (prev : BasicBlock) (nv : Value)
    (phi : Instruction) :
  ((modifyPhi vV prev nv phi).1 = phi
   /\ forall i val, operands phi !! i = Some val ->
        incomingBlocks phi !! i = Some prev -> isVersion vV val = true ->
        val = OVal nv)
  \/ (modifyPhi vV prev nv phi).1 = setIncomingValueForBlock phi prev nv.
Proof.
  unfold modifyPhi. set (step := modifyPhiStep vV prev nv).
  assert (Hinv : forall n,
    ((foldl step (phi, false) (seq 0 n)).1 = phi
     /\ forall i val, (i < n)%nat -> operands phi !! i = Some val ->
          incomingBlocks phi !! i = Some prev -> isVersion vV val = true ->
          val = OVal nv)
    \/ (foldl step (phi, false) (seq 0 n)).1 = setIncomingValueForBlock phi prev nv).
  { induction n as [|n IH]; [left; split; [done|intros; lia]|].
    rewrite seq_S, foldl_app. simpl.
    destruct (foldl step (phi, false) (seq 0 n)) as [q ch]. simpl in IH.
    destruct IH as [[-> IH]| ->].
    - unfold step, modifyPhiStep.
      destruct (operands phi !! n) as [val|] eqn:Hv;
        [destruct (incomingBlocks phi !! n) as [b|] eqn:Hb|].
      + destruct (bool_decide (b = prev)) eqn:Hbp; simpl.
        * apply bool_decide_eq_true_1 in Hbp. subst b.
          destruct (isVersion vV val) eqn:Hver; simpl.
          -- case_bool_decide as Hnv; simpl.
             ++ left. split; [done|]. intros i val' Hi Hv' Hb' Hver'.
                destruct (decide (i = n)) as [->|]; [congruence|].
                apply (IH i val'); [lia|done..].
             ++ by right.
          -- left. split; [done|]. intros i val' Hi Hv' Hb' Hver'.
             destruct (decide (i = n)) as [->|]; [congruence|].
             apply (IH i val'); [lia|done..].
        * left. split; [done|]. intros i val' Hi Hv' Hb' Hver'.
          destruct (decide (i = n)) as [->|].
          -- apply bool_decide_eq_false_1 in Hbp. congruence.
          -- apply (IH i val'); [lia|done..].
      + left. split; [done|]. intros i val' Hi Hv' Hb' Hver'.
        destruct (decide (i = n)) as [->|]; [congruence|].
        apply (IH i val'); [lia|done..].
      + left. split; [by destruct (incomingBlocks phi !! n)|].
        intros i val' Hi Hv' Hb' Hver'.
        destruct (decide (i = n)) as [->|]; [congruence|].
        apply (IH i val'); [lia|done..].
    - right. unfold step, modifyPhiStep.
      rewrite operands_setIncomingValueForBlock.
      change (incomingBlocks (setIncomingValueForBlock phi prev nv))
        with (incomingBlocks phi).
      destruct (operands phi !! n) as [val|] eqn:Hv; simpl; [|done].
      destruct (incomingBlocks phi !! n) as [b|] eqn:Hb.
      + destruct (decide (b = prev)) as [->|Hne].
        * rewrite (bool_decide_eq_true_2 (prev = prev)) by done.
          rewrite (bool_decide_eq_true_2 (Some prev = Some prev)) by done. simpl.
          destruct (bool_decide (nv ∈ vV)); simpl; [|done].
          by rewrite bool_decide_eq_true_2.
        * rewrite (bool_decide_eq_false_2 (Some b = Some prev)) by (by intros [= ->]).
          by rewrite (bool_decide_eq_false_2 (b = prev)).
      + done. }
  destruct (Hinv (length (operands phi))) as [[H1 H2]|H1]; [left|right; exact H1].
  split; [exact H1|]. intros i val Hv. apply H2; [|done].
  by apply lookup_lt_Some in Hv.
Qed.

Lemma modifyPhi_incoming (vV : gset Value) (prev : BasicBlock) (nv : Value)
    (phi : Instruction) :
  let phi' := (modifyPhi vV prev nv phi).1 in
  result phi' = result phi /\ opcode phi' = opcode phi
  /\ length (operands phi') = length (operands phi)
  /\ (forall i v, incomingBlocks phi !! i = Some prev ->
        operands phi !! i = Some (OVal v) -> v ∈ vV ->
        operands phi' !! i = Some (OVal nv))
  /\ (forall i, incomingBlocks phi !! i ≠ Some prev ->
        operands phi' !! i = operands phi !! i).
Proof.
  intros phi'. subst phi'.
  destruct (modifyPhi_cases vV prev nv phi) as [[-> H]| ->].
  - repeat split; try done. intros i v Hb Hv Hin.
    rewrite Hv. f_equal. apply (H i); [done..|].
    simpl. by rewrite bool_decide_eq_true_2.
  - repeat split; try done.
    + unfold setIncomingValueForBlock. simpl. by rewrite length_imap.
    + intros i v Hb Hv Hin. rewrite operands_setIncomingValueForBlock, Hv. simpl.
      by rewrite bool_decide_eq_true_2.
    + intros i Hb. rewrite operands_setIncomingValueForBlock.
      destruct (operands phi !! i); simpl; [|done].
      by rewrite bool_decide_eq_false_2.
Qed.

Lemma modifyPhis_body (vV : gset Value) (prev : BasicBlock) (nv : Value) (blk : Block) :
  let blk' := (modifyPhis vV prev nv blk).1 in
  bid blk' = bid blk /\ term blk' = term blk
  /\ length (body blk') = length (body blk)
  /\ (forall j phi, phis (body blk) !! j = Some phi ->
        body blk' !! j = Some (modifyPhi vV prev nv phi).1)
  /\ (forall j, (length (phis (body blk)) ≤ j)%nat -> body blk' !! j = body blk !! j).
Proof.
  unfold modifyPhis. simpl.
  set (ps := modifyPhi vV prev nv <$> phis (body blk)).
  assert (Hlen : length ps.*1 = length (phis (body blk))).
  { unfold ps. by rewrite !length_fmap. }
  assert (Hps : length ps = length (phis (body blk))).
  { unfold ps. by rewrite !length_fmap. }
  split; [done|]. split; [done|]. split; [|split].
  - rewrite length_app, length_drop, Hlen, Hps.
    pose proof (phis_prefix (body blk)) as Hp.
    apply (f_equal length) in Hp. rewrite length_app, length_drop in Hp. lia.
  - intros j phi Hj. rewrite lookup_app_l.
    + unfold ps. by rewrite !list_lookup_fmap, Hj.
    + rewrite Hlen. by apply lookup_lt_Some in Hj.
  - intros j Hj. rewrite lookup_app_r by lia. rewrite lookup_drop, Hlen, Hps.
    f_equal. lia.
Qed.

(** C6 (amended): at a join block, either some phi already has an
    incoming from [prevBB] whose value is a version, and then every such
    incoming is [newVal] afterwards, the rest of the block is untouched and
    nothing is pushed; or a new phi is put at the top of the block, with
    [newVal] from [prevBB] and [oldVal] from every other predecessor, the
    other instructions use it in place of [oldVal], and the successors
    other than the block itself are pushed with the new phi as [newVal],
    unless the request is stopped by a test at dequeue or an instruction
    of the block is itself a version, in which case nothing is pushed. *)
Theorem C6_join_block_processing (env : PropEnv) (r : BBUpdateRequest)
    (st : PropState) (blk : Block) :
  getBlock (pF st) (currBB r) = Some blk ->
  isJoin env (pF st) r = Ret true ->
  (forall inst, inst ∈ instructions blk -> result inst ≠ nextValue (pF st)) ->
  exists st' blk',
    processUpdateRequest env r st = Ret st'
    /\ getBlock (pF st') (currBB r) = Some blk'
    /\ if isPhiInstExistForIncomingBBForTrackedVal (valueVersions r) blk (prevBB r)
       then
         queue st' = queue st
         /\ term blk' = term blk
         /\ length (body blk') = length (body blk)
         /\ (forall j, (length (phis (body blk)) ≤ j)%nat ->
               body blk' !! j = body blk !! j)
         /\ (forall j phi, phis (body blk) !! j = Some phi ->
               exists phi', body blk' !! j = Some phi'
                 /\ result phi' = result phi /\ opcode phi' = opcode phi
                 /\ length (operands phi') = length (operands phi)
                 /\ (forall i v, incomingBlocks phi !! i = Some (prevBB r) ->
                       operands phi !! i = Some (OVal v) -> v ∈ valueVersions r ->
                       operands phi' !! i = Some (OVal (newVal r)))
                 /\ (forall i, incomingBlocks phi !! i ≠ Some (prevBB r) ->
                       operands phi' !! i = operands phi !! i))
       else
         exists phi,
           body blk' = phi :: ((fun inst => replaceOperandsInInst inst (oldVal r) (result phi))
                               <$> body blk)
           /\ term blk' = replaceOperandsInInst (term blk) (oldVal r) (result phi)
           /\ opcode phi = PHI (getBBPredecessors (pF st) (currBB r))
           /\ operands phi =
              (fun predBB => OVal (if bool_decide (predBB = prevBB r)
                                   then newVal r else oldVal r))
              <$> getBBPredecessors (pF st) (currBB r)
           /\ queue st' =
              queue st ++
              (if stopsAtDequeue r st || redefinesVersion true (pF st) r blk then []
               else (fun succBB => mkRequest (startBB r) succBB (currBB r) (oldVal r)
                                     (result phi)
                                     (versionsAtNewPhi (pF st) r ∪ {[result phi]}))
                    <$> filter (fun succBB => succBB ≠ currBB r) (successors blk)).
Proof.
  intros Hg Hj Hfresh.
  pose proof (getBlock_bid _ _ _ Hg) as Hbid.
  destruct (processUpdateRequest env r st) as [st'|e] eqn:Hp.
  2:{ unfold processUpdateRequest in Hp.
      destruct (getOrDefault (currBB r) (visitedBBs st)).
      rewrite Hj, Hg in Hp. unfold mbind, Res_bind in Hp. cbv beta iota in Hp.
      destruct (isPhiInstExistForIncomingBBForTrackedVal _ _ _); [|done].
      by destruct (modifyPhis _ _ _ _). }
  destruct (processUpdateRequest_queue env r st st' Hp) as (blk0 & join & Hg' & Hj' & Hq).
  assert (blk0 = blk) as -> by congruence. assert (join = true) as -> by congruence.
  unfold pushedRequests in Hq. simpl in Hq.
  unfold processUpdateRequest in Hp.
  destruct (getOrDefault (currBB r) (visitedBBs st)) as [bbVV visited].
  rewrite Hj, Hg in Hp. unfold mbind, Res_bind in Hp. cbv beta iota in Hp.
  destruct (isPhiInstExistForIncomingBBForTrackedVal _ _ _) eqn:Hphi.
  - pose proof (modifyPhis_body (valueVersions r) (prevBB r) (newVal r) blk)
      as (Hb1 & Hb2 & Hb3 & Hb4 & Hb5).
    destruct (modifyPhis _ _ _ _) as [blk' ch]. simpl in *.
    injection Hp as <-. eexists. exists blk'. split; [done|]. simpl.
    split; [apply (getBlock_replace _ blk); congruence|].
    split; [by rewrite app_nil_r in Hq|]. split; [done|]. split; [done|].
    split; [done|]. intros j phi Hphij.
    exists (modifyPhi (valueVersions r) (prevBB r) (newVal r) phi).1.
    split; [by apply Hb4|]. apply modifyPhi_incoming.
  - injection Hp as <-. simpl in *.
    eexists. eexists. split; [done|]. simpl.
    split; [apply (getBlock_replace _ blk); [done|by simpl]|].
    exists (newPhiFor (pF st) r). simpl.
    split; [|split; [|split; [done|split]]].
    + rewrite bool_decide_eq_true_2 by done. f_equal.
      apply list_fmap_ext. intros i inst Hi.
      rewrite bool_decide_eq_false_2; [done|].
      apply Hfresh. unfold instructions. apply elem_of_app. left.
      by eapply list_elem_of_lookup_2.
    + rewrite bool_decide_eq_false_2; [done|].
      apply Hfresh. unfold instructions. apply elem_of_app. right. by left.
    + by rewrite <- list_fmap_compose.
    + done.
Qed.

(** The pass presents exactly this input to the propagator. *)
Lemma pass_reaches_request_c6 :
  injectSubroutinesInFunction llvmSplit
    (fun env a b c d F =>
       if bool_decide ((env, a, b, c, d, F) = (env_c6, 3, 102, 20, 108, marshalled_c6))
       then Raise Undefined else Raise OutOfRange)
    tracked_c6 live_c6 F_c6
  = Raise Undefined.
Proof. vm_compute. reflexivity. Qed.

(** C6 as stated fails: the block "spin" is a join block without a
    matching phi and is one of its own successors, the request is not
    stopped, and no request is pushed for "spin". *)
Lemma C6_self_successor_not_enqueued :
  isJoin env_c6 (pF start_c6) request_c6 = Ret true
  /\ isPhiInstExistForIncomingBBForTrackedVal (valueVersions request_c6) spin_c6
       (prevBB request_c6) = false
  /\ stopsAtDequeue request_c6 start_c6 = false
  /\ 3 ∈ getBBSuccessors (pF start_c6) 3
  /\ exists st', processUpdateRequest env_c6 request_c6 start_c6 = Ret st'
       /\ currBB <$> queue st' = [5].
Proof.
  split; [vm_compute; reflexivity|]. split; [vm_compute; reflexivity|].
  split; [vm_compute; reflexivity|]. split; [vm_compute; left|].
  eexists. split; [vm_compute; reflexivity|]. vm_compute. reflexivity.
Qed.

Lemma C6_join_block_processing_witness :
  getBlock (pF start_c6) (currBB request_c6) = Some spin_c6
  /\ isJoin env_c6 (pF start_c6) request_c6 = Ret true
  /\ (forall inst, inst ∈ instructions spin_c6 -> result inst ≠ nextValue (pF start_c6))
  /\ exists st' blk',
       processUpdateRequest env_c6 request_c6 start_c6 = Ret st'
       /\ getBlock (pF st') (currBB request_c6) = Some blk'.
Proof.
  assert (H1 : getBlock (pF start_c6) (currBB request_c6) = Some spin_c6)
    by (vm_compute; reflexivity).
  assert (H2 : isJoin env_c6 (pF start_c6) request_c6 = Ret true)
    by (vm_compute; reflexivity).
  assert (H3 : forall inst, inst ∈ instructions spin_c6 ->
                 result inst ≠ nextValue (pF start_c6)).
  { intros inst Hin. unfold instructions, spin_c6 in Hin. simpl in Hin.
    apply elem_of_cons in Hin as [->|Hin]; [done|].
    apply elem_of_cons in Hin as [->|Hin]; [done|].
    by apply elem_of_nil in Hin. }
  split; [exact H1|]. split; [exact H2|]. split; [exact H3|].
  destruct (C6_join_block_processing env_c6 request_c6 start_c6 spin_c6 H1 H2 H3)
    as (st' & blk' & Hp & Hg & _).
  exists st', blk'. split; [exact Hp|exact Hg].
Defined.

(** * The marshaller (C3, C5) *)

(** ** Insertion and lookups *)

Lemma getBlock_insertBeforeTerminator (b b' : BasicBlock) (i : Instruction) (F : Function) :
  getBlock (insertBeforeTerminator b i F) b' =
  if decide (b' = b) then (fun blk => setBody blk (body blk ++ [i])) <$> getBlock F b'
  else getBlock F b'.
Proof. unfold insertBeforeTerminator. by rewrite getBlock_updateBlock. Qed.

Lemma hasBlock_insertBeforeTerminator (b b' : BasicBlock) (i : Instruction) (F : Function) :
  hasBlock (insertBeforeTerminator b i F) b' <-> hasBlock F b'.
Proof.
  unfold hasBlock. rewrite getBlock_insertBeforeTerminator.
  case_decide; [|done]. by rewrite fmap_is_Some.
Qed.

Lemma bodyOf_insert_same (b : BasicBlock) (i : Instruction) (F : Function) :
  hasBlock F b -> bodyOf (insertBeforeTerminator b i F) b = bodyOf F b ++ [i].
Proof.
  intros [blk Hb]. unfold bodyOf. rewrite getBlock_insertBeforeTerminator.
  rewrite decide_True by done. by rewrite Hb.
Qed.

Lemma bodyOf_insert_other (b b' : BasicBlock) (i : Instruction) (F : Function) :
  b' ≠ b -> bodyOf (insertBeforeTerminator b i F) b' = bodyOf F b'.
Proof.
  intros Hne. unfold bodyOf. rewrite getBlock_insertBeforeTerminator.
  by rewrite decide_False.
Qed.

Lemma find_app_l {A} (P : A -> bool) (l1 l2 : list A) :
  find P (l1 ++ l2) = match find P l1 with Some x => Some x | None => find P l2 end.
Proof. induction l1 as [|x l1 IH]; simpl; [done|]. by destruct (P x). Qed.

Lemma find_insertBeforeTerminator (P : Instruction -> bool) (b : BasicBlock)
    (i : Instruction) (F : Function) :
  P i = false ->
  find P (allInstructions (insertBeforeTerminator b i F)) = find P (allInstructions F).
Proof.
  intros Hi. unfold allInstructions, insertBeforeTerminator, updateBlock. simpl.
  induction (blocks F) as [|blk bs IH]; [done|].
  rewrite fmap_cons, !bind_cons, !find_app_l, IH. case_bool_decide; [|done].
  unfold instructions. simpl. rewrite !find_app_l. simpl. rewrite Hi.
  by destruct (find P (body blk)).
Qed.

Lemma getType_insertBeforeTerminator (b : BasicBlock) (i : Instruction) (F : Function)
    (v : Value) :
  result i ≠ v -> getType (insertBeforeTerminator b i F) v = getType F v.
Proof.
  intros Hne. unfold getType.
  rewrite find_insertBeforeTerminator by (by apply bool_decide_eq_false_2).
  done.
Qed.

(** The effect of one [createBeforeTerminator] on what the proofs read. *)
Lemma createBeforeTerminator_spec (b : BasicBlock) (name : string) (ty : Ty)
    (opc : Opcode) (ops : list Operand) (F : Function) :
  hasBlock F b ->
  let v := (createBeforeTerminator b name ty opc ops F).1 in
  let F' := (createBeforeTerminator b name ty opc ops F).2 in
  v = nextValue F
  /\ nextValue F' = Pos.succ (nextValue F)
  /\ bodyOf F' b = bodyOf F b ++ [mkInst (nextValue F) name ty opc ops]
  /\ (forall b', b' ≠ b -> bodyOf F' b' = bodyOf F b')
  /\ (forall b', hasBlock F' b' <-> hasBlock F b')
  /\ (forall u, u ≠ nextValue F -> getType F' u = getType F u).
Proof.
  intros Hb. simpl. split; [done|]. split; [done|]. split; [|split; [|split]].
  - by rewrite bodyOf_insert_same.
  - intros b' Hne. by rewrite bodyOf_insert_other.
  - intros b'. by rewrite hasBlock_insertBeforeTerminator.
  - intros u Hu. rewrite getType_insertBeforeTerminator by (simpl; congruence). done.
Qed.

Lemma bodyOf_bumpValue (F : Function) (b : BasicBlock) :
  bodyOf (bumpValue F) b = bodyOf F b.
Proof. done. Qed.

Lemma hasBlock_bumpValue (F : Function) (b : BasicBlock) :
  hasBlock (bumpValue F) b <-> hasBlock F b.
Proof. done. Qed.

Lemma getType_bumpValue (F : Function) (v : Value) :
  getType (bumpValue F) v = getType F v.
Proof. done. Qed.

Ltac solve_hasBlock :=
  repeat (rewrite hasBlock_insertBeforeTerminator || rewrite hasBlock_bumpValue);
  assumption.

Ltac read_bodies :=
  repeat first
    [ rewrite bodyOf_bumpValue
    | rewrite bodyOf_insert_same by solve_hasBlock
    | rewrite bodyOf_insert_other by congruence ].

Ltac read_types :=
  repeat first
    [ rewrite getType_bumpValue
    | rewrite getType_insertBeforeTerminator by (simpl; lia) ].

Local Notation "x .+1" := (Pos.succ x) (at level 1, left associativity, format "x .+1").

(** The instructions one tracked value adds to the three blocks. *)
Lemma marshalValue_bodies (ckptMem : Value) (saveBB restoreBB junctionBB : BasicBlock)
    (v : Value) (m : MarshalState) :
  saveBB ≠ restoreBB -> saveBB ≠ junctionBB -> restoreBB ≠ junctionBB ->
  hasBlock (mF m) saveBB -> hasBlock (mF m) restoreBB -> hasBlock (mF m) junctionBB ->
  let F := mF m in
  let n := nextValue F in
  let k := valMemSegIndex m in
  let nm := valueName F v in
  let ty := getType F v in
  let m' := marshalValue ckptMem saveBB restoreBB junctionBB v m in
  valMemSegIndex m' = (k + 1)%Z
  /\ hasBlock (mF m') saveBB /\ hasBlock (mF m') restoreBB /\ hasBlock (mF m') junctionBB
  /\ (forall u, u < n -> getType (mF m') u = getType F u)
  /\ (n < nextValue (mF m'))
  /\ if isPointerTy ty
     then
       nextValue (mF m') = n.+1.+1.+1.+1.+1.+1.+1.+1
       /\ bodyOf (mF m') saveBB = bodyOf F saveBB ++
            [mkInst n ("deref_" +:+ nm) Int32Ty Load [OVal v];
             mkInst n.+1 ("idx_" +:+ nm) (PointerTy Int32Ty) GetElementPtr
               [OVal ckptMem; OConst Int32Ty k];
             mkInst n.+1.+1 "" VoidTy Store [OVal n; OVal n.+1]]
       /\ bodyOf (mF m') restoreBB = bodyOf F restoreBB ++
            [mkInst n.+1.+1.+1 ("idx_" +:+ nm) (PointerTy Int32Ty) GetElementPtr
               [OVal ckptMem; OConst Int32Ty k];
             mkInst n.+1.+1.+1.+1 ("load." +:+ nm) (getContainedType0 ty) Load
               [OVal n.+1.+1.+1];
             mkInst n.+1.+1.+1.+1.+1 ("alloca." +:+ nm)
               (PointerTy (getContainedType0 ty)) Alloca [OConst Int32Ty 1];
             mkInst n.+1.+1.+1.+1.+1.+1 "" VoidTy Store
               [OVal n.+1.+1.+1.+1; OVal n.+1.+1.+1.+1.+1]]
       /\ bodyOf (mF m') junctionBB = bodyOf F junctionBB ++
            [mkInst n.+1.+1.+1.+1.+1.+1.+1 ("new." +:+ nm) ty (PHI [saveBB; restoreBB])
               [OVal v; OVal n.+1.+1.+1.+1.+1]]
     else
       nextValue (mF m') = n.+1.+1.+1.+1.+1
       /\ bodyOf (mF m') saveBB = bodyOf F saveBB ++
            [mkInst n ("idx_" +:+ nm) (PointerTy Int32Ty) GetElementPtr
               [OVal ckptMem; OConst Int32Ty k];
             mkInst n.+1 "" VoidTy Store [OVal v; OVal n]]
       /\ bodyOf (mF m') restoreBB = bodyOf F restoreBB ++
            [mkInst n.+1.+1 ("idx_" +:+ nm) (PointerTy Int32Ty) GetElementPtr
               [OVal ckptMem; OConst Int32Ty k];
             mkInst n.+1.+1.+1 ("load." +:+ nm) ty Load [OVal n.+1.+1]]
       /\ bodyOf (mF m') junctionBB = bodyOf F junctionBB ++
            [mkInst n.+1.+1.+1.+1 ("new." +:+ nm) ty (PHI [saveBB; restoreBB])
               [OVal v; OVal n.+1.+1.+1]].
Proof.
  intros Hsr Hsj Hrj Hs Hr Hj F n k nm ty m'.
  subst m'. unfold marshalValue. fold F. fold ty. fold nm. fold k.
  unfold createSlotPtr, createBeforeTerminator.
  destruct (isPointerTy ty) eqn:Hp; cbn [fst snd mF valMemSegIndex nextValue bumpValue].
  - split; [done|]. split; [solve_hasBlock|]. split; [solve_hasBlock|].
    split; [solve_hasBlock|]. split; [intros u Hu; fold n in Hu |-*; read_types; done|].
    split; [simpl; fold n; lia|]. split; [done|].
    split; [read_bodies; by rewrite <- !app_assoc|].
    split; [read_bodies; by rewrite <- !app_assoc|].
    read_bodies. done.
  - split; [done|]. split; [solve_hasBlock|]. split; [solve_hasBlock|].
    split; [solve_hasBlock|]. split; [intros u Hu; fold n in Hu |-*; read_types; done|].
    split; [simpl; fold n; lia|]. split; [done|].
    split; [read_bodies; by rewrite <- !app_assoc|].
    split; [read_bodies; by rewrite <- !app_assoc|].
    read_bodies. done.
Qed.

Lemma valueSlots_S (n : nat) :
  valueSlots (S n) = valueSlots n ++ [(VALUES_START + Z.of_nat n)%Z].
Proof. unfold valueSlots. by rewrite seq_S, fmap_app. Qed.

Lemma junctionMerges_app (s r : BasicBlock) (l1 l2 : list Instruction) :
  junctionMerges s r (l1 ++ l2) = junctionMerges s r l1 ++ junctionMerges s r l2.
Proof. unfold junctionMerges. by rewrite omap_app. Qed.

Section MarshalStep.

Variables (ckptMem : Value) (saveBB restoreBB junctionBB : BasicBlock) (F0 : Function).
Hypothesis Hsr : saveBB ≠ restoreBB.
Hypothesis Hsj : saveBB ≠ junctionBB.
Hypothesis Hrj : restoreBB ≠ junctionBB.

Lemma marshalledSoFar_step (l rs : list Value) (m : MarshalState) (v : Value) :
  v < nextValue F0 ->
  marshalledSoFar ckptMem saveBB restoreBB junctionBB F0 l rs m ->
  exists r,
    marshalledSoFar ckptMem saveBB restoreBB junctionBB F0 (l ++ [v]) (rs ++ [r])
      (marshalValue ckptMem saveBB restoreBB junctionBB v m).
Proof.
  intros Hv (Hs & Hr & Hj & Hn & Hty & Hk & Hsaved & Hstored & Hder & Hloaded
             & Hlen & Hmerge & Hres & Hrs).
  pose proof (marshalValue_bodies ckptMem saveBB restoreBB junctionBB v m
                Hsr Hsj Hrj Hs Hr Hj) as (Hk' & Hs' & Hr' & Hj' & Hty' & Hn' & Hb).
  set (m' := marshalValue ckptMem saveBB restoreBB junctionBB v m) in *.
  assert (Hvn : v < nextValue (mF m)) by lia.
  rewrite (Hty v Hv) in Hb.
  assert (Hfresh : forall u, u < nextValue F0 -> getType (mF m') u = getType F0 u).
  { intros u Hu. rewrite Hty' by lia. by apply Hty. }
  set (n := nextValue (mF m)) in *.
  set (s := scanSave ckptMem (bodyOf (mF m) saveBB)) in *.
  set (t := scanRestore ckptMem (bodyOf (mF m) restoreBB)) in *.
  destruct (isPointerTy (getType F0 v)) eqn:Hp.
  - destruct Hb as (Hnv & Hbs & Hbr & Hbj).
    exists n.+1.+1.+1.+1.+1.
    unfold marshalledSoFar. rewrite Hbs, Hbr, Hbj.
    unfold scanSave, scanRestore. rewrite !foldl_app.
    change (foldl (scanSaveStep ckptMem) _ (bodyOf (mF m) saveBB)) with s.
    change (foldl (scanRestoreStep ckptMem) _ (bodyOf (mF m) restoreBB)) with t.
    rewrite junctionMerges_app, Hmerge.
    unfold scanSaveStep, scanRestoreStep, junctionMerges. simpl.
    rewrite !(bool_decide_eq_true_2 (ckptMem = ckptMem)) by done.
    rewrite (bool_decide_eq_true_2 (saveBB = saveBB)) by done.
    rewrite (bool_decide_eq_true_2 (restoreBB = restoreBB)) by done. simpl.
    rewrite !lookup_insert_eq. simpl.
    rewrite (bool_decide_eq_true_2 (n.+1.+1.+1.+1.+1 ∈ _)) by set_solver.
    simpl. rewrite lookup_insert_eq.
    split; [done|]. split; [done|]. split; [done|]. split; [lia|]. split; [done|].
    split; [rewrite Hk', Hk, length_app; simpl; lia|].
    split; [rewrite imap_app; simpl; by rewrite Hsaved, Hp, Nat.add_0_r, Hk|].
    split; [by rewrite length_app, Nat.add_1_r, valueSlots_S, Hstored, Hk|].
    split.
    { intros u Hu. rewrite lookup_insert_ne by lia. by apply Hder. }
    split; [by rewrite length_app, Nat.add_1_r, valueSlots_S, Hloaded, Hk|].
    split; [rewrite !length_app; simpl; lia|].
    split; [by rewrite zip_with_app by (by symmetry)|].
    split.
    { intros i v' r Hi Hri.
      destruct (decide (i = length l)) as [->|Hne].
      - rewrite lookup_app_r in Hi by lia. rewrite lookup_app_r in Hri by lia.
        rewrite Hlen, Nat.sub_diag in Hri. rewrite Nat.sub_diag in Hi.
        simpl in *. injection Hi as <-. injection Hri as <-.
        rewrite lookup_insert_eq, Hp, Hk. done.
      - assert (i < length l)%nat.
        { apply lookup_lt_Some in Hi. rewrite length_app in Hi. simpl in Hi. lia. }
        rewrite lookup_app_l in Hi by lia. rewrite lookup_app_l in Hri by lia.
        assert (r < n) by (apply Hrs; by eapply list_elem_of_lookup_2).
        simpl. rewrite !lookup_insert_ne by lia. by apply (Hres i). }
    intros r Hr0. apply elem_of_app in Hr0 as [Hr0|Hr0].
    + apply Hrs in Hr0. lia.
    + apply list_elem_of_singleton in Hr0. subst r. rewrite Hnv. lia.
  - destruct Hb as (Hnv & Hbs & Hbr & Hbj).
    exists n.+1.+1.+1.
    unfold marshalledSoFar. rewrite Hbs, Hbr, Hbj.
    unfold scanSave, scanRestore. rewrite !foldl_app.
    change (foldl (scanSaveStep ckptMem) _ (bodyOf (mF m) saveBB)) with s.
    change (foldl (scanRestoreStep ckptMem) _ (bodyOf (mF m) restoreBB)) with t.
    rewrite junctionMerges_app, Hmerge.
    unfold scanSaveStep, scanRestoreStep, junctionMerges. simpl.
    rewrite !(bool_decide_eq_true_2 (ckptMem = ckptMem)) by done.
    rewrite (bool_decide_eq_true_2 (saveBB = saveBB)) by done.
    rewrite (bool_decide_eq_true_2 (restoreBB = restoreBB)) by done. simpl.
    rewrite !lookup_insert_eq. simpl. rewrite (Hder v Hv).
    split; [done|]. split; [done|]. split; [done|]. split; [lia|]. split; [done|].
    split; [rewrite Hk', Hk, length_app; simpl; lia|].
    split; [rewrite imap_app; simpl; by rewrite Hsaved, Hp, Nat.add_0_r, Hk|].
    split; [by rewrite length_app, Nat.add_1_r, valueSlots_S, Hstored, Hk|].
    split; [done|].
    split; [by rewrite length_app, Nat.add_1_r, valueSlots_S, Hloaded, Hk|].
    split; [rewrite !length_app; simpl; lia|].
    split; [rewrite zip_with_app by done; done|].
    split.
    { intros i v' r Hi Hri.
      destruct (decide (i = length l)) as [->|Hne].
      - rewrite lookup_app_r in Hi by lia. rewrite lookup_app_r in Hri by lia.
        rewrite Hlen, Nat.sub_diag in Hri. rewrite Nat.sub_diag in Hi.
        simpl in *. injection Hi as <-. injection Hri as <-.
        rewrite lookup_insert_eq, Hp, Hk. done.
      - assert (i < length l)%nat.
        { apply lookup_lt_Some in Hi. rewrite length_app in Hi. simpl in Hi. lia. }
        rewrite lookup_app_l in Hi by lia. rewrite lookup_app_l in Hri by lia.
        assert (r < n) by (apply Hrs; by eapply list_elem_of_lookup_2).
        simpl. rewrite !lookup_insert_ne by lia. by apply (Hres i). }
    intros r Hr0. apply elem_of_app in Hr0 as [Hr0|Hr0].
    + apply Hrs in Hr0. lia.
    + apply list_elem_of_singleton in Hr0. subst r. rewrite Hnv. lia.
Qed.

End MarshalStep.

Lemma iterate_elem_of (s : gset positive) (v : positive) : v ∈ iterate s <-> v ∈ s.
Proof. unfold iterate. by rewrite merge_sort_Permutation, elem_of_elements. Qed.

Lemma iterate_NoDup (s : gset positive) : NoDup (iterate s).
Proof. unfold iterate. rewrite merge_sort_Permutation. apply NoDup_elements. Qed.

Section Marshalled.

Variables (ckptMem : Value) (saveBB restoreBB junctionBB : BasicBlock) (F : Function).
Hypothesis Hsr : saveBB ≠ restoreBB.
Hypothesis Hsj : saveBB ≠ junctionBB.
Hypothesis Hrj : restoreBB ≠ junctionBB.
Hypothesis Hs : hasBlock F saveBB.
Hypothesis Hr : hasBlock F restoreBB.
Hypothesis Hj : hasBlock F junctionBB.
Hypothesis Hs0 : bodyOf F saveBB = [].
Hypothesis Hr0 : bodyOf F restoreBB = [].
Hypothesis Hj0 : bodyOf F junctionBB = [].

Lemma marshalledSoFar_all (l : list Value) :
  (forall v, v ∈ l -> v < nextValue F) ->
  exists rs,
    marshalledSoFar ckptMem saveBB restoreBB junctionBB F l rs
      (foldl (fun m trackedVal =>
                marshalValue ckptMem saveBB restoreBB junctionBB trackedVal m)
             (mkMarshal F VALUES_START ∅ ∅ ∅ ∅) l).
Proof.
  induction l as [|v l IH] using rev_ind; intros Hl.
  - exists []. unfold marshalledSoFar. simpl. rewrite Hs0, Hr0, Hj0. simpl.
    repeat split; try done; try lia.
    all: try (intros r Hin; by apply elem_of_nil in Hin).
  - destruct IH as [rs IH].
    { intros u Hu. apply Hl. apply elem_of_app. by left. }
    rewrite foldl_app. simpl.
    destruct (marshalledSoFar_step ckptMem saveBB restoreBB junctionBB F Hsr Hsj Hrj
                l rs _ v (Hl v ltac:(apply elem_of_app; right; by left)) IH) as [r Hr1].
    by exists (rs ++ [r]).
Qed.

End Marshalled.

(** C5: on the empty save, restore and junction blocks the surgeon has
    created, the marshaller's loop leaves, for every tracked value [v] of
    the checkpoint taken in the iteration order of the set: in the body of
    the save block a store to [gep(ckpt_mem, k)] of [v] itself, or of a
    load through [v] when [v] is a pointer; in the body of the restore
    block a load from [gep(ckpt_mem, k)], stored to an alloca when [v] is
    a pointer; and in the body of the junction block, which precedes its
    terminator, a phi with exactly two incomings: [v] from the save block
    and the restored value (the load, or the alloca) from the restore
    block. *)
Theorem C5_marshalled_save_restore_junction (ckptMem : Value)
    (saveBB restoreBB junctionBB : BasicBlock) (trackedVals : gset Value) (F : Function) :
  saveBB ≠ restoreBB -> saveBB ≠ junctionBB -> restoreBB ≠ junctionBB ->
  hasBlock F saveBB -> hasBlock F restoreBB -> hasBlock F junctionBB ->
  bodyOf F saveBB = [] -> bodyOf F restoreBB = [] -> bodyOf F junctionBB = [] ->
  (forall v, v ∈ trackedVals -> v < nextValue F) ->
  let F' := mF (populateSaveAndRestoreBB ckptMem saveBB restoreBB junctionBB
                  trackedVals F) in
  saved (scanSave ckptMem (bodyOf F' saveBB)) =
    imap (fun i v => mkSaved v (isPointerTy (getType F v)) (VALUES_START + Z.of_nat i))
         (iterate trackedVals)
  /\ exists restoredVals,
       length restoredVals = length (iterate trackedVals)
       /\ junctionMerges saveBB restoreBB (bodyOf F' junctionBB)
          = zip (iterate trackedVals) restoredVals
       /\ forall i v r,
            iterate trackedVals !! i = Some v -> restoredVals !! i = Some r ->
            restored (scanRestore ckptMem (bodyOf F' restoreBB)) !! r
            = Some (isPointerTy (getType F v), (VALUES_START + Z.of_nat i)%Z).
Proof.
  intros Hsr Hsj Hrj Hs Hr Hj Hs0 Hr0 Hj0 Hl F'.
  destruct (marshalledSoFar_all ckptMem saveBB restoreBB junctionBB F Hsr Hsj Hrj
              Hs Hr Hj Hs0 Hr0 Hj0 (iterate trackedVals)) as [rs H].
  { intros v Hv. apply Hl. by apply iterate_elem_of. }
  destruct H as (_ & _ & _ & _ & _ & _ & Hsaved & _ & _ & _ & Hlen & Hmerge & Hres & _).
  split; [exact Hsaved|]. exists rs. split; [done|]. split; [exact Hmerge|exact Hres].
Qed.

(** C3: on the empty save, restore and junction blocks the surgeon has
    created, the marshaller's loop gives the tracked values, in the
    iteration order of the set, the slots [VALUES_START],
    [VALUES_START + 1], ...: these are the slots the save block stores to
    and the slots the restore block loads from, they are pairwise
    distinct, two different tracked values are never saved to the same
    slot, and a tracked value is saved to and restored from the same
    slot. *)
Theorem C3_slot_indices (ckptMem : Value)
    (saveBB restoreBB junctionBB : BasicBlock) (trackedVals : gset Value) (F : Function) :
  saveBB ≠ restoreBB -> saveBB ≠ junctionBB -> restoreBB ≠ junctionBB ->
  hasBlock F saveBB -> hasBlock F restoreBB -> hasBlock F junctionBB ->
  bodyOf F saveBB = [] -> bodyOf F restoreBB = [] -> bodyOf F junctionBB = [] ->
  (forall v, v ∈ trackedVals -> v < nextValue F) ->
  let F' := mF (populateSaveAndRestoreBB ckptMem saveBB restoreBB junctionBB
                  trackedVals F) in
  let stores := scanSave ckptMem (bodyOf F' saveBB) in
  let loads := scanRestore ckptMem (bodyOf F' restoreBB) in
  let merges := junctionMerges saveBB restoreBB (bodyOf F' junctionBB) in
  storedSlots stores = valueSlots (size trackedVals)
  /\ loadedSlots loads = valueSlots (size trackedVals)
  /\ NoDup (valueSlots (size trackedVals))
  /\ (forall x y, x ∈ saved stores -> y ∈ saved stores ->
        savedValue x ≠ savedValue y -> savedSlot x ≠ savedSlot y)
  /\ (forall v, v ∈ trackedVals ->
        exists i, iterate trackedVals !! i = Some v
          /\ (exists x, x ∈ saved stores /\ savedValue x = v)
          /\ (forall x, x ∈ saved stores -> savedValue x = v ->
                savedSlot x = (VALUES_START + Z.of_nat i)%Z)
          /\ (exists r, (v, r) ∈ merges)
          /\ (forall r, (v, r) ∈ merges ->
                snd <$> restored loads !! r = Some (VALUES_START + Z.of_nat i)%Z)).
Proof.
  intros Hsr Hsj Hrj Hs Hr Hj Hs0 Hr0 Hj0 Hl F' stores loads merges.
  destruct (marshalledSoFar_all ckptMem saveBB restoreBB junctionBB F Hsr Hsj Hrj
              Hs Hr Hj Hs0 Hr0 Hj0 (iterate trackedVals)) as [rs H].
  { intros v Hv. apply Hl. by apply iterate_elem_of. }
  destruct H as (_ & _ & _ & _ & _ & _ & Hsaved & Hstored & _ & Hloaded & Hlen
                 & Hmerge & Hres & _).
  assert (Hsize : length (iterate trackedVals) = size trackedVals).
  { unfold iterate. by rewrite merge_sort_Permutation. }
  pose proof (iterate_NoDup trackedVals) as Hnd.
  fold (populateSaveAndRestoreBB ckptMem saveBB restoreBB junctionBB trackedVals F)
    in Hsaved, Hstored, Hloaded, Hmerge, Hres.
  fold F' in Hsaved, Hstored, Hloaded, Hmerge, Hres.
  fold stores in Hsaved, Hstored. fold loads in Hloaded, Hres. fold merges in Hmerge.
  rewrite Hsize in Hstored, Hloaded.
  split; [done|]. split; [done|]. split.
  { unfold valueSlots. apply NoDup_fmap_2; [|apply NoDup_seq].
    intros a b Hab. lia. }
  split.
  { intros x y Hx Hy Hxy. rewrite Hsaved in Hx, Hy.
    apply elem_of_lookup_imap in Hx as (i & u & -> & Hi).
    apply elem_of_lookup_imap in Hy as (j & w & -> & Hj').
    simpl in *. intros Heq. assert (i = j) by lia. subst j. congruence. }
  intros v Hv. apply iterate_elem_of in Hv.
  apply list_elem_of_lookup in Hv as [i Hi]. exists i. split; [done|].
  destruct (lookup_lt_is_Some_2 rs i) as [r Hri].
  { rewrite Hlen. by eapply lookup_lt_Some. }
  split.
  { eexists. split; [|shelve]. rewrite Hsaved. apply elem_of_lookup_imap.
    exists i, v. split; [reflexivity|done]. Unshelve. done. }
  split.
  { intros x Hx Hxv. rewrite Hsaved in Hx.
    apply elem_of_lookup_imap in Hx as (j & u & -> & Hj'). simpl in *. subst u.
    by rewrite (NoDup_lookup _ _ _ _ Hnd Hj' Hi). }
  split.
  { exists r. rewrite Hmerge. apply list_elem_of_lookup. exists i.
    apply lookup_zip_with_Some. by exists v, r. }
  intros r' Hr'. rewrite Hmerge in Hr'.
  apply list_elem_of_lookup in Hr' as [j Hj'].
  apply lookup_zip_with_Some in Hj' as (u & w & Heq & Hu & Hw).
  injection Heq as <- <-.
  rewrite (NoDup_lookup _ _ _ _ Hnd Hi Hu).
  by rewrite (Hres j v r' Hu Hw).
Qed.

Ltac marshal_example_side :=
  first [ done
        | by (vm_compute; eauto)
        | intros v Hv; apply elem_of_union in Hv as [Hv|Hv];
          apply elem_of_singleton in Hv; subst v; reflexivity ].

Lemma C5_marshalled_save_restore_junction_witness :
  let F' := mF (populateSaveAndRestoreBB 1 101 103 102 {[2; 20]} F_marshal) in
  saved (scanSave 1 (bodyOf F' 101)) =
    imap (fun i v => mkSaved v (isPointerTy (getType F_marshal v))
                       (VALUES_START + Z.of_nat i))
         (iterate {[2; 20]})
  /\ exists restoredVals,
       length restoredVals = length (iterate ({[2; 20]} : gset Value))
       /\ junctionMerges 101 103 (bodyOf F' 102) = zip (iterate {[2; 20]}) restoredVals
       /\ forall i v r,
            iterate ({[2; 20]} : gset Value) !! i = Some v -> restoredVals !! i = Some r ->
            restored (scanRestore 1 (bodyOf F' 103)) !! r
            = Some (isPointerTy (getType F_marshal v), (VALUES_START + Z.of_nat i)%Z).
Proof.
  apply (C5_marshalled_save_restore_junction 1 101 103 102 {[2; 20]} F_marshal);
    marshal_example_side.
Defined.

Lemma C3_slot_indices_witness :
  let F' := mF (populateSaveAndRestoreBB 1 101 103 102 {[2; 20]} F_marshal) in
  let stores := scanSave 1 (bodyOf F' 101) in
  let loads := scanRestore 1 (bodyOf F' 103) in
  storedSlots stores = valueSlots (size ({[2; 20]} : gset Value))
  /\ loadedSlots loads = valueSlots (size ({[2; 20]} : gset Value))
  /\ NoDup (valueSlots (size ({[2; 20]} : gset Value))).
Proof.
  intros F' stores loads.
  assert (H : forall v : Value, v ∈ ({[2; 20]} : gset Value) -> v < nextValue F_marshal)
    by marshal_example_side.
  destruct (C3_slot_indices 1 101 103 102 {[2; 20]} F_marshal
              ltac:(done) ltac:(done) ltac:(done)
              ltac:(vm_compute; eauto) ltac:(vm_compute; eauto) ltac:(vm_compute; eauto)
              ltac:(reflexivity) ltac:(reflexivity) ltac:(reflexivity) H)
    as (H1 & H2 & H3 & _).
  split; [exact H1|]. split; [exact H2|exact H3].
Defined.


(** * The pipeline (C7, C9) *)

Section Pipeline.

Variable sp : SplitPrimitives.
Variable propagate : Propagator.
Variable tracked : gmap positive (gmap BasicBlock (gset Value)).
Variable live : gmap positive (gmap BasicBlock LiveVals).

(** What a run that ends with installed checkpoints went through. *)
Lemma injected_inv (F F' : Function) (rc rs : BasicBlock)
    (topoMap : gmap BasicBlock CheckpointTopo) (idMap : gmap Z CheckpointTopo) :
  injectSubroutinesInFunction sp propagate tracked live F
    = Ret (Injected F' rc rs topoMap idMap) ->
  exists bbTracked ckptMem entryBlk rest succ0 succs F1 st,
    tracked !! fhandle F = Some bbTracked
    /\ getCkptMemSegmentPtr F (getFuncParams F) "ckpt_mem" = Some ckptMem
    /\ blocks F = entryBlk :: rest
    /\ getBBSuccessors F (bid entryBlk) = succ0 :: succs
    /\ splitEdgeWrapper sp (selectCheckpointBBs F bbTracked).1 (bid entryBlk) succ0
         (fname (selectCheckpointBBs F bbTracked).1 +:+ ".restoreControllerBB")
       = Ret (Some (F1, rc))
    /\ getSingleSuccessor F1 rc = Some rs
    /\ addSubroutinesForCheckpoints sp propagate live ckptMem
         (selectCheckpointBBs F bbTracked).2
         (getCkptBBsInFunc (selectCheckpointBBs F bbTracked).1
            (selectCheckpointBBs F bbTracked).2)
         (mkInj F1 ∅ ∅ {[rc]} ∅ ∅ ∅ ∅) = Ret st
    /\ topoMap = checkpointBBTopoMap st
    /\ idMap = (getCheckpointIdBBMap topoMap (iF st)).2
    /\ size idMap ≠ 0%nat
    /\ F' = populateRestoreControllerBB ckptMem rc rs idMap
              (foldl (addIdAndHeartbeat ckptMem)
                 (getCheckpointIdBBMap topoMap (iF st)).1 (iterateZMap idMap)).
Proof.
  unfold injectSubroutinesInFunction. intros H.
  case_bool_decide; [done|].
  destruct (tracked !! fhandle F) as [bbTracked|]; [|done].
  destruct (getCkptMemSegmentPtr _ _ _) as [ckptMem|]; [|done].
  destruct (blocks F) as [|entryBlk rest]; [done|].
  destruct (getBBSuccessors _ _) as [|succ0 succs] eqn:Hsuccs; [done|].
  destruct (selectCheckpointBBs F bbTracked) as [F0 cp] eqn:Hsel.
  case_bool_decide; [done|].
  destruct (splitEdgeWrapper _ _ _ _ _) as [[[F1 rc']|]|e] eqn:Hsplit; [|done|done].
  cbn [mbind Res_bind] in H.
  apply bind_Ret in H as (st & Hst & H).
  destruct (getCheckpointIdBBMap _ _) as [F2 ids] eqn:Hids.
  destruct (getSingleSuccessor F1 rc') as [rs'|] eqn:Hrs; [|done].
  case_bool_decide; [done|].
  injection H as <- <- <- <- <-.
  exists bbTracked, ckptMem, entryBlk, rest, succ0, succs, F1, st. simpl.
  rewrite Hids, ?Hsel. simpl. by repeat split.
Qed.

Lemma addSubroutine_topo ckptMem cp ckptBB successorBB st st' k t :
  addSubroutine sp propagate live ckptMem cp ckptBB successorBB st = Ret st' ->
  checkpointBBTopoMap st' !! k = Some t ->
  checkpointBBTopoMap st !! k = Some t
  \/ (k = ckptBB /\ checkpointBB t = ckptBB).
Proof.
  unfold addSubroutine. intros H Hk.
  destruct (splitEdgeWrapper sp (iF st) _ _ _) as [[[F1 sv]|]|e]; [| |done].
  2:{ injection H as <-. by left. }
  cbn [mbind Res_bind] in H.
  destruct (head (getBBSuccessors F1 sv)) as [res|]; [|done].
  destruct (splitEdgeWrapper sp F1 sv res _) as [[[F2 jn]|]|e]; [| |done].
  2:{ injection H as <-. by left. }
  cbn [mbind Res_bind] in H.
  destruct (createBlockWithBranch _ jn F2) as [rb F3].
  destruct (cp !! ckptBB) as [tv|]; [|done].
  apply bind_Ret in H as (F4 & _ & H). injection H as <-. simpl in Hk.
  rewrite emplace_lookup in Hk.
  destruct (checkpointBBTopoMap st !! k); [by left|].
  case_decide; [|done]. injection Hk as <-. by right.
Qed.

Lemma addSubroutines_topo ckptMem cp ckptBB succs st st' k t :
  addSubroutines sp propagate live ckptMem cp ckptBB succs st = Ret st' ->
  checkpointBBTopoMap st' !! k = Some t ->
  checkpointBBTopoMap st !! k = Some t
  \/ (k = ckptBB /\ checkpointBB t = ckptBB).
Proof.
  revert st. induction succs as [|s succs IH]; intros st H Hk; simpl in H.
  - injection H as <-. by left.
  - apply bind_Ret in H as (st1 & H1 & H).
    destruct (IH _ H Hk) as [Hk1|?]; [|by right].
    eapply addSubroutine_topo; eauto.
Qed.

(** The loop over the checkpoint blocks leaves no topology, or one, that
    of the first block of the set. *)
Lemma addSubroutinesForCheckpoints_topo ckptMem cp cps st st' :
  checkpointBBTopoMap st = ∅ ->
  addSubroutinesForCheckpoints sp propagate live ckptMem cp cps st = Ret st' ->
  checkpointBBTopoMap st' = ∅
  \/ exists ckptBB t, head (iterate cps) = Some ckptBB
       /\ checkpointBB t = ckptBB
       /\ checkpointBBTopoMap st' = {[ckptBB := t]}.
Proof.
  unfold addSubroutinesForCheckpoints. intros H0 H.
  destruct (iterate cps) as [|cb l].
  - injection H as <-. by left.
  - assert (Hall : forall k t, checkpointBBTopoMap st' !! k = Some t ->
                     k = cb /\ checkpointBB t = cb).
    { intros k t Hk. destruct (addSubroutines_topo _ _ _ _ _ _ _ _ H Hk) as [Hk0|?]; [|done].
      by rewrite H0, lookup_empty in Hk0. }
    destruct (checkpointBBTopoMap st' !! cb) as [t|] eqn:Hcb.
    + right. exists cb, t. split; [done|]. split; [by apply (Hall cb t)|].
      apply map_eq. intros k. destruct (decide (k = cb)) as [->|Hne].
      * by rewrite lookup_singleton_eq.
      * rewrite lookup_singleton_ne by done.
        destruct (checkpointBBTopoMap st' !! k) as [t'|] eqn:Hk; [|done].
        by destruct (Hall k t' Hk).
    + left. apply map_eq. intros k. rewrite lookup_empty.
      destruct (checkpointBBTopoMap st' !! k) as [t'|] eqn:Hk; [|done].
      destruct (Hall k t' Hk) as [-> _]. congruence.
Qed.

End Pipeline.

Lemma iterate_singleton (x : positive) : iterate {[x]} = [x].
Proof. unfold iterate. by rewrite elements_singleton. Qed.

Lemma iterateMap_singleton {A} (k : positive) (a : A) :
  iterateMap ({[k := a]} : gmap positive A) = [(k, a)].
Proof.
  unfold iterateMap. rewrite dom_singleton_L, iterate_singleton. simpl.
  by rewrite lookup_singleton_eq.
Qed.

Lemma iterateZMap_singleton {A} (k : Z) (a : A) :
  iterateZMap ({[k := a]} : gmap Z A) = [(k, a)].
Proof.
  unfold iterateZMap. rewrite dom_singleton_L, elements_singleton. simpl.
  by rewrite lookup_singleton_eq.
Qed.

(** One installed checkpoint gets the id 1. *)
Lemma getCheckpointIdBBMap_singleton (checkpointBB : BasicBlock) (t : CheckpointTopo)
    (F : Function) :
  (getCheckpointIdBBMap {[checkpointBB := t]} F).2 = {[1%Z := t]}.
Proof. unfold getCheckpointIdBBMap. by rewrite iterateMap_singleton. Qed.

(** The dispatcher block after step 5. *)
Lemma populateRestoreControllerBB_block (ckptMem : Value) (rc rs : BasicBlock)
    (idMap : gmap Z CheckpointTopo) (F : Function) :
  getBlock (populateRestoreControllerBB ckptMem rc rs idMap F) rc =
  (fun blk =>
     mkBlock (bid blk) (bname blk)
       (body blk ++
        [mkInst (nextValue F) "idx_ckpt_id_load" (PointerTy Int32Ty) GetElementPtr
           [OVal ckptMem; OConst Int32Ty CKPT_ID];
         mkInst (Pos.succ (nextValue F)) "load.ckpt_id" Int32Ty Load
           [OVal (nextValue F)]])
       (mkInst (Pos.succ (Pos.succ (nextValue F))) "" VoidTy
          (Switch rs ((fun entry : Z * CheckpointTopo => (entry.1, restoreBB entry.2))
                      <$> iterateZMap idMap))
          [OVal (Pos.succ (nextValue F))]))
  <$> getBlock F rc.
Proof.
  unfold populateRestoreControllerBB, createSlotPtr, createBeforeTerminator. simpl.
  rewrite getBlock_updateBlock by done. rewrite decide_True by done.
  rewrite getBlock_bumpValue, getBlock_insertBeforeTerminator, decide_True by done.
  rewrite getBlock_bumpValue, getBlock_insertBeforeTerminator, decide_True by done.
  rewrite getBlock_bumpValue.
  destruct (getBlock F rc) as [blk|]; [|done]. simpl.
  unfold setTerm, setBody. simpl. by rewrite <- app_assoc.
Qed.

(** C9: a run that installs checkpoints installs exactly one
    [CheckpointTopo], that of the first block, in the iteration order of
    the set, among the selected checkpoint blocks, however many blocks
    were selected; it gets the id 1 and the switch of the dispatcher block
    has that one case. *)
Theorem C9_at_most_one_checkpoint (sp : SplitPrimitives) (propagate : Propagator)
    (tracked : gmap positive (gmap BasicBlock (gset Value)))
    (live : gmap positive (gmap BasicBlock LiveVals))
    (F F' : Function) (rc rs : BasicBlock)
    (topoMap : gmap BasicBlock CheckpointTopo) (idMap : gmap Z CheckpointTopo) :
  injectSubroutinesInFunction sp propagate tracked live F
    = Ret (Injected F' rc rs topoMap idMap) ->
  exists bbTracked first t,
    tracked !! fhandle F = Some bbTracked
    /\ head (iterate (getCkptBBsInFunc (selectCheckpointBBs F bbTracked).1
                        (selectCheckpointBBs F bbTracked).2)) = Some first
    /\ checkpointBB t = first
    /\ topoMap = {[first := t]}
    /\ idMap = {[1%Z := t]}
    /\ forall blk, getBlock F' rc = Some blk ->
         opcode (term blk) = Switch rs [(1%Z, restoreBB t)].
Proof.
  intros H.
  apply injected_inv in H
    as (bbTracked & ckptMem & entryBlk & rest & succ0 & succs & F1 & st
        & Htr & _ & _ & _ & _ & _ & Hloop & Htopo & Hids & Hsize & HF').
  apply addSubroutinesForCheckpoints_topo in Hloop as [He|(cb & t & Hhead & Ht & Hst)];
    [| |done].
  - rewrite <- Htopo in He. subst topoMap. by subst idMap.
  - rewrite <- Htopo in Hst. subst topoMap.
    rewrite getCheckpointIdBBMap_singleton in Hids. subst idMap.
    exists bbTracked, cb, t. repeat split; try done.
    intros blk Hblk. rewrite HF', populateRestoreControllerBB_block in Hblk.
    destruct (getBlock _ rc) as [blk0|]; [|done]. injection Hblk as <-. simpl.
    by rewrite iterateZMap_singleton.
Qed.

(** ** The dispatcher block's successor under LLVM's splitting *)

Section SplitLookup.

Variables (BB New : BasicBlock) (keep split : Block -> Block) (newBlk : Block).
Hypothesis Hkeep : forall blk, bid (keep blk) = bid blk.
Hypothesis Hsplit : forall blk, bid (split blk) = bid blk.
Hypothesis Hnew : bid newBlk = New.

Let splitBlocks (bs : list Block) : list Block :=
  bs ≫= (fun blk => if bool_decide (bid blk = BB) then [split blk; newBlk] else [keep blk]).

Lemma find_split_old (b : BasicBlock) (bs : list Block) :
  b ≠ New ->
  find (fun blk => bool_decide (bid blk = b)) (splitBlocks bs) =
  (fun blk => if bool_decide (bid blk = BB) then split blk else keep blk)
  <$> find (fun blk => bool_decide (bid blk = b)) bs.
Proof.
  intros Hb. unfold splitBlocks. induction bs as [|blk bs IH]; [done|].
  rewrite bind_cons. simpl find at 2.
  destruct (decide (bid blk = BB)) as [HB|HB].
  - rewrite (bool_decide_eq_true_2 _ HB). simpl. rewrite Hsplit.
    destruct (decide (bid blk = b)) as [Hblk|Hblk].
    + rewrite (bool_decide_eq_true_2 _ Hblk). simpl.
      by rewrite (bool_decide_eq_true_2 _ HB).
    + rewrite (bool_decide_eq_false_2 _ Hblk).
      rewrite bool_decide_eq_false_2 by congruence. apply IH.
  - rewrite (bool_decide_eq_false_2 _ HB). simpl. rewrite Hkeep.
    destruct (decide (bid blk = b)) as [Hblk|Hblk].
    + rewrite (bool_decide_eq_true_2 _ Hblk). simpl.
      by rewrite (bool_decide_eq_false_2 _ HB).
    + rewrite (bool_decide_eq_false_2 _ Hblk). apply IH.
Qed.

Lemma find_split_new (bs : list Block) :
  New ∉ bid <$> bs ->
  is_Some (find (fun blk => bool_decide (bid blk = BB)) bs) ->
  find (fun blk => bool_decide (bid blk = New)) (splitBlocks bs) = Some newBlk.
Proof.
  unfold splitBlocks. induction bs as [|blk bs IH]; intros Hfresh [x Hx]; [done|].
  rewrite fmap_cons in Hfresh. apply not_elem_of_cons in Hfresh as [Hne Hfresh].
  rewrite bind_cons. simpl in Hx.
  destruct (decide (bid blk = BB)) as [HB|HB].
  - rewrite (bool_decide_eq_true_2 _ HB). simpl. rewrite Hsplit.
    rewrite bool_decide_eq_false_2 by congruence.
    by rewrite (bool_decide_eq_true_2 _ Hnew).
  - rewrite (bool_decide_eq_false_2 _ HB) in *. simpl. rewrite Hkeep.
    rewrite bool_decide_eq_false_2 by congruence. apply IH; eauto.
Qed.

End SplitLookup.

Lemma getBlock_elem_of (F : Function) (b : BasicBlock) (blk : Block) :
  getBlock F b = Some blk -> b ∈ bid <$> blocks F.
Proof.
  intros H. apply getBlock_Some in H as [Hin <-]. by apply list_elem_of_fmap_2.
Qed.

Lemma GetSuccessorNumber_head (F : Function) (BB Succ : BasicBlock) :
  head (getBBSuccessors F BB) = Some Succ -> GetSuccessorNumber F BB Succ = 0%nat.
Proof.
  unfold GetSuccessorNumber. destruct (getBBSuccessors F BB) as [|s l]; [done|].
  intros [= ->]. simpl. by rewrite decide_True.
Qed.

Lemma successors_setSuccessor_0 (New : BasicBlock) (t : Instruction) (blk : Block) :
  term blk = setSuccessor 0 New t -> is_Some (successors (setTerm blk t) !! 0%nat) ->
  successors blk !! 0%nat = Some New.
Proof.
  unfold successors, setSuccessor. simpl. intros -> [x Hx].
  destruct (opcode t) as [| | | | | | |succs|d cases|]; simpl in *; try done.
  destruct succs; [done|]. done.
Qed.

Lemma getBBSuccessors_setName (b b' : BasicBlock) (n : string) (F : Function) :
  getBBSuccessors (setName b n F) b' = getBBSuccessors F b'.
Proof.
  unfold getBBSuccessors, setName. rewrite getBlock_updateBlock by done.
  case_decide; [|done]. by destruct (getBlock F b').
Qed.

(** With LLVM's splitting and a fresh handle for the new block, the
    dispatcher block's single successor is the first successor the entry
    block had. *)
Lemma restoreController_successor (F F1 : Function) (entryBB succ0 rc rs : BasicBlock)
    (name : string) :
  nextBlock F ∉ bid <$> blocks F ->
  head (getBBSuccessors F entryBB) = Some succ0 ->
  splitEdgeWrapper llvmSplit F entryBB succ0 name = Ret (Some (F1, rc)) ->
  getSingleSuccessor F1 rc = Some rs ->
  rs = succ0.
Proof.
  intros Hfresh Hhead Hsplit Hrs.
  unfold splitEdgeWrapper, SplitEdgeCustom in Hsplit. simpl in Hsplit.
  rewrite (GetSuccessorNumber_head _ _ _ Hhead) in Hsplit.
  unfold getSingleSuccessor in Hrs.
  assert (Hs0 : getBBSuccessors F entryBB !! 0%nat = Some succ0).
  { by destruct (getBBSuccessors F entryBB). }
  destruct (llvm_SplitCriticalEdge F entryBB 0) as [F'|] eqn:Hcrit.
  - unfold llvm_SplitCriticalEdge in Hcrit.
    destruct (isCriticalEdge F entryBB 0); [|done].
    rewrite Hs0 in Hcrit.
    destruct (getBlock F entryBB) as [TIBB|] eqn:Hentry; [|done].
    injection Hcrit as HF'.
    assert (Hne : entryBB ≠ nextBlock F).
    { intros ->. by apply getBlock_elem_of in Hentry. }
    assert (Hrc : getBBSuccessors F' entryBB !! 0%nat = Some (nextBlock F)).
    { rewrite <- HF'. unfold getBBSuccessors, getBlock at 1. simpl.
      rewrite (find_split_old entryBB (nextBlock F)) by (try done; by intros blk; case_bool_decide).
      fold (getBlock F entryBB). rewrite Hentry. simpl.
      rewrite (bool_decide_eq_true_2 _ (getBlock_bid _ _ _ Hentry)).
      eapply successors_setSuccessor_0.
      - simpl. reflexivity.
      - unfold getBBSuccessors in Hs0. rewrite Hentry in Hs0.
        exists succ0. revert Hs0. unfold successors. simpl.
        done. }
    rewrite Hrc in Hsplit. injection Hsplit as <- <-. rewrite <- HF' in Hrs.
    rewrite getBBSuccessors_setName in Hrs.
    unfold getBBSuccessors, getBlock in Hrs. simpl in Hrs.
    rewrite (find_split_new entryBB (nextBlock F)) in Hrs.
    all: try (fold (getBlock F entryBB); by rewrite Hentry).
    all: try done.
    all: try by (intros blk; case_bool_decide).
    simpl in Hrs. by injection Hrs as <-.
  - unfold llvm_SplitBlock in Hsplit.
    destruct (getBlock F entryBB) as [Old|] eqn:Hentry; [|done].
    injection Hsplit as <- <-. rewrite getBBSuccessors_setName in Hrs.
    unfold getBBSuccessors, getBlock in Hrs. simpl in Hrs.
    rewrite (find_split_new entryBB (nextBlock F)) in Hrs.
    all: try (fold (getBlock F entryBB); by rewrite Hentry).
    all: try done.
    all: try by (intros blk; case_bool_decide).
    unfold successors in Hrs. simpl in Hrs.
    unfold getBBSuccessors in Hs0. rewrite Hentry in Hs0. unfold successors in Hs0.
    destruct (match opcode (term Old) with
              | Term succs => succs
              | Switch default cases => default :: cases.*2
              | _ => []
              end) as [|s l]; [done|].
    injection Hs0 as ->. destruct l; [|done]. by injection Hrs as <-.
Qed.

Lemma find_fmap_bid (f : Block -> Block) (b : BasicBlock) (bs : list Block) :
  (forall blk, bid (f blk) = bid blk) ->
  find (fun blk => bool_decide (bid blk = b)) (f <$> bs)
  = f <$> find (fun blk => bool_decide (bid blk = b)) bs.
Proof.
  intros Hf. induction bs as [|blk bs IH]; [done|].
  rewrite fmap_cons. simpl. rewrite Hf. by destruct (bool_decide (bid blk = b)).
Qed.

Lemma selectCheckpointBBs_nextBlock (F : Function) (m : gmap BasicBlock (gset Value)) :
  nextBlock (selectCheckpointBBs F m).1 = nextBlock F.
Proof.
  unfold selectCheckpointBBs, chooseBBWithCheckpointDirective.
  by destruct (chooseBlocks _ (blocks F) ∅).
Qed.

Lemma selectCheckpointBBs_bids (F : Function) (m : gmap BasicBlock (gset Value)) :
  bid <$> blocks (selectCheckpointBBs F m).1 = bid <$> blocks F.
Proof.
  rewrite selectCheckpointBBs_blocks, <- list_fmap_compose.
  apply list_fmap_ext. intros i blk _. simpl. by destruct (chosen _ blk).
Qed.

Lemma selectCheckpointBBs_successors (F : Function) (m : gmap BasicBlock (gset Value))
    (b : BasicBlock) :
  getBBSuccessors (selectCheckpointBBs F m).1 b = getBBSuccessors F b.
Proof.
  unfold getBBSuccessors, getBlock. rewrite selectCheckpointBBs_blocks.
  rewrite find_fmap_bid by (intros blk; by destruct (chosen _ blk)).
  destruct (find _ (blocks F)) as [blk|]; [|done]. simpl.
  by destruct (chosen _ blk).
Qed.

(** A run that installs checkpoints installs one, with the id 1. *)
Lemma injected_single (sp : SplitPrimitives) (propagate : Propagator)
    (tracked : gmap positive (gmap BasicBlock (gset Value)))
    (live : gmap positive (gmap BasicBlock LiveVals))
    (F F' : Function) (rc rs : BasicBlock)
    (topoMap : gmap BasicBlock CheckpointTopo) (idMap : gmap Z CheckpointTopo) :
  injectSubroutinesInFunction sp propagate tracked live F
    = Ret (Injected F' rc rs topoMap idMap) ->
  exists first t, topoMap = {[first := t]} /\ idMap = {[1%Z := t]}.
Proof.
  intros H.
  apply injected_inv in H
    as (bbTracked & ckptMem & entryBlk & rest & succ0 & succs & F1 & st
        & _ & _ & _ & _ & _ & _ & Hloop & Htopo & Hids & Hsize & _).
  apply addSubroutinesForCheckpoints_topo in Hloop as [He|(cb & t & _ & _ & Hst)];
    [| |done].
  - rewrite <- Htopo in He. subst topoMap. by subst idMap.
  - rewrite <- Htopo in Hst. subst topoMap.
    rewrite getCheckpointIdBBMap_singleton in Hids. by exists cb, t.
Qed.

(** C7: when the pass has installed checkpoints in a function, the
    dispatcher block ends with the load of [gep(ckpt_mem, CKPT_ID)] and
    its terminator is a switch on the loaded value; the default target is
    the first successor the entry block had, the cases send each assigned
    id to the restore block of its checkpoint, the ids are the consecutive
    integers from 1 and there are as many cases as installed
    [CheckpointTopo]s. *)
Theorem C7_dispatcher_switch (propagate : Propagator)
    (tracked : gmap positive (gmap BasicBlock (gset Value)))
    (live : gmap positive (gmap BasicBlock LiveVals))
    (F F' : Function) (rc rs : BasicBlock)
    (topoMap : gmap BasicBlock CheckpointTopo) (idMap : gmap Z CheckpointTopo)
    (blk : Block) :
  nextBlock F ∉ bid <$> blocks F ->
  injectSubroutinesInFunction llvmSplit propagate tracked live F
    = Ret (Injected F' rc rs topoMap idMap) ->
  getBlock F' rc = Some blk ->
  exists ckptMem entryBlk pre gep load cases,
    getCkptMemSegmentPtr F (getFuncParams F) "ckpt_mem" = Some ckptMem
    /\ head (blocks F) = Some entryBlk
    /\ head (getBBSuccessors F (bid entryBlk)) = Some rs
    /\ body blk = pre ++ [gep; load]
    /\ opcode gep = GetElementPtr
    /\ operands gep = [OVal ckptMem; OConst Int32Ty CKPT_ID]
    /\ opcode load = Load
    /\ operands load = [OVal (result gep)]
    /\ opcode (term blk) = Switch rs cases
    /\ operands (term blk) = [OVal (result load)]
    /\ cases = (fun entry : Z * CheckpointTopo => (entry.1, restoreBB entry.2))
               <$> iterateZMap idMap
    /\ cases.*1 = Z.of_nat <$> seq 1 (size topoMap)
    /\ length cases = size topoMap.
Proof.
  intros Hfresh H Hblk.
  destruct (injected_single _ _ _ _ _ _ _ _ _ _ H) as (cb & t & Htopo1 & Hid1).
  apply injected_inv in H
    as (bbTracked & ckptMem & entryBlk & rest & succ0 & succs & F1 & st
        & _ & Hmem & Hblocks & Hsuccs & Hsplit & Hrs & _ & _ & _ & _ & HF').
  assert (rs = succ0) as ->.
  { eapply restoreController_successor; [| |exact Hsplit|exact Hrs].
    - by rewrite selectCheckpointBBs_nextBlock, selectCheckpointBBs_bids.
    - by rewrite selectCheckpointBBs_successors, Hsuccs. }
  rewrite HF', populateRestoreControllerBB_block in Hblk.
  destruct (getBlock _ rc) as [blk0|]; [|done]. injection Hblk as <-.
  eexists ckptMem, entryBlk, (body blk0), _, _, _. simpl.
  split; [done|]. split; [by rewrite Hblocks|]. split; [by rewrite Hsuccs|].
  split; [reflexivity|]. split; [reflexivity|]. split; [reflexivity|].
  split; [reflexivity|]. split; [reflexivity|]. split; [reflexivity|].
  split; [reflexivity|]. split; [reflexivity|].
  subst topoMap idMap. rewrite iterateZMap_singleton, map_size_singleton. done.
Qed.

(** * Examples *)

Lemma pass_reaches_diamond :
  injectSubroutinesInFunction llvmSplit
    (fun env a b c d F =>
       if bool_decide ((env, a, b, c, d, F) = (env_diamond, 3, 102, 20, 108, marshalled_diamond))
       then Raise Undefined else Raise OutOfRange)
    tracked_diamond live_diamond F_diamond
  = Raise Undefined.
Proof. vm_compute. reflexivity. Qed.

(** C2 as stated fails.  On [F_c2] the queue never empties: the pass
    does not return, whatever the number of turns it is given.  And on
    [F_diamond], where it does return, the fifth request dequeued (block
    "use" reached from "right") passes the three tests and pushes nothing:
    the block is a join that already has the phi. *)
Lemma C2_queue_never_empties_on_F_c2 :
  (forall fuel,
     injectSubroutinesInFunction llvmSplit (propagateWithFuel fuel)
       tracked_c2 live_c2 F_c2 = Raise OutOfFuel)
  /\ exists st r q st',
       traceFrom env_diamond 5 start_diamond !! 4%nat = Some st
       /\ queue st = r :: q
       /\ stopsAtDequeue r (mkPropState (pF st) q (visitedBBs st)) = false
       /\ processUpdateRequest env_diamond r (mkPropState (pF st) q (visitedBBs st))
          = Ret st'
       /\ queue st' = q.
Proof.
  split; [exact pass_never_returns_on_F_c2|].
  eexists _, _, _, _. split; [vm_compute; reflexivity|].
  split; [vm_compute; reflexivity|]. split; [vm_compute; reflexivity|].
  split; vm_compute; reflexivity.
Qed.

Lemma C2_requests_that_push_nothing_witness :
  exists st' blk join pushed,
    processUpdateRequest env_c6 request_c6 start_c6 = Ret st'
    /\ getBlock (pF start_c6) (currBB request_c6) = Some blk
    /\ isJoin env_c6 (pF start_c6) request_c6 = Ret join
    /\ queue st' = queue start_c6 ++ pushed.
Proof.
  assert (H : { st' | processUpdateRequest env_c6 request_c6 start_c6 = Ret st' }).
  { eexists. vm_compute. reflexivity. }
  destruct H as [st' H].
  destruct (C2_requests_that_push_nothing env_c6 request_c6 start_c6 st' H)
    as (blk & join & pushed & H1 & H2 & H3 & _).
  exists st', blk, join, pushed. repeat split; assumption.
Defined.

Lemma C4_checkpoint_block_selection_witness :
  NoDup (bid <$> blocks F_two)
  /\ blocks (selectCheckpointBBs F_two {[2 := {[20]}; 3 := {[20]}]}).1 =
     (fun blk =>
        if bool_decide (is_Some ((selectCheckpointBBs F_two {[2 := {[20]}; 3 := {[20]}]}).2
                                 !! bid blk))
        then setBody blk (eraseFirstDirective (body blk)) else blk)
     <$> blocks F_two.
Proof.
  assert (H : NoDup (bid <$> blocks F_two)).
  { apply (bool_decide_unpack _). vm_compute. exact I. }
  split; [exact H|].
  exact (proj2 (proj2 (C4_checkpoint_block_selection F_two {[2 := {[20]}; 3 := {[20]}]} H))).
Defined.

Lemma C10_linkonce_odr_functions_unchanged_witness :
  linkage F_odr = LinkOnceODRLinkage
  /\ injectSubroutinesInFunction llvmSplit (propagateWithFuel 100)
       {[ 2 := {[ 2 := {[20]} ]} ]} live_two F_odr
     = Ret (Skipped IsLinkOnceODR F_odr false).
Proof.
  split; [reflexivity|].
  exact (proj1 (C10_linkonce_odr_functions_unchanged llvmSplit (propagateWithFuel 100)
                  {[ 2 := {[ 2 := {[20]} ]} ]} live_two F_odr eq_refl)).
Defined.

Lemma C9_at_most_one_checkpoint_witness :
  exists F' rc rs topoMap idMap first t,
    injectSubroutinesInFunction llvmSplit (propagateWithFuel 100)
      tracked_two live_two F_two = Ret (Injected F' rc rs topoMap idMap)
    /\ checkpointBB t = first
    /\ topoMap = {[first := t]}
    /\ idMap = {[1%Z := t]}.
Proof.
  destruct (injectSubroutinesInFunction llvmSplit (propagateWithFuel 100)
              tracked_two live_two F_two)
    as [[why Fs m|F' rc rs topoMap idMap]|e] eqn:H.
  - vm_compute in H. discriminate H.
  - destruct (C9_at_most_one_checkpoint _ _ _ _ _ _ _ _ _ _ H)
      as (bbTracked & first & t & _ & _ & H3 & H4 & H5 & _).
    exists F', rc, rs, topoMap, idMap, first, t. repeat split; assumption.
  - vm_compute in H. discriminate H.
Defined.

Lemma C7_dispatcher_switch_witness :
  exists F' rc rs topoMap idMap blk cases,
    (nextBlock F_two ∉ bid <$> blocks F_two)
    /\ injectSubroutinesInFunction llvmSplit (propagateWithFuel 100)
         tracked_two live_two F_two = Ret (Injected F' rc rs topoMap idMap)
    /\ getBlock F' rc = Some blk
    /\ opcode (term blk) = Switch rs cases
    /\ length cases = size topoMap.
Proof.
  assert (Hfresh : nextBlock F_two ∉ (bid <$> blocks F_two)).
  { apply (bool_decide_unpack _). vm_compute. exact I. }
  destruct (injectSubroutinesInFunction llvmSplit (propagateWithFuel 100)
              tracked_two live_two F_two)
    as [[why Fs m|F' rc rs topoMap idMap]|e] eqn:H.
  - vm_compute in H. discriminate H.
  - assert (Hblk : { blk | getBlock F' rc = Some blk }).
    { pose proof H as H'. vm_compute in H'. injection H' as <- <- _ _ _.
      eexists. vm_compute. reflexivity. }
    destruct Hblk as [blk Hblk].
    destruct (C7_dispatcher_switch _ _ _ _ _ _ _ _ _ _ Hfresh H Hblk)
      as (ckptMem & entryBlk & pre & gep & load & cases & _ & _ & _ & _ & _ & _ & _ & _
          & Hsw & _ & _ & _ & Hlen).
    exists F', rc, rs, topoMap, idMap, blk, cases. repeat split; assumption.
  - vm_compute in H. discriminate H.
Defined.

(** When no block is selected, the selection leaves the function as it is. *)
Lemma selectCheckpointBBs_none (F : Function) (m : gmap BasicBlock (gset Value)) :
  size (selectCheckpointBBs F m).2 = 0%nat -> (selectCheckpointBBs F m).1 = F.
Proof.
  intros Hsize. apply map_size_empty_inv in Hsize.
  assert (Hblocks : blocks (selectCheckpointBBs F m).1 = blocks F).
  { rewrite selectCheckpointBBs_blocks.
    rewrite <- (list_fmap_id (blocks F)) at 2. apply list_fmap_ext.
    intros i blk Hi. simpl.
    destruct (chosen _ blk) eqn:Hc; [|done]. exfalso.
    pose proof (selectCheckpointBBs_lookup F m (bid blk)) as Hl. simpl in Hl.
    rewrite Hsize, lookup_empty in Hl.
    rewrite (proj2 (existsb_exists _ _)) in Hl.
    - unfold chosen in Hc. apply andb_true_iff in Hc as [Hc _].
      apply bool_decide_eq_true_1 in Hc as [x Hx]. congruence.
    - exists blk. split; [apply list_elem_of_In; by eapply list_elem_of_lookup_2|].
      by rewrite bool_decide_eq_true_2. }
  revert Hblocks. unfold selectCheckpointBBs, chooseBBWithCheckpointDirective.
  destruct (chooseBlocks _ (blocks F) ∅) as [bs cp]. simpl. intros ->.
  by destruct F.
Qed.

(** The skips taken before a directive is erased or a block is split
    leave the function as it is. *)
Lemma early_skip_leaves_function_unchanged (sp : SplitPrimitives) (propagate : Propagator)
    (tracked : gmap positive (gmap BasicBlock (gset Value)))
    (live : gmap positive (gmap BasicBlock LiveVals))
    (F F' : Function) (why : SkipReason) (isModified : bool) :
  injectSubroutinesInFunction sp propagate tracked live F
    = Ret (Skipped why F' isModified) ->
  why ≠ RestoreControllerSplitFailed -> why ≠ NoCheckpointsInserted ->
  F' = F /\ isModified = false.
Proof.
  unfold injectSubroutinesInFunction. intros H Hw1 Hw2.
  case_bool_decide; [by injection H as <- <- <-|].
  destruct (tracked !! fhandle F) as [bbTracked|]; [|by injection H as <- <- <-].
  destruct (getCkptMemSegmentPtr _ _ _) as [ckptMem|]; [|by injection H as <- <- <-].
  destruct (blocks F) as [|entryBlk rest]; [done|].
  destruct (getBBSuccessors _ _) as [|succ0 succs]; [by injection H as <- <- <-|].
  pose proof (selectCheckpointBBs_none F bbTracked) as Hnone.
  destruct (selectCheckpointBBs F bbTracked) as [F0 cp]. simpl in Hnone.
  case_bool_decide as Hsize.
  { injection H as <- <- <-. split; [by apply Hnone|done]. }
  destruct (splitEdgeWrapper _ _ _ _ _) as [[[F1 rc']|]|e]; [| |done].
  2:{ injection H as <- <- <-. done. }
  cbn [mbind Res_bind] in H.
  apply bind_Ret in H as (st & Hst & H).
  destruct (getCheckpointIdBBMap _ _) as [F2 ids].
  destruct (getSingleSuccessor F1 rc') as [rs'|]; [|done].
  case_bool_decide; [|done]. injection H as <- <- <-. done.
Qed.

(** * More on the propagator *)

Lemma getBlock_replace_other (b b' : BasicBlock) (blk' : Block) (F : Function) :
  bid blk' = b -> b' ≠ b ->
  getBlock (updateBlock b (fun _ => blk') F) b' = getBlock F b'.
Proof.
  intros Hb Hne. unfold getBlock, updateBlock. simpl.
  induction (blocks F) as [|x bs IH]; simpl; [done|].
  destruct (decide (bid x = b)) as [Hx|Hx].
  - rewrite (bool_decide_eq_true_2 _ Hx).
    rewrite !bool_decide_eq_false_2 by congruence. apply IH.
  - rewrite (bool_decide_eq_false_2 _ Hx).
    destruct (bool_decide (bid x = b')); [done|apply IH].
Qed.

Lemma bids_replace (b : BasicBlock) (blk' : Block) (F : Function) :
  bid blk' = b ->
  bid <$> blocks (updateBlock b (fun _ => blk') F) = bid <$> blocks F.
Proof.
  intros Hb. unfold updateBlock. simpl. rewrite <- list_fmap_compose.
  apply list_fmap_ext. intros i x _. simpl. case_bool_decide; congruence.
Qed.

(** What one processed request does to the function: the block [currBB]
    is replaced by a block with the same handle and the same successors,
    whose body has the same length or one more instruction. *)
Lemma processUpdateRequest_function (env : PropEnv) (r : BBUpdateRequest)
    (st st' : PropState) :
  processUpdateRequest env r st = Ret st' ->
  exists blk blk' F0,
    getBlock (pF st) (currBB r) = Some blk
    /\ bid blk' = currBB r
    /\ successors blk' = successors blk
    /\ (length (body blk) ≤ length (body blk') ≤ S (length (body blk)))%nat
    /\ (F0 = pF st \/ F0 = bumpValue (pF st))
    /\ pF st' = updateBlock (currBB r) (fun _ => blk') F0.
Proof.
  unfold processUpdateRequest. intros H.
  destruct (getOrDefault (currBB r) (visitedBBs st)) as [bbVV visited].
  apply bind_Ret in H as (join & Hj & H).
  destruct (getBlock (pF st) (currBB r)) as [blk|] eqn:Hg; [|discriminate].
  pose proof (getBlock_bid _ _ _ Hg) as Hbid.
  destruct join.
  - destruct (isPhiInstExistForIncomingBBForTrackedVal _ blk _).
    + pose proof (modifyPhis_body (valueVersions r) (prevBB r) (newVal r) blk)
        as (H1 & H2 & H3 & _).
      destruct (modifyPhis _ _ _ blk) as [blk' changed]. simpl in *.
      injection H as <-. exists blk, blk', (pF st). simpl.
      split; [done|]. split; [congruence|]. split; [unfold successors; by rewrite H2|].
      split; [lia|]. split; [by left|done].
    + injection H as <-.
      refine (ex_intro _ blk (ex_intro _ _ (ex_intro _ (bumpValue (pF st))
                (conj eq_refl (conj _ (conj _ (conj _ (conj (or_intror eq_refl) eq_refl)))))))).
      * done.
      * unfold successors. simpl. by case_bool_decide.
      * simpl. rewrite length_fmap. simpl. lia.
  - injection H as <-.
    refine (ex_intro _ blk (ex_intro _ _ (ex_intro _ (pF st)
              (conj eq_refl (conj _ (conj _ (conj _ (conj (or_introl eq_refl) eq_refl)))))))).
    + done.
    + done.
    + simpl. rewrite length_fmap. lia.
Qed.

Lemma sameControlFlow_refl (F : Function) : sameControlFlow F F.
Proof. by repeat split. Qed.

Lemma sameControlFlow_trans (F1 F2 F3 : Function) :
  sameControlFlow F1 F2 -> sameControlFlow F2 F3 -> sameControlFlow F1 F3.
Proof.
  intros (A1 & A2 & A3 & A4 & A5 & A6 & A7) (B1 & B2 & B3 & B4 & B5 & B6 & B7).
  repeat split; try congruence.
Qed.

Lemma processUpdateRequest_sameControlFlow (env : PropEnv) (r : BBUpdateRequest)
    (st st' : PropState) :
  processUpdateRequest env r st = Ret st' ->
  sameControlFlow (pF st) (pF st') /\ (nextValue (pF st) ≤ nextValue (pF st'))%positive.
Proof.
  intros H.
  destruct (processUpdateRequest_function env r st st' H)
    as (blk & blk' & F0 & Hg & Hbid & Hsucc & _ & HF0 & ->).
  assert (HF0' : blocks F0 = blocks (pF st) /\ nextBlock F0 = nextBlock (pF st)
                 /\ fhandle F0 = fhandle (pF st) /\ fname F0 = fname (pF st)
                 /\ linkage F0 = linkage (pF st) /\ fargs F0 = fargs (pF st)
                 /\ (nextValue (pF st) ≤ nextValue F0)%positive).
  { destruct HF0 as [-> | ->]; repeat split; simpl; lia. }
  destruct HF0' as (E1 & E2 & E3 & E4 & E5 & E6 & E7).
  assert (Hg0 : getBlock F0 (currBB r) = Some blk).
  { unfold getBlock. by rewrite E1. }
  split; [|done]. unfold sameControlFlow.
  split; [by rewrite (bids_replace _ _ _ Hbid), E1|].
  split; [|simpl; by repeat split].
  intros b. destruct (decide (b = currBB r)) as [->|Hne].
  - rewrite (getBBSuccessors_replace F0 (currBB r) blk blk' Hg0 Hbid Hsucc).
    unfold getBBSuccessors, getBlock. by rewrite E1.
  - unfold getBBSuccessors. rewrite (getBlock_replace_other _ _ _ _ Hbid Hne).
    unfold getBlock. by rewrite E1.
Qed.

Lemma drainQueue_sameControlFlow (env : PropEnv) (fuel : nat) (st st' : PropState) :
  drainQueue env fuel st = Ret st' ->
  sameControlFlow (pF st) (pF st')
  /\ (nextValue (pF st) ≤ nextValue (pF st'))%positive
  /\ queue st' = [].
Proof.
  revert st. induction fuel as [|fuel IH]; intros st H; simpl in H.
  - destruct (queue st) eqn:Hq; [|done]. injection H as <-.
    split; [apply sameControlFlow_refl|]. split; [lia|done].
  - destruct (queue st) as [|r q] eqn:Hq.
    + injection H as <-. split; [apply sameControlFlow_refl|]. split; [lia|done].
    + apply bind_Ret in H as (st1 & H1 & H).
      apply processUpdateRequest_sameControlFlow in H1 as [A1 A2]. simpl in *.
      destruct (IH _ H) as (B1 & B2 & B3).
      split; [by eapply sameControlFlow_trans|]. split; [lia|done].
Qed.

(** The propagation of one value, when it returns, has emptied its work
    queue and has changed neither the blocks of the function, nor the
    successors of any block, nor the signature of the function; the new
    values it made have fresh handles. *)
Theorem propagation_keeps_control_flow (env : PropEnv) (fuel : nat)
    (startBB prevBB : BasicBlock) (oldVal newVal : Value)
    (visited : gmap BasicBlock (gset Value)) (F : Function) (st : PropState) :
  propagateRestoredValuesBFS env fuel startBB prevBB oldVal newVal visited F = Ret st ->
  sameControlFlow F (pF st)
  /\ (nextValue F ≤ nextValue (pF st))%positive
  /\ queue st = [].
Proof. unfold propagateRestoredValuesBFS. intros H. by apply drainQueue_sameControlFlow in H. Qed.

Lemma propagation_keeps_control_flow_witness :
  exists st,
    propagateRestoredValuesBFS env_diamond 100 3 102 20 108 ∅ marshalled_diamond = Ret st
    /\ sameControlFlow marshalled_diamond (pF st).
Proof.
  assert (H : { st | propagateRestoredValuesBFS env_diamond 100 3 102 20 108 ∅
                       marshalled_diamond = Ret st }).
  { eexists. vm_compute. reflexivity. }
  destruct H as [st H]. exists st. split; [exact H|].
  exact (proj1 (propagation_keeps_control_flow _ _ _ _ _ _ _ _ _ H)).
Defined.

Lemma updateMapEntry_lookup (key k : BasicBlock) (newVal : gset Value)
    (map : gmap BasicBlock (gset Value)) :
  updateMapEntry key newVal map !! k = if decide (k = key) then Some newVal else map !! k.
Proof.
  unfold updateMapEntry. rewrite emplace_lookup.
  destruct (decide (k = key)) as [->|Hne].
  - by rewrite lookup_delete_eq, decide_True.
  - rewrite lookup_delete_ne by done. destruct (map !! k); [done|].
    by rewrite decide_False.
Qed.

Lemma getOrDefault_lookup (key k : BasicBlock) (map : gmap BasicBlock (gset Value)) :
  (getOrDefault key map).2 !! k =
  if decide (k = key) then Some (getOrDefault key map).1 else map !! k.
Proof.
  unfold getOrDefault. destruct (map !! key) as [s|] eqn:Hk; simpl.
  - case_decide; [by subst|done].
  - case_decide; [subst; by rewrite lookup_insert_eq|by rewrite lookup_insert_ne].
Qed.

(** [updateMapEntry] overwrites, where [emplace] alone would not, and
    [getOrDefault] reads back what it wrote without touching the map; on a
    key that is not in the map [getOrDefault] gives the empty set and
    records the key with it. *)
Theorem updateMapEntry_getOrDefault (key : BasicBlock) (newVal : gset Value)
    (map : gmap BasicBlock (gset Value)) :
  updateMapEntry key newVal map = <[key := newVal]> map
  /\ getOrDefault key (updateMapEntry key newVal map)
     = (newVal, updateMapEntry key newVal map)
  /\ (map !! key = None -> getOrDefault key map = (∅, <[key := ∅]> map))
  /\ (forall k, k ≠ key -> updateMapEntry key newVal map !! k = map !! k)
  /\ (forall k, k ≠ key -> (getOrDefault key map).2 !! k = map !! k).
Proof.
  assert (H : updateMapEntry key newVal map = <[key := newVal]> map).
  { apply map_eq. intros k. rewrite updateMapEntry_lookup.
    case_decide; [subst; by rewrite lookup_insert_eq|by rewrite lookup_insert_ne]. }
  split; [done|]. split.
  { unfold getOrDefault. by rewrite H, lookup_insert_eq. }
  split; [intros Hk; unfold getOrDefault; by rewrite Hk|].
  split; intros k Hk.
  - by rewrite updateMapEntry_lookup, decide_False.
  - by rewrite getOrDefault_lookup, decide_False.
Qed.

(** A processed request marks its block as visited, touches the history
    of no other block, and the versions recorded for its block only
    grow. *)
Theorem processUpdateRequest_visited (env : PropEnv) (r : BBUpdateRequest)
    (st st' : PropState) :
  processUpdateRequest env r st = Ret st' ->
  is_Some (visitedBBs st' !! currBB r)
  /\ (forall b, b ≠ currBB r -> visitedBBs st' !! b = visitedBBs st !! b)
  /\ (forall s, visitedBBs st !! currBB r = Some s ->
        exists s', visitedBBs st' !! currBB r = Some s' /\ s ⊆ s').
Proof.
  unfold processUpdateRequest. intros H.
  pose proof (getOrDefault_lookup (currBB r) (currBB r) (visitedBBs st)) as Hself.
  rewrite decide_True in Hself by done.
  assert (Hother : forall b, b ≠ currBB r ->
            (getOrDefault (currBB r) (visitedBBs st)).2 !! b = visitedBBs st !! b).
  { intros b Hb. by rewrite getOrDefault_lookup, decide_False. }
  assert (Hold : forall s, visitedBBs st !! currBB r = Some s ->
            (getOrDefault (currBB r) (visitedBBs st)).1 = s).
  { intros s Hs. unfold getOrDefault. by rewrite Hs. }
  destruct (getOrDefault (currBB r) (visitedBBs st)) as [bbVV visited].
  cbn [fst snd] in *.
  apply bind_Ret in H as (join & Hj & H).
  destruct (getBlock (pF st) (currBB r)) as [blk|]; [|discriminate].
  assert (Hupd : forall vs,
    is_Some (updateMapEntry (currBB r) (bbVV ∪ vs) visited !! currBB r)
    /\ (forall b, b ≠ currBB r ->
          updateMapEntry (currBB r) (bbVV ∪ vs) visited !! b = visitedBBs st !! b)
    /\ (forall s, visitedBBs st !! currBB r = Some s ->
          exists s', updateMapEntry (currBB r) (bbVV ∪ vs) visited !! currBB r = Some s'
                     /\ s ⊆ s')).
  { intros vs. split; [rewrite updateMapEntry_lookup, decide_True by done; eauto|].
    split.
    - intros b Hb. rewrite updateMapEntry_lookup, decide_False by done. by apply Hother.
    - intros s Hs. rewrite updateMapEntry_lookup, decide_True by done.
      eexists. split; [done|]. rewrite (Hold s Hs). apply union_subseteq_l. }
  destruct join.
  - destruct (isPhiInstExistForIncomingBBForTrackedVal _ blk _).
    + destruct (modifyPhis _ _ _ blk) as [blk' changed].
      injection H as <-. simpl. destruct changed; [apply Hupd|].
      split; [rewrite Hself; eauto|]. split; [done|].
      intros s Hs. exists s. split; [|done]. by rewrite Hself, (Hold s Hs).
    + injection H as <-. simpl. apply Hupd.
  - injection H as <-. simpl. apply Hupd.
Qed.

Lemma modifyPhis_results (vV : gset Value) (prev : BasicBlock) (nv : Value) (blk : Block) :
  let blk' := (modifyPhis vV prev nv blk).1 in
  result <$> body blk' = result <$> body blk
  /\ opcode <$> body blk' = opcode <$> body blk.
Proof.
  unfold modifyPhis. simpl. rewrite !length_fmap.
  pose proof (phis_prefix (body blk)) as Hp.
  set (ps := phis (body blk)) in *. set (rest := drop (length ps) (body blk)) in *.
  rewrite <- Hp, !fmap_app, <- !list_fmap_compose.
  split; f_equal; apply list_fmap_ext; intros i phi _; simpl;
    by destruct (modifyPhi_incoming vV prev nv phi) as (? & ? & _).
Qed.

(** A processed request changes no block other than [currBB].  In
    [currBB] it removes and reorders nothing: the instructions keep their
    results and opcodes, the terminator too, and at most one instruction
    is added, a phi with a fresh handle at the head of the block. *)
Theorem processUpdateRequest_local (env : PropEnv) (r : BBUpdateRequest)
    (st st' : PropState) :
  processUpdateRequest env r st = Ret st' ->
  (forall b, b ≠ currBB r -> getBlock (pF st') b = getBlock (pF st) b)
  /\ exists blk blk',
       getBlock (pF st) (currBB r) = Some blk
       /\ getBlock (pF st') (currBB r) = Some blk'
       /\ result (term blk') = result (term blk)
       /\ opcode (term blk') = opcode (term blk)
       /\ ((result <$> body blk' = result <$> body blk
            /\ opcode <$> body blk' = opcode <$> body blk)
           \/ (result <$> body blk' = nextValue (pF st) :: (result <$> body blk)
               /\ opcode <$> body blk'
                  = PHI (getBBPredecessors (pF st) (currBB r)) :: (opcode <$> body blk))).
Proof.
  unfold processUpdateRequest. intros H.
  destruct (getOrDefault (currBB r) (visitedBBs st)) as [bbVV visited].
  apply bind_Ret in H as (join & Hj & H).
  destruct (getBlock (pF st) (currBB r)) as [blk|] eqn:Hg; [|discriminate].
  pose proof (getBlock_bid _ _ _ Hg) as Hbid.
  destruct join.
  - destruct (isPhiInstExistForIncomingBBForTrackedVal _ blk _).
    + pose proof (modifyPhis_body (valueVersions r) (prevBB r) (newVal r) blk)
        as (H1 & H2 & _).
      pose proof (modifyPhis_results (valueVersions r) (prevBB r) (newVal r) blk)
        as (H3 & H4).
      destruct (modifyPhis _ _ _ blk) as [blk' changed]. cbn [fst] in *.
      injection H as <-. cbn [pF].
      assert (Hb' : bid blk' = currBB r) by congruence.
      split; [intros b Hb; by apply getBlock_replace_other|].
      exists blk, blk'. split; [done|].
      split; [by apply (getBlock_replace _ blk)|].
      rewrite H2. split; [done|]. split; [done|]. by left.
    + injection H as <-. cbn [pF].
      split; [intros b Hb; by rewrite getBlock_replace_other|].
      eexists blk, _. split; [done|].
      split; [by apply (getBlock_replace _ blk)|]. simpl.
      split; [by case_bool_decide|]. split; [by case_bool_decide|]. right.
      rewrite (bool_decide_eq_true_2 (nextValue (pF st) = nextValue (pF st))) by done.
      simpl. rewrite <- !list_fmap_compose.
      split; f_equal; apply list_fmap_ext; intros i x _; simpl; by case_bool_decide.
  - injection H as <-. cbn [pF].
    split; [intros b Hb; by rewrite getBlock_replace_other|].
    eexists blk, _. split; [done|].
    split; [by apply (getBlock_replace _ blk)|]. simpl.
    split; [done|]. split; [done|]. left.
    rewrite <- !list_fmap_compose. split; by apply list_fmap_ext.
Qed.

Lemma processUpdateRequest_visited_witness :
  exists st',
    processUpdateRequest env_c6 request_c6 start_c6 = Ret st'
    /\ is_Some (visitedBBs st' !! currBB request_c6).
Proof.
  assert (H : { st' | processUpdateRequest env_c6 request_c6 start_c6 = Ret st' }).
  { eexists. vm_compute. reflexivity. }
  destruct H as [st' H]. exists st'. split; [exact H|].
  exact (proj1 (processUpdateRequest_visited _ _ _ _ H)).
Defined.

Lemma processUpdateRequest_local_witness :
  exists st',
    processUpdateRequest env_c6 request_c6 start_c6 = Ret st'
    /\ forall b, b ≠ currBB request_c6 ->
         getBlock (pF st') b = getBlock (pF start_c6) b.
Proof.
  assert (H : { st' | processUpdateRequest env_c6 request_c6 start_c6 = Ret st' }).
  { eexists. vm_compute. reflexivity. }
  destruct H as [st' H]. exists st'. split; [exact H|].
  exact (proj1 (processUpdateRequest_local _ _ _ _ H)).
Defined.

(** * Operand replacement *)

(** [replaceOperandsInInst] leaves no operand [oldVal] behind, keeps the
    number and the order of the operands, touches nothing but the operands
    that are [oldVal], and is the identity on an instruction that does not
    use [oldVal]. *)
Lemma replaceOperandsInInst_spec (inst : Instruction) (oldVal newVal : Value) :
  let inst' := replaceOperandsInInst inst oldVal newVal in
  result inst' = result inst /\ opcode inst' = opcode inst
  /\ iname inst' = iname inst /\ ity inst' = ity inst
  /\ length (operands inst') = length (operands inst)
  /\ (forall i op, operands inst !! i = Some op ->
        operands inst' !! i = Some (if bool_decide (op = OVal oldVal) then OVal newVal else op))
  /\ (oldVal ≠ newVal -> OVal oldVal ∉ operands inst')
  /\ (OVal oldVal ∉ operands inst -> inst' = inst).
Proof.
  unfold replaceOperandsInInst, setOperands. simpl.
  split; [done|]. split; [done|]. split; [done|]. split; [done|].
  split; [by rewrite length_fmap|]. split.
  { intros i op Hi. by rewrite list_lookup_fmap, Hi. }
  split.
  - intros Hne Hin. apply list_elem_of_fmap in Hin as (op & Heq & _).
    case_bool_decide; congruence.
  - intros Hnot. destruct inst as [res nm ty opc ops]. simpl in *. f_equal.
    rewrite <- (list_fmap_id ops) at 2. apply list_fmap_ext. intros i op Hi. simpl.
    case_bool_decide; [|done]. subst op. exfalso. apply Hnot.
    by eapply list_elem_of_lookup_2.
Qed.

(** At a block that is not handled as a join, a processed request leaves
    no use of [oldVal] in the block, terminator included, whether or not
    one of the tests at dequeue stopped the request. *)
Theorem plain_request_replaces_every_use (env : PropEnv) (r : BBUpdateRequest)
    (st st' : PropState) (blk' : Block) :
  processUpdateRequest env r st = Ret st' ->
  isJoin env (pF st) r = Ret false ->
  oldVal r ≠ newVal r ->
  getBlock (pF st') (currBB r) = Some blk' ->
  forall inst, inst ∈ instructions blk' -> OVal (oldVal r) ∉ operands inst.
Proof.
  unfold processUpdateRequest. intros H Hj Hne Hblk'.
  destruct (getOrDefault (currBB r) (visitedBBs st)) as [bbVV visited].
  rewrite Hj in H. simpl in H.
  destruct (getBlock (pF st) (currBB r)) as [blk|] eqn:Hg; [|discriminate].
  injection H as <-. cbn [pF] in Hblk'.
  erewrite getBlock_replace in Hblk'; [|exact Hg|by apply getBlock_bid in Hg].
  injection Hblk' as <-. intros inst Hin.
  unfold instructions, mapInstructions in Hin. simpl in Hin.
  assert (Hex : exists i0, inst = replaceOperandsInInst i0 (oldVal r) (newVal r)).
  { apply elem_of_app in Hin as [Hin|Hin].
    - apply list_elem_of_fmap in Hin as (i0 & -> & _). by exists i0.
    - apply list_elem_of_singleton in Hin. by exists (term blk). }
  destruct Hex as [i0 ->].
  by apply (replaceOperandsInInst_spec i0 (oldVal r) (newVal r)).
Qed.

(** The pass presents exactly this input to the propagator. *)
Lemma pass_reaches_two :
  injectSubroutinesInFunction llvmSplit
    (fun env a b c d F =>
       if bool_decide ((env, a, b, c, d, F) = (env_two, 3, 102, 20, 108, marshalled_two))
       then Raise Undefined else Raise OutOfRange)
    tracked_two live_two F_two
  = Raise Undefined.
Proof. vm_compute. reflexivity. Qed.

Lemma plain_request_replaces_every_use_witness :
  exists st r q st' blk blk',
    traceFrom env_two 2
      (mkPropState marshalled_two [mkRequest 3 3 102 20 108 ({[20]} ∪ {[108]})] ∅)
      !! 1%nat = Some st
    /\ queue st = r :: q
    /\ currBB r = 4 /\ oldVal r = 20 /\ newVal r = 108
    /\ getBlock (pF st) 4 = Some blk
    /\ (exists inst, inst ∈ instructions blk /\ OVal (oldVal r) ∈ operands inst)
    /\ processUpdateRequest env_two r (mkPropState (pF st) q (visitedBBs st)) = Ret st'
    /\ getBlock (pF st') 4 = Some blk'
    /\ (forall inst, inst ∈ instructions blk' -> OVal (oldVal r) ∉ operands inst)
    /\ (exists inst, inst ∈ instructions blk' /\ OVal (newVal r) ∈ operands inst).
Proof.
  assert (Hst : { st | traceFrom env_two 2
                         (mkPropState marshalled_two
                            [mkRequest 3 3 102 20 108 ({[20]} ∪ {[108]})] ∅)
                         !! 1%nat = Some st }) by (eexists; vm_compute; reflexivity).
  destruct Hst as [st Hst].
  assert (Hq : { r & { q | queue st = r :: q } }).
  { pose proof Hst as H'. vm_compute in H'. injection H' as <-.
    eexists _, _. vm_compute. reflexivity. }
  destruct Hq as (r & q & Hq).
  assert (Hr : currBB r = 4 /\ oldVal r = 20 /\ newVal r = 108).
  { pose proof Hst as H'. vm_compute in H'. injection H' as <-.
    vm_compute in Hq. injection Hq as <- <-. repeat split. }
  destruct Hr as (Hc & Ho & Hn).
  assert (Hblk : { blk | getBlock (pF st) 4 = Some blk }).
  { pose proof Hst as H'. vm_compute in H'. injection H' as <-.
    eexists. vm_compute. reflexivity. }
  destruct Hblk as [blk Hblk].
  assert (Huse : exists inst, inst ∈ instructions blk /\ OVal (oldVal r) ∈ operands inst).
  { rewrite Ho. pose proof Hst as H'. vm_compute in H'. injection H' as <-.
    vm_compute in Hblk. injection Hblk as <-.
    eexists. split; [left|]. left. }
  assert (H : { st' | processUpdateRequest env_two r
                        (mkPropState (pF st) q (visitedBBs st)) = Ret st' }).
  { pose proof Hst as H'. vm_compute in H'. injection H' as <-.
    vm_compute in Hq. injection Hq as <- <-.
    eexists. vm_compute. reflexivity. }
  destruct H as [st' H].
  assert (Hj : isJoin env_two (pF (mkPropState (pF st) q (visitedBBs st))) r = Ret false).
  { pose proof Hst as H'. vm_compute in H'. injection H' as <-.
    vm_compute in Hq. injection Hq as <- <-. vm_compute. reflexivity. }
  assert (Hblk' : { blk' | getBlock (pF st') 4 = Some blk' }).
  { pose proof Hst as H'. vm_compute in H'. injection H' as <-.
    vm_compute in Hq. injection Hq as <- <-.
    vm_compute in H. injection H as <-.
    eexists. vm_compute. reflexivity. }
  destruct Hblk' as [blk' Hblk'].
  assert (Hnew : exists inst, inst ∈ instructions blk' /\ OVal (newVal r) ∈ operands inst).
  { rewrite Hn. pose proof Hst as H'. vm_compute in H'. injection H' as <-.
    vm_compute in Hq. injection Hq as <- <-.
    vm_compute in H. injection H as <-.
    vm_compute in Hblk'. injection Hblk' as <-.
    eexists. split; [left|]. left. }
  exists st, r, q, st', blk, blk'.
  split; [exact Hst|]. split; [exact Hq|]. split; [exact Hc|]. split; [exact Ho|].
  split; [exact Hn|]. split; [exact Hblk|]. split; [exact Huse|]. split; [exact H|].
  split; [exact Hblk'|]. split; [|exact Hnew].
  apply (plain_request_replaces_every_use env_two r
           (mkPropState (pF st) q (visitedBBs st)) st' blk' H Hj).
  - rewrite Ho, Hn. discriminate.
  - rewrite Hc. exact Hblk'.
Defined.

(** * Live-out counting *)

Lemma liveOutOfPred_cases (env : PropEnv) (F : Function) (pred : BasicBlock) :
  (exists s, liveOutOfPred env F pred = Ret s /\ ~ unreadablePred env F pred)
  \/ (liveOutOfPred env F pred = Raise OutOfRange /\ unreadablePred env F pred).
Proof.
  unfold liveOutOfPred, unreadablePred.
  destruct (funcJunctionBBsLiveOutMap env !! pred); [left; eexists; split; [done|]; by intros (? & _)|].
  destruct (funcSaveBBsLiveOutMap env !! pred); [left; eexists; split; [done|]; by intros (_ & ? & _)|].
  destruct (funcRestoreBBsLiveOutMap env !! pred);
    [left; eexists; split; [done|]; by intros (_ & _ & ? & _)|].
  destruct (funcBBLiveValsMap env !! fhandle F) as [bbLive|]; [|by right].
  left. destruct (bbLive !! pred); eexists; (split; [done|]); by intros (_ & _ & _ & ?).
Qed.

Lemma countLiveOut_cases (env : PropEnv) (F : Function) (val : Value)
    (preds : list BasicBlock) (count : nat) :
  match countLiveOut env F val preds count with
  | Ret n => (count ≤ n ≤ count + length preds)%nat
             /\ forall pred, pred ∈ preds -> ~ unreadablePred env F pred
  | Raise e => e = OutOfRange /\ exists pred, pred ∈ preds /\ unreadablePred env F pred
  end.
Proof.
  revert count. induction preds as [|pred preds IH]; intros count; simpl.
  - split; [lia|]. intros pred Hin. by apply elem_of_nil in Hin.
  - destruct (liveOutOfPred_cases env F pred) as [(s & -> & Hs)|[-> Hu]]; simpl.
    + specialize (IH (if bool_decide (val ∈ s) then S count else count)).
      destruct (countLiveOut _ _ _ preds _) as [n|e].
      * destruct IH as [Hn Hall]. split; [case_bool_decide; lia|].
        intros p Hp. apply elem_of_cons in Hp as [->|Hp]; [done|by apply Hall].
      * destruct IH as [-> (p & Hp & Hu)]. split; [done|].
        exists p. split; [by right|done].
    + split; [done|]. exists pred. split; [by left|done].
Qed.

(** [numOfPredsWhereVarIsLiveOut] counts at most the predecessors of the
    block.  It throws, and then [std::out_of_range], exactly when the
    function has no liveness data and some predecessor is none of the
    save, restore and junction blocks. *)
Theorem numOfPredsWhereVarIsLiveOut_cases (env : PropEnv) (F : Function)
    (BB : BasicBlock) (val : Value) :
  match numOfPredsWhereVarIsLiveOut env F BB val with
  | Ret n => (n ≤ length (getBBPredecessors F BB))%nat
             /\ forall pred, pred ∈ getBBPredecessors F BB -> ~ unreadablePred env F pred
  | Raise e => e = OutOfRange
               /\ exists pred, pred ∈ getBBPredecessors F BB /\ unreadablePred env F pred
  end.
Proof.
  unfold numOfPredsWhereVarIsLiveOut.
  pose proof (countLiveOut_cases env F val (getBBPredecessors F BB) 0) as H.
  destruct (countLiveOut _ _ _ _ _); [|done]. destruct H as [H1 H2]. split; [lia|done].
Qed.

(** * The checkpoint memory argument *)

Lemma find_Some_elem {A} (P : A -> bool) (l : list A) (x : A) :
  find P l = Some x -> x ∈ l /\ P x = true.
Proof. intros H. apply find_some in H as [H1 H2]. split; [by apply list_elem_of_In|done]. Qed.

Lemma find_None_elem {A} (P : A -> bool) (l : list A) :
  find P l = None -> forall x, x ∈ l -> P x = false.
Proof. intros H x Hx. apply (find_none _ _ H). by apply list_elem_of_In. Qed.

(** [getCkptMemSegmentPtr] over the parameters of the function gives an
    argument of the function with the name asked for, and gives null only
    when no argument has that name. *)
Theorem getCkptMemSegmentPtr_spec (F : Function) (segmentName : string) :
  match getCkptMemSegmentPtr F (getFuncParams F) segmentName with
  | Some arg => arg ∈ aval <$> fargs F /\ valueName F arg = segmentName
  | None => forall a, a ∈ fargs F -> valueName F (aval a) ≠ segmentName
  end.
Proof.
  unfold getCkptMemSegmentPtr, getFuncParams.
  destruct (find _ _) as [arg|] eqn:H.
  - apply find_Some_elem in H as [Hin Hn]. apply bool_decide_eq_true_1 in Hn.
    split; [|done]. apply iterate_elem_of in Hin. by apply elem_of_list_to_set in Hin.
  - intros a Ha Hn.
    assert (Hin : aval a ∈ iterate (list_to_set (aval <$> fargs F) : gset Value)).
    { apply iterate_elem_of, elem_of_list_to_set. by apply list_elem_of_fmap_2. }
    pose proof (find_None_elem _ _ H (aval a) Hin) as Hf. simpl in Hf.
    by rewrite bool_decide_eq_true_2 in Hf.
Qed.

(** * Checkpoint ids *)

Lemma unnamed_setName (b : BasicBlock) (n : string) (F : Function) :
  unnamed (setName b n F) = unnamed F.
Proof.
  unfold unnamed, setName, updateBlock, setBlocks. simpl. f_equal.
  rewrite <- list_fmap_compose. apply list_fmap_ext. intros i blk _. simpl.
  by case_bool_decide.
Qed.

Lemma iterateMap_length {A} (m : gmap positive A) : length (iterateMap m) = size m.
Proof.
  unfold iterateMap.
  assert (H : forall l : list positive, (forall k, k ∈ l -> is_Some (m !! k)) ->
            length (omap (fun k => (fun a => (k, a)) <$> m !! k) l) = length l).
  { induction l as [|k l IH]; intros Hl; [done|]. simpl.
    destruct (Hl k ltac:(by left)) as [a Ha]. rewrite Ha. simpl. f_equal.
    apply IH. intros k' Hk'. apply Hl. by right. }
  rewrite H.
  - unfold iterate. rewrite merge_sort_Permutation.
    rewrite <- size_dom. done.
  - intros k Hk. apply iterate_elem_of in Hk. by apply elem_of_dom in Hk.
Qed.

Lemma mod256_inj (i j : nat) :
  (i < 256)%nat -> (j < 256)%nat ->
  ((Z.of_nat i + 1) `mod` 256 = (Z.of_nat j + 1) `mod` 256)%Z -> i = j.
Proof. intros Hi Hj H. Z.div_mod_to_equations. lia. Qed.

Lemma idsGiven_step (l : list (BasicBlock * CheckpointTopo)) (counter : Z)
    (ids : gmap Z CheckpointTopo) (e : BasicBlock * CheckpointTopo) :
  idsGiven l counter ids ->
  idsGiven (l ++ [e]) ((counter + 1) `mod` 256)%Z (emplace counter e.2 ids).
Proof.
  intros (Hc & Hget & Hdom & Hsize). unfold idsGiven.
  rewrite length_app. simpl.
  split.
  { rewrite Hc, Nat2Z.inj_add. simpl. Z.div_mod_to_equations. lia. }
  destruct (decide (length l < 256)%nat) as [Hlt|Hge].
  - assert (Hnone : ids !! counter = None).
    { destruct (ids !! counter) as [t|] eqn:Hk; [|done].
      destruct (Hdom counter ltac:(eauto)) as (i & Hi & Hi' & Heq).
      rewrite Hc in Heq. replace (1 + Z.of_nat (length l))%Z
        with (Z.of_nat (length l) + 1)%Z in Heq by lia.
      apply mod256_inj in Heq; [lia|done|done]. }
    unfold emplace. rewrite Hnone.
    split; [|split].
    + intros i e' Hi Hl. destruct (decide (i = length l)) as [->|Hne].
      * rewrite list_lookup_middle in Hl by done. injection Hl as <-.
        replace ((Z.of_nat (length l) + 1) `mod` 256)%Z with counter
          by (rewrite Hc; f_equal; lia).
        by rewrite lookup_insert_eq.
      * assert (Hil : (i < length l)%nat).
        { apply lookup_lt_Some in Hl. rewrite length_app in Hl. simpl in Hl. lia. }
        rewrite lookup_app_l in Hl by done.
        rewrite lookup_insert_ne; [by apply Hget|].
        rewrite Hc. replace (1 + Z.of_nat (length l))%Z
          with (Z.of_nat (length l) + 1)%Z by lia.
        intros Heq. apply mod256_inj in Heq; [lia|done|lia].
    + intros k Hk. destruct (decide (k = counter)) as [->|Hne].
      * exists (length l). split; [lia|]. split; [done|]. rewrite Hc. f_equal. lia.
      * rewrite lookup_insert_ne in Hk by done.
        destruct (Hdom k Hk) as (i & Hi & Hi' & ->). exists i. split; [lia|done].
    + rewrite map_size_insert_None by done. rewrite Hsize. lia.
  - assert (Hsome : is_Some (ids !! counter)).
    { rewrite Hc.
      pose proof (Z.mod_pos_bound (1 + Z.of_nat (length l)) 256 ltac:(lia)) as Hb.
      set (c := ((1 + Z.of_nat (length l)) `mod` 256)%Z) in *.
      set (i := Z.to_nat ((c + 255) `mod` 256)).
      pose proof (Z.mod_pos_bound (c + 255) 256 ltac:(lia)) as Hb'.
      assert (Hi : (i < 256)%nat) by (unfold i; lia).
      destruct (lookup_lt_is_Some_2 l i ltac:(lia)) as [e' He'].
      assert (Heq : ((Z.of_nat i + 1) `mod` 256 = c)%Z).
      { unfold i. rewrite Z2Nat.id by lia. Z.div_mod_to_equations. lia. }
      rewrite <- Heq, (Hget i e' Hi He'). eauto. }
    unfold emplace. destruct Hsome as [t ->].
    split; [|split].
    + intros i e' Hi Hl. rewrite lookup_app_l in Hl by lia. by apply Hget.
    + intros k Hk. destruct (Hdom k Hk) as (i & Hi & Hi' & ->). exists i. split; [lia|done].
    + rewrite Hsize. lia.
Qed.

Lemma idsGiven_nil : idsGiven [] 1 ∅.
Proof.
  unfold idsGiven. simpl. split; [done|]. split; [done|]. split; [|done].
  intros k [t Hk]. by rewrite lookup_empty in Hk.
Qed.

Lemma getCheckpointIdBBMap_loop (topoMap : gmap BasicBlock CheckpointTopo) (F : Function) :
  unnamed (getCheckpointIdBBMap topoMap F).1 = unnamed F
  /\ exists counter,
       idsGiven (iterateMap topoMap) counter (getCheckpointIdBBMap topoMap F).2.
Proof.
  unfold getCheckpointIdBBMap.
  match goal with |- context [foldl ?f _ _] => set (step := f) end.
  assert (H : forall l,
            unnamed (foldl step (F, 1%Z, ∅) l).1.1 = unnamed F
            /\ idsGiven l (foldl step (F, 1%Z, ∅) l).1.2 (foldl step (F, 1%Z, ∅) l).2).
  { induction l as [|e l IH] using rev_ind.
    - split; [done|apply idsGiven_nil].
    - rewrite foldl_app. simpl. destruct IH as [IH1 IH2].
      destruct (foldl step (F, 1%Z, ∅) l) as [[F1 c] m]. simpl in *.
      split; [by rewrite !unnamed_setName|by apply idsGiven_step]. }
  specialize (H (iterateMap topoMap)).
  destruct (foldl step (F, 1%Z, ∅) (iterateMap topoMap)) as [[F1 c] m]. simpl in *.
  destruct H as [H1 H2]. split; [done|by exists c].
Qed.

(** [getCheckpointIdBBMap] gives the checkpoints, in the order of the
    map, the ids 1, 2, ..., 255; the counter being a [uint8_t], the 256th
    checkpoint gets the id 0, and the later ones none: their [emplace]
    finds the id taken.  The function changes nothing but block names. *)
Theorem getCheckpointIdBBMap_ids (topoMap : gmap BasicBlock CheckpointTopo) (F : Function) :
  let ids := (getCheckpointIdBBMap topoMap F).2 in
  (forall i e, (i < 255)%nat -> iterateMap topoMap !! i = Some e ->
     ids !! (Z.of_nat i + 1)%Z = Some e.2)
  /\ (forall e, iterateMap topoMap !! 255%nat = Some e -> ids !! 0%Z = Some e.2)
  /\ (forall k, is_Some (ids !! k) -> (0 ≤ k < 256)%Z)
  /\ size ids = (size topoMap `min` 256)%nat
  /\ unnamed (getCheckpointIdBBMap topoMap F).1 = unnamed F.
Proof.
  intros ids. subst ids.
  destruct (getCheckpointIdBBMap_loop topoMap F) as [Hun (c & _ & Hget & Hdom & Hsize)].
  split.
  { intros i e Hi He. rewrite <- (Hget i e ltac:(lia) He). f_equal.
    symmetry. apply Z.mod_small. lia. }
  split; [intros e He; by rewrite <- (Hget 255%nat e ltac:(lia) He)|].
  split.
  { intros k Hk. destruct (Hdom k Hk) as (i & _ & _ & ->).
    apply Z.mod_pos_bound. lia. }
  split; [by rewrite Hsize, iterateMap_length|done].
Qed.

(** ** Choice by the number of tracked values *)

(** * Proofs *)

Lemma iterateMap_elem_of {A} (m : gmap positive A) (k : positive) (a : A) :
  (k, a) ∈ iterateMap m <-> m !! k = Some a.
Proof.
  unfold iterateMap. rewrite list_elem_of_omap. split.
  - intros (k' & Hk' & Heq). destruct (m !! k') as [a'|] eqn:Hm; [|done].
    simpl in Heq. by injection Heq as <- <-.
  - intros Hm. exists k. split.
    + apply iterate_elem_of. apply elem_of_dom. eauto.
    + by rewrite Hm.
Qed.

Lemma iterateMap_nil {A} (m : gmap positive A) : iterateMap m = [] <-> m = ∅.
Proof.
  split.
  - intros H. apply map_eq. intros k. rewrite lookup_empty.
    destruct (m !! k) as [a|] eqn:Hm; [|done].
    apply iterateMap_elem_of in Hm. rewrite H in Hm. by apply elem_of_nil in Hm.
  - intros ->. apply length_zero_iff_nil. by rewrite iterateMap_length, map_size_empty.
Qed.

Section Extremes.

Context {A : Type} (sz : A -> nat).

Lemma max_element_spec (l : list A) (e : A) :
  max_element (fun a b => sz a <? sz b)%nat l = Some e ->
  e ∈ l /\ forall x, x ∈ l -> (sz x ≤ sz e)%nat.
Proof.
  destruct l as [|first rest]; [done|]. simpl. intros [= <-].
  assert (H : forall acc,
            let r := foldl (fun largest x => if (sz largest <? sz x)%nat then x else largest)
                       acc rest in
            (r = acc \/ r ∈ rest) /\ (sz acc ≤ sz r)%nat
            /\ forall x, x ∈ rest -> (sz x ≤ sz r)%nat).
  { induction rest as [|y rest IH]; intros acc; simpl.
    - split; [by left|]. split; [lia|]. intros x Hx. by apply elem_of_nil in Hx.
    - destruct (IH (if (sz acc <? sz y)%nat then y else acc)) as (H1 & H2 & H3).
      split; [|split].
      + destruct H1 as [-> | H1]; [|right; by right].
        destruct (sz acc <? sz y)%nat; [right; by left|by left].
      + destruct (Nat.ltb_spec (sz acc) (sz y)); lia.
      + intros x Hx. apply elem_of_cons in Hx as [->|Hx]; [|by apply H3].
        destruct (Nat.ltb_spec (sz acc) (sz y)); lia. }
  destruct (H first) as (H1 & H2 & H3). split.
  - destruct H1 as [-> | H1]; [by left|by right].
  - intros x Hx. apply elem_of_cons in Hx as [->|Hx]; [done|by apply H3].
Qed.

Variable minValsCount : nat.

Lemma min_element_spec (l : list A) (e : A) :
  min_element (fun a b =>
      if (sz a <? minValsCount)%nat then false
      else if (sz b <? minValsCount)%nat then true
      else (sz a <? sz b)%nat) l = Some e ->
  e ∈ l
  /\ ((exists x, x ∈ l /\ (minValsCount ≤ sz x)%nat) ->
      (minValsCount ≤ sz e)%nat
      /\ forall x, x ∈ l -> (minValsCount ≤ sz x)%nat -> (sz e ≤ sz x)%nat).
Proof.
  destruct l as [|first rest]; [done|]. simpl. intros [= <-].
  set (step := fun smallest x : A =>
         if (if (sz x <? minValsCount)%nat then false
             else if (sz smallest <? minValsCount)%nat then true
             else (sz x <? sz smallest)%nat)
         then x else smallest).
  assert (H : forall acc,
            let r := foldl step acc rest in
            (r = acc \/ r ∈ rest)
            /\ ((minValsCount ≤ sz acc)%nat ->
                (minValsCount ≤ sz r ≤ sz acc)%nat)
            /\ ((minValsCount ≤ sz r)%nat ->
                forall x, x ∈ rest -> (minValsCount ≤ sz x)%nat -> (sz r ≤ sz x)%nat)
            /\ ((exists x, x ∈ rest /\ (minValsCount ≤ sz x)%nat) ->
                (minValsCount ≤ sz r)%nat)).
  { induction rest as [|y rest IH]; intros acc; simpl.
    - split; [by left|]. split; [lia|]. split.
      + intros _ x Hx. by apply elem_of_nil in Hx.
      + intros (x & Hx & _). by apply elem_of_nil in Hx.
    - destruct (IH (step acc y)) as (H1 & H2 & H3 & H4).
      assert (Hstep : (step acc y = acc \/ step acc y = y)
                /\ ((minValsCount ≤ sz acc)%nat ->
                    (minValsCount ≤ sz (step acc y) ≤ sz acc)%nat)
                /\ ((minValsCount ≤ sz y)%nat ->
                    (minValsCount ≤ sz (step acc y) ≤ sz y)%nat)).
      { unfold step.
        destruct (Nat.ltb_spec (sz y) minValsCount),
                 (Nat.ltb_spec (sz acc) minValsCount),
                 (Nat.ltb_spec (sz y) (sz acc)); (split; [auto|]); lia. }
      destruct Hstep as (S1 & S2 & S3).
      split; [|split; [|split]].
      + destruct H1 as [-> | H1]; [|right; by right].
        destruct S1 as [-> | ->]; [by left|right; by left].
      + intros Hacc. specialize (S2 Hacc). specialize (H2 ltac:(lia)). lia.
      + intros Hr x Hx Hmin. apply elem_of_cons in Hx as [->|Hx]; [|by apply H3].
        specialize (S3 Hmin). specialize (H2 ltac:(lia)). lia.
      + intros (x & Hx & Hmin). apply elem_of_cons in Hx as [->|Hx].
        * specialize (S3 Hmin). specialize (H2 ltac:(lia)). lia.
        * apply H4. eauto. }
  destruct (H first) as (H1 & H2 & H3 & H4). fold step.
  split; [destruct H1 as [-> | H1]; [by left|by right]|].
  intros (x & Hx & Hmin).
  assert (Hr : (minValsCount ≤ sz (foldl step first rest))%nat).
  { apply elem_of_cons in Hx as [->|Hx]; [by apply H2|apply H4; eauto]. }
  split; [done|]. intros y Hy Hymin.
  apply elem_of_cons in Hy as [->|Hy]; [|by apply H3]. specialize (H2 Hymin). lia.
Qed.

End Extremes.

Lemma foldl_emplace_if (P : gset Value -> bool) (b : BasicBlock) (tv : gset Value)
    (l : list (BasicBlock * gset Value)) (acc : gmap BasicBlock (gset Value)) :
  (forall x y, (b, x) ∈ l -> (b, y) ∈ l -> x = y) ->
  foldl (fun cpBBMap (entry : BasicBlock * gset Value) =>
           if P entry.2 then emplace entry.1 entry.2 cpBBMap else cpBBMap) acc l !! b
  = Some tv
  <-> acc !! b = Some tv \/ (acc !! b = None /\ (b, tv) ∈ l /\ P tv = true).
Proof.
  revert acc. induction l as [|[k x] l IH]; intros acc Huniq; simpl.
  - split; [by left|]. intros [?|(_ & H & _)]; [done|by apply elem_of_nil in H].
  - rewrite IH by (intros ? ? ? ?; apply Huniq; by right).
    destruct (P x) eqn:HP.
    + rewrite emplace_lookup. destruct (acc !! b) as [t|] eqn:Hacc.
      * split; intros [?|(? & _)]; try done; by left.
      * destruct (decide (k = b)) as [->|Hne].
        -- split.
           ++ intros [[= <-]|(? & _)]; [|done]. right. split; [done|]. split; [by left|done].
           ++ intros [?|(_ & Hin & _)]; [done|]. left. f_equal.
              apply Huniq; [by left|done].
        -- split.
           ++ intros [?|(_ & Hin & HP')]; [done|]. right. split; [done|]. split; [by right|done].
           ++ intros [?|(_ & Hin & HP')]; [done|]. right. split; [done|]. split; [|done].
              apply elem_of_cons in Hin as [[= ? ?]|Hin]; [done|done].
    + split.
      * intros [?|(Hn & Hin & HP')]; [by left|]. right. split; [done|]. split; [by right|done].
      * intros [?|(Hn & Hin & HP')]; [by left|]. right. split; [done|]. split; [|done].
        apply elem_of_cons in Hin as [[= ? ?]|Hin]; [congruence|done].
Qed.

(** [chooseBBWithLeastTrackedVals] dereferences an end iterator on an
    empty map.  On any other map it returns the blocks with the least
    number of tracked values among those that have at least
    [minValsCount] of them, each with its tracked values; the map it
    returns is empty when no block has that many. *)
Theorem chooseBBWithLeastTrackedVals_spec (bbTrackedVals : gmap BasicBlock (gset Value))
    (F : Function) (minValsCount : nat) :
  (bbTrackedVals = ∅ ->
   chooseBBWithLeastTrackedVals bbTrackedVals F minValsCount = Raise Undefined)
  /\ (bbTrackedVals ≠ ∅ ->
      exists cpBBMap,
        chooseBBWithLeastTrackedVals bbTrackedVals F minValsCount = Ret cpBBMap
        /\ forall BB trackedVals,
             cpBBMap !! BB = Some trackedVals <->
             bbTrackedVals !! BB = Some trackedVals
             /\ (minValsCount ≤ size trackedVals)%nat
             /\ forall BB' trackedVals',
                  bbTrackedVals !! BB' = Some trackedVals' ->
                  (minValsCount ≤ size trackedVals')%nat ->
                  (size trackedVals ≤ size trackedVals')%nat).
Proof.
  unfold chooseBBWithLeastTrackedVals, getMaxNumOfTrackedValsForBBs. split.
  { intros ->. by rewrite (proj2 (iterateMap_nil ∅)). }
  intros Hne.
  destruct (max_element _ (iterateMap bbTrackedVals)) as [maxElem|] eqn:Hmax.
  2:{ destruct (iterateMap bbTrackedVals) eqn:Hl; [|done].
      by apply iterateMap_nil in Hl. }
  apply (max_element_spec (fun e : BasicBlock * gset Value => size e.2)) in Hmax
    as [Hmaxin Hmaxall].
  simpl. destruct (Nat.ltb_spec (size maxElem.2) minValsCount) as [Hlt|Hge].
  { exists ∅. split; [done|]. intros BB tv. rewrite lookup_empty. split; [done|].
    intros (Hm & Hmin & _). apply iterateMap_elem_of in Hm.
    specialize (Hmaxall _ Hm). simpl in Hmaxall. lia. }
  destruct (min_element _ (iterateMap bbTrackedVals)) as [minElem|] eqn:Hmin.
  2:{ destruct (iterateMap bbTrackedVals) eqn:Hl; [|done]. by apply elem_of_nil in Hmaxin. }
  apply (min_element_spec (fun e : BasicBlock * gset Value => size e.2)) in Hmin
    as [Hminin Hminall].
  destruct Hminall as [Hm1 Hm2]; [by exists maxElem|].
  rewrite (proj2 (Nat.leb_le _ _) Hm1).
  eexists. split; [done|]. intros BB tv.
  rewrite (foldl_emplace_if (fun tv => size tv =? size minElem.2)%nat).
  2:{ intros x y Hx Hy. apply iterateMap_elem_of in Hx, Hy. congruence. }
  rewrite lookup_empty, iterateMap_elem_of, Nat.eqb_eq. split.
  - intros [?|(_ & Hm & Hsz)]; [done|]. split; [done|]. rewrite Hsz. split; [done|].
    intros BB' tv' Hm' Hmin'. apply iterateMap_elem_of in Hm'.
    by apply (Hm2 (BB', tv')).
  - intros (Hm & Hmin' & Hleast). right. split; [done|]. split; [done|].
    destruct minElem as [bmin tvmin]. simpl in *.
    pose proof Hminin as Hm0. apply iterateMap_elem_of in Hm0.
    specialize (Hleast _ _ Hm0 Hm1).
    apply iterateMap_elem_of in Hm. specialize (Hm2 (BB, tv) Hm Hmin'). simpl in Hm2. lia.
Qed.

(** ** The first pass of the file: [ModuleTransformationPass]

    Its helpers that choose the checkpoint blocks by their number of
    tracked values; [map] is the tracked-values result keyed by
    function. *)

Section EntryExtremes.

Context {A : Type} (sz : A -> nat) (isEntry : A -> bool) (minValsCount : nat).

Let comp (a b : A) : bool :=
  if isEntry a then false
  else if isEntry b then true
  else if (sz a <? minValsCount)%nat then false
  else if (sz b <? minValsCount)%nat then true
  else (sz a <? sz b)%nat.

Let step (smallest x : A) : A := if comp x smallest then x else smallest.

Lemma entry_step (acc y : A) :
  (step acc y = acc \/ step acc y = y)
  /\ (isEntry y = true -> step acc y = acc)
  /\ (isEntry y = false ->
      isEntry (step acc y) = false
      /\ ((minValsCount ≤ sz y)%nat -> (minValsCount ≤ sz (step acc y) ≤ sz y)%nat))
  /\ (isEntry acc = false ->
      isEntry (step acc y) = false
      /\ ((minValsCount ≤ sz acc)%nat -> (minValsCount ≤ sz (step acc y) ≤ sz acc)%nat)).
Proof.
  unfold step, comp.
  destruct (isEntry y) eqn:Hy, (isEntry acc) eqn:Ha,
           (Nat.ltb_spec (sz y) minValsCount),
           (Nat.ltb_spec (sz acc) minValsCount),
           (Nat.ltb_spec (sz y) (sz acc));
    repeat split; auto; try congruence; try lia.
Qed.

Lemma entry_fold (rest : list A) (acc : A) :
  let r := foldl step acc rest in
  (r = acc \/ r ∈ rest)
  /\ (isEntry acc = false ->
      isEntry r = false
      /\ ((minValsCount ≤ sz acc)%nat -> (minValsCount ≤ sz r ≤ sz acc)%nat))
  /\ ((exists x, x ∈ rest /\ isEntry x = false) -> isEntry r = false)
  /\ ((minValsCount ≤ sz r)%nat ->
      forall x, x ∈ rest -> isEntry x = false -> (minValsCount ≤ sz x)%nat ->
                (sz r ≤ sz x)%nat)
  /\ ((exists x, x ∈ rest /\ isEntry x = false /\ (minValsCount ≤ sz x)%nat) ->
      (minValsCount ≤ sz r)%nat)
  /\ ((forall x, x ∈ rest -> isEntry x = true) -> r = acc).
Proof.
  revert acc. induction rest as [|y rest IH]; intros acc; simpl.
  - split; [by left|]. split; [intros; split; [done|lia]|].
    split; [intros (x & Hx & _); by apply elem_of_nil in Hx|].
    split; [intros _ x Hx; by apply elem_of_nil in Hx|].
    split; [intros (x & Hx & _); by apply elem_of_nil in Hx|done].
  - destruct (IH (step acc y)) as (H1 & H2 & H3 & H4 & H5 & H6).
    destruct (entry_step acc y) as (S1 & S2 & S3 & S4).
    split; [|split; [|split; [|split; [|split]]]].
    + destruct H1 as [-> | H1]; [|right; by right].
      destruct S1 as [-> | ->]; [by left|right; by left].
    + intros Ha. destruct (S4 Ha) as [S4a S4b]. destruct (H2 S4a) as [H2a H2b].
      split; [done|]. intros Hacc. specialize (S4b Hacc). specialize (H2b ltac:(lia)). lia.
    + intros (x & Hx & Hxe). apply elem_of_cons in Hx as [->|Hx].
      * destruct (S3 Hxe) as [S3a _]. by destruct (H2 S3a).
      * apply H3. eauto.
    + intros Hr x Hx Hxe Hmin. apply elem_of_cons in Hx as [->|Hx]; [|by apply H4].
      destruct (S3 Hxe) as [S3a S3b]. destruct (H2 S3a) as [_ H2b].
      specialize (S3b Hmin). specialize (H2b ltac:(lia)). lia.
    + intros (x & Hx & Hxe & Hmin). apply elem_of_cons in Hx as [->|Hx].
      * destruct (S3 Hxe) as [S3a S3b]. destruct (H2 S3a) as [_ H2b].
        specialize (S3b Hmin). specialize (H2b ltac:(lia)). lia.
      * apply H5. eauto.
    + intros Hall. rewrite H6 by (intros x Hx; apply Hall; by right).
      apply S2. apply Hall. by left.
Qed.

Lemma entry_min_element (l : list A) (e : A) :
  min_element comp l = Some e ->
  e ∈ l
  /\ ((exists x, x ∈ l /\ isEntry x = false) -> isEntry e = false)
  /\ ((exists x, x ∈ l /\ isEntry x = false /\ (minValsCount ≤ sz x)%nat) ->
      (minValsCount ≤ sz e)%nat
      /\ forall x, x ∈ l -> isEntry x = false -> (minValsCount ≤ sz x)%nat ->
                   (sz e ≤ sz x)%nat)
  /\ ((forall x, x ∈ l -> isEntry x = true) -> head l = Some e).
Proof.
  destruct l as [|first rest]; [done|]. simpl. intros [= <-].
  fold step. destruct (entry_fold rest first) as (H1 & H2 & H3 & H4 & H5 & H6).
  split; [destruct H1 as [-> | H1]; [by left|by right]|].
  split.
  { intros (x & Hx & Hxe). apply elem_of_cons in Hx as [->|Hx].
    - by destruct (H2 Hxe).
    - apply H3. eauto. }
  split.
  { intros (x & Hx & Hxe & Hmin).
    assert (Hr : (minValsCount ≤ sz (foldl step first rest))%nat).
    { apply elem_of_cons in Hx as [->|Hx].
      - destruct (H2 Hxe) as [_ H2b]. specialize (H2b Hmin). lia.
      - apply H5. eauto. }
    split; [done|]. intros y Hy Hye Hymin.
    apply elem_of_cons in Hy as [->|Hy]; [|by apply H4].
    destruct (H2 Hye) as [_ H2b]. specialize (H2b Hymin). lia. }
  intros Hall. f_equal. symmetry. apply H6. intros x Hx. apply Hall. by right.
Qed.

End EntryExtremes.

(** The chooser of the first pass, on a function that has tracked-values
    data for some block.  The comparison is written to ignore the entry
    block, but only the search for the least count does: the blocks
    returned are all those that have the least count found among the
    other blocks, the entry block too when it has that count; and when
    the entry block is the only block with data, it is returned. *)
Theorem first_pass_chooseBBWithLeastTrackedVals_spec
    (map : gmap positive (gmap BasicBlock (gset Value))) (F : Function)
    (minValsCount : nat) (bbTrackedVals : gmap BasicBlock (gset Value)) :
  map !! fhandle F = Some bbTrackedVals ->
  bbTrackedVals ≠ ∅ ->
  let entryBB := bid <$> head (blocks F) in
  exists cpBBMap,
    ModuleTransformationPass.chooseBBWithLeastTrackedVals map F minValsCount = Ret cpBBMap
    /\ (forall least, leastCount bbTrackedVals entryBB minValsCount least ->
          forall BB trackedVals,
            cpBBMap !! BB = Some trackedVals <->
            bbTrackedVals !! BB = Some trackedVals /\ size trackedVals = least)
    /\ ((forall least, ~ leastCount bbTrackedVals entryBB minValsCount least) ->
        (exists BB, entryBB ≠ Some BB /\ is_Some (bbTrackedVals !! BB)) ->
        cpBBMap = ∅)
    /\ (forall BB trackedVals,
          bbTrackedVals = {[BB := trackedVals]} -> entryBB = Some BB ->
          cpBBMap = if (minValsCount <=? size trackedVals)%nat then bbTrackedVals else ∅).
Proof.
  intros Hmap Hne entryBB.
  unfold ModuleTransformationPass.chooseBBWithLeastTrackedVals,
    ModuleTransformationPass.getMaxNumOfTrackedValsForBBsInFunc.
  rewrite Hmap.
  assert (HisEntry : forall x : BasicBlock * gset Value,
            isEntryBlock F x.1 = false <-> entryBB ≠ Some x.1).
  { intros x. unfold isEntryBlock. fold entryBB. by rewrite bool_decide_eq_false. }
  destruct (max_element _ (iterateMap bbTrackedVals)) as [maxElem|] eqn:Hmax.
  2:{ destruct (iterateMap bbTrackedVals) eqn:Hl; [|done]. by apply iterateMap_nil in Hl. }
  apply (max_element_spec (fun e : BasicBlock * gset Value => size e.2)) in Hmax
    as [Hmaxin Hmaxall].
  simpl. destruct (Nat.ltb_spec (size maxElem.2) minValsCount) as [Hlt|Hge].
  { exists ∅. split; [done|]. split; [|split; [done|]].
    - intros least ((BB0 & tv0 & _ & Hm0 & Hsz0) & Hmin & _).
      apply iterateMap_elem_of in Hm0. specialize (Hmaxall _ Hm0). simpl in Hmaxall. lia.
    - intros BB tv -> _. rewrite iterateMap_singleton in Hmaxin.
      apply list_elem_of_singleton in Hmaxin. subst maxElem. simpl in Hlt.
      by rewrite (proj2 (Nat.leb_gt _ _) Hlt). }
  destruct (min_element _ (iterateMap bbTrackedVals)) as [minElem|] eqn:Hmin.
  2:{ destruct (iterateMap bbTrackedVals) eqn:Hl; [|done]. by apply elem_of_nil in Hmaxin. }
  apply (entry_min_element (fun e : BasicBlock * gset Value => size e.2)
           (fun e : BasicBlock * gset Value => isEntryBlock F e.1)) in Hmin
    as (Hminin & Hnonentry & Hleast & Honly).
  assert (Hfold : forall BB tv,
            foldl (fun cpBBMap (entry : BasicBlock * gset Value) =>
                     if (size entry.2 =? size minElem.2)%nat
                     then emplace entry.1 entry.2 cpBBMap else cpBBMap)
                  ∅ (iterateMap bbTrackedVals) !! BB = Some tv
            <-> bbTrackedVals !! BB = Some tv /\ size tv = size minElem.2).
  { intros BB tv.
    rewrite (foldl_emplace_if (fun tv => size tv =? size minElem.2)%nat).
    2:{ intros x y Hx Hy. apply iterateMap_elem_of in Hx, Hy. congruence. }
    rewrite lookup_empty, iterateMap_elem_of, Nat.eqb_eq. split.
    - by intros [?|(_ & ? & ?)].
    - intros [? ?]. by right. }
  destruct minElem as [bmin tvmin]. simpl in *.
  pose proof Hminin as Hmmin. apply iterateMap_elem_of in Hmmin.
  destruct (Nat.leb_spec minValsCount (size tvmin)) as [Hle|Hgt].
  - eexists. split; [done|]. split; [|split].
    + intros least ((BB0 & tv0 & Hne0 & Hm0 & Hsz0) & Hminl & Hall) BB tv.
      rewrite Hfold.
      assert (Hq : exists x : BasicBlock * gset Value,
                x ∈ iterateMap bbTrackedVals /\ isEntryBlock F x.1 = false
                /\ (minValsCount ≤ size x.2)%nat).
      { exists (BB0, tv0). split; [by apply iterateMap_elem_of|].
        split; [by apply HisEntry|simpl; lia]. }
      destruct (Hleast Hq) as [_ Hleast'].
      assert (Hbmin : entryBB ≠ Some bmin).
      { apply (HisEntry (bmin, tvmin)). apply Hnonentry.
        destruct Hq as (x & Hx & Hxe & _). eauto. }
      assert (size tvmin = least).
      { apply Nat.le_antisymm.
        - specialize (Hleast' (BB0, tv0)). simpl in Hleast'. rewrite <- Hsz0.
          apply Hleast'; [by apply iterateMap_elem_of|by apply (HisEntry (BB0, tv0))|lia].
        - by apply (Hall bmin tvmin). }
      rewrite H. reflexivity.
    + intros Hnone (BB0 & Hne0 & [tv0 Hm0]). exfalso.
      assert (Hbmin : entryBB ≠ Some bmin).
      { apply (HisEntry (bmin, tvmin)). apply Hnonentry.
        exists (BB0, tv0). split; [by apply iterateMap_elem_of|by apply HisEntry]. }
      apply (Hnone (size tvmin)). split; [by exists bmin, tvmin|]. split; [done|].
      intros BB tv HBB Hm Hmin'.
      assert (Hq : exists x : BasicBlock * gset Value,
                x ∈ iterateMap bbTrackedVals /\ isEntryBlock F x.1 = false
                /\ (minValsCount ≤ size x.2)%nat).
      { exists (BB, tv). split; [by apply iterateMap_elem_of|].
        split; [by apply HisEntry|done]. }
      destruct (Hleast Hq) as [_ Hleast'].
      apply (Hleast' (BB, tv)); [by apply iterateMap_elem_of|by apply (HisEntry (BB, tv))|done].
    + intros BB tv -> Hentry. rewrite iterateMap_singleton in *.
      apply list_elem_of_singleton in Hminin. injection Hminin as -> ->.
      rewrite (proj2 (Nat.leb_le _ _) Hle). simpl. rewrite Nat.eqb_refl.
      unfold emplace. by rewrite lookup_empty.
  - exists ∅. split; [done|]. split; [|split; [done|]].
    + intros least ((BB0 & tv0 & Hne0 & Hm0 & Hsz0) & Hminl & Hall). exfalso.
      assert (Hq : exists x : BasicBlock * gset Value,
                x ∈ iterateMap bbTrackedVals /\ isEntryBlock F x.1 = false
                /\ (minValsCount ≤ size x.2)%nat).
      { exists (BB0, tv0). split; [by apply iterateMap_elem_of|].
        split; [by apply HisEntry|simpl; lia]. }
      destruct (Hleast Hq) as [? _]. lia.
    + intros BB tv -> Hentry. rewrite iterateMap_singleton in *.
      apply list_elem_of_singleton in Hminin. injection Hminin as -> ->.
      by rewrite (proj2 (Nat.leb_gt _ _) Hgt).
Qed.

(** [getCmpInstForCondiBrInst] looks at the instruction just before the
    branch and at no other: it returns it when it is the compare that
    gives the condition, returns null when the branch is alone in its
    block, and otherwise its loop never ends. *)
Theorem getCmpInstForCondiBrInst_spec (fuel : nat) (blk : Block) (condition : Operand) :
  head (operands (term blk)) = Some condition ->
  getCmpInstForCondiBrInst (S fuel) blk =
  match last (body blk) with
  | None => Ret None
  | Some instr =>
      if isCmpInst instr && bool_decide (OVal (result instr) = condition)
      then Ret (Some instr)
      else Raise OutOfFuel
  end.
Proof.
  intros Hc. induction fuel as [|fuel IH].
  - simpl. rewrite Hc. destruct (last (body blk)) as [instr|]; [|done].
    by destruct (isCmpInst instr && _).
  - change (getCmpInstForCondiBrInst (S (S fuel)) blk) with
      (match head (operands (term blk)) with
       | None => Raise Undefined
       | Some condition =>
           match last (body blk) with
           | None => Ret None
           | Some instr =>
               if isCmpInst instr && bool_decide (OVal (result instr) = condition)
               then Ret (Some instr)
               else getCmpInstForCondiBrInst (S fuel) blk
           end
       end).
    rewrite Hc, IH. destruct (last (body blk)) as [instr|]; [|done].
    by destruct (isCmpInst instr && _).
Qed.

Lemma getCmpInstForCondiBrInst_spec_witness :
  getCmpInstForCondiBrInst 8
    (mkBlock 1 "entry" [mkInst 21 "c" Int32Ty (OtherOp "icmp") [OVal 2; OConst Int32Ty 0];
                        mkInst 20 "v" Int32Ty Add [OVal 2; OConst Int32Ty 1]]
             (condbr 31 21 [2; 6]))
  = Raise OutOfFuel.
Proof.
  rewrite (getCmpInstForCondiBrInst_spec 7 _ (OVal 21)); reflexivity.
Defined.

(** * The inputs binder, per module *)

Lemma getFuncValuePtrsMap_fold (jsonMap : gmap string (gmap string (gset string)))
    (M : Module) (acc : gmap positive (gmap string Operand)) (h : positive) :
  foldl (fun funcValuePtrsMap F =>
           match jsonMap !! ("@" +:+ fname F) with
           | None => funcValuePtrsMap
           | Some _ => emplace (fhandle F) (valuePtrsOfFunction F) funcValuePtrsMap
           end) acc M !! h
  = match acc !! h with
    | Some x => Some x
    | None =>
        valuePtrsOfFunction <$>
        find (fun F => bool_decide (fhandle F = h)
                       && bool_decide (is_Some (jsonMap !! ("@" +:+ fname F)))) M
    end.
Proof.
  revert acc. induction M as [|F M IH]; intros acc; simpl.
  - by destruct (acc !! h).
  - rewrite IH. destruct (jsonMap !! ("@" +:+ fname F)) as [j|] eqn:Hj.
    + rewrite emplace_lookup. destruct (acc !! h); [done|].
      rewrite (bool_decide_eq_true_2 (is_Some (Some j))) by eauto.
      rewrite andb_true_r. case_decide.
      * by rewrite bool_decide_eq_true_2.
      * by rewrite bool_decide_eq_false_2.
    + destruct (acc !! h); [done|].
      rewrite (bool_decide_eq_false_2 (is_Some None)) by (by intros [? ?]).
      by rewrite andb_false_r.
Qed.

(** [getFuncValuePtrsMap] binds the functions of the module that have an
    entry in the JSON under their printed name, and no other: a function
    without JSON data has no values map, and a handle that is no function
    of the module has none either. *)
Theorem getFuncValuePtrsMap_spec (M : Module)
    (jsonMap : gmap string (gmap string (gset string))) :
  NoDup (fhandle <$> M) ->
  (forall F, F ∈ M ->
     getFuncValuePtrsMap M jsonMap !! fhandle F =
     if bool_decide (is_Some (jsonMap !! ("@" +:+ fname F)))
     then Some (valuePtrsOfFunction F) else None)
  /\ (forall h, is_Some (getFuncValuePtrsMap M jsonMap !! h) -> h ∈ fhandle <$> M).
Proof.
  intros Hnd. unfold getFuncValuePtrsMap. split.
  - intros F HF. rewrite getFuncValuePtrsMap_fold, lookup_empty.
    induction M as [|G M IH]; [by apply elem_of_nil in HF|].
    rewrite fmap_cons in Hnd. apply NoDup_cons in Hnd as [HG Hnd]. simpl.
    apply elem_of_cons in HF as [->|HF].
    + rewrite bool_decide_eq_true_2 by done. simpl.
      case_bool_decide as Hj; [done|]. simpl.
      destruct (find _ M) as [F'|] eqn:Hfind; [|done]. exfalso.
      apply find_Some_elem in Hfind as [Hin HP]. apply andb_true_iff in HP as [HP _].
      apply bool_decide_eq_true_1 in HP. apply HG. rewrite <- HP.
      by apply list_elem_of_fmap_2.
    + rewrite bool_decide_eq_false_2; [by apply IH|].
      intros Heq. apply HG. rewrite Heq. by apply list_elem_of_fmap_2.
  - intros h [x Hx]. rewrite getFuncValuePtrsMap_fold, lookup_empty in Hx.
    destruct (find _ M) as [F|] eqn:Hfind; [|done].
    apply find_Some_elem in Hfind as [Hin HP]. apply andb_true_iff in HP as [HP _].
    apply bool_decide_eq_true_1 in HP. rewrite <- HP. by apply list_elem_of_fmap_2.
Qed.

Lemma getFuncValuePtrsMap_spec_witness :
  NoDup (fhandle <$> [F_two; F_odr])
  /\ getFuncValuePtrsMap [F_two; F_odr] {[ "@h" := ∅ ]} !! fhandle F_odr = None.
Proof.
  assert (H : NoDup (fhandle <$> [F_two; F_odr])).
  { apply (bool_decide_unpack _). vm_compute. exact I. }
  split; [exact H|].
  rewrite (proj1 (getFuncValuePtrsMap_spec [F_two; F_odr] {[ "@h" := ∅ ]} H) F_odr).
  - vm_compute. reflexivity.
  - right. left.
Defined.

(** * Steps that keep the control flow *)

Lemma sameControlFlow_updateBlock (b : BasicBlock) (f : Block -> Block) (F : Function) :
  (forall blk, bid (f blk) = bid blk) ->
  (forall blk, successors (f blk) = successors blk) ->
  sameControlFlow F (updateBlock b f F).
Proof.
  intros Hbid Hsucc. unfold sameControlFlow.
  split.
  { unfold updateBlock. simpl. rewrite <- list_fmap_compose.
    apply list_fmap_ext. intros i blk _. simpl. by case_bool_decide. }
  split; [|by repeat split].
  intros b'. unfold getBBSuccessors. rewrite getBlock_updateBlock by done.
  case_decide; [|done]. destruct (getBlock F b'); [|done]. simpl. apply Hsucc.
Qed.

Lemma sameControlFlow_bumpValue (F : Function) : sameControlFlow F (bumpValue F).
Proof. by repeat split. Qed.

Lemma sameControlFlow_setName (b : BasicBlock) (n : string) (F : Function) :
  sameControlFlow F (setName b n F).
Proof. by apply sameControlFlow_updateBlock. Qed.

Lemma sameControlFlow_createBeforeTerminator (b : BasicBlock) (name : string) (ty : Ty)
    (opc : Opcode) (ops : list Operand) (F : Function) :
  sameControlFlow F (createBeforeTerminator b name ty opc ops F).2.
Proof.
  unfold createBeforeTerminator, insertBeforeTerminator. simpl.
  eapply sameControlFlow_trans; [apply sameControlFlow_bumpValue|].
  by apply sameControlFlow_updateBlock.
Qed.

Lemma sameControlFlow_createSlotPtr (b : BasicBlock) (name : string) (c : Value)
    (index : Z) (F : Function) :
  sameControlFlow F (createSlotPtr b name c index F).2.
Proof. apply sameControlFlow_createBeforeTerminator. Qed.

Lemma sameControlFlow_insertBeforeTerminator (b : BasicBlock) (i : Instruction)
    (F : Function) :
  sameControlFlow F (insertBeforeTerminator b i F).
Proof. by apply sameControlFlow_updateBlock. Qed.

Ltac same_cf :=
  repeat match goal with
         | |- sameControlFlow ?F ?F => apply sameControlFlow_refl
         | |- sameControlFlow _ (insertBeforeTerminator ?b ?i ?G) =>
             apply (sameControlFlow_trans _ G);
             [|apply sameControlFlow_insertBeforeTerminator]
         | |- sameControlFlow _ (bumpValue ?G) =>
             apply (sameControlFlow_trans _ G); [|apply sameControlFlow_bumpValue]
         | |- sameControlFlow _ (setName ?b ?n ?G) =>
             apply (sameControlFlow_trans _ G); [|apply sameControlFlow_setName]
         end.

(** What one tracked value adds to the record of the marshaller. *)
Lemma marshalValue_record (ckptMem : Value) (saveBB restoreBB junctionBB : BasicBlock)
    (v : Value) (m : MarshalState) :
  let m' := marshalValue ckptMem saveBB restoreBB junctionBB v m in
  sameControlFlow (mF m) (mF m')
  /\ saveBBLiveOutSet m' = saveBBLiveOutSet m ∪ {[v]}
  /\ restoreBBLiveOutSet m' = restoreBBLiveOutSet m ∪ {[v]}
  /\ junctionBBLiveOutSet m' = junctionBBLiveOutSet m ∪ {[v]}
  /\ dom (trackedValPhiValMap m') = dom (trackedValPhiValMap m) ∪ {[v]}
  /\ valMemSegIndex m' = (valMemSegIndex m + 1)%Z
  /\ (forall b, b ≠ saveBB -> b ≠ restoreBB -> b ≠ junctionBB ->
        getBlock (mF m') b = getBlock (mF m) b).
Proof.
  unfold marshalValue, createSlotPtr.
  destruct (isPointerTy (getType (mF m) v)); simpl.
  all: split; [same_cf|].
  all: split; [reflexivity|]; split; [reflexivity|]; split; [reflexivity|].
  all: split; [by rewrite dom_insert_L, (comm_L (∪))|]; split; [reflexivity|].
  all: intros b Hs Hr Hj.
  all: repeat match goal with
              | |- getBlock (insertBeforeTerminator _ _ _) _ = _ =>
                  rewrite getBlock_insertBeforeTerminator, decide_False by assumption
              | |- getBlock (bumpValue ?G) ?x = ?rhs => change (getBlock G x = rhs)
              end.
  all: reflexivity.
Qed.

(** The junction phi that one tracked value is given: it is the last
    instruction the marshaller makes for the value. *)
Lemma marshalValue_phi (ckptMem : Value) (saveBB restoreBB junctionBB : BasicBlock)
    (v : Value) (m : MarshalState) :
  saveBB ≠ restoreBB -> saveBB ≠ junctionBB -> restoreBB ≠ junctionBB ->
  hasBlock (mF m) saveBB -> hasBlock (mF m) restoreBB -> hasBlock (mF m) junctionBB ->
  let m' := marshalValue ckptMem saveBB restoreBB junctionBB v m in
  exists phi restoredVal inst restoreInst more moreR,
    trackedValPhiValMap m' = <[v := phi]> (trackedValPhiValMap m)
    /\ bodyOf (mF m') junctionBB = bodyOf (mF m) junctionBB ++ [inst]
    /\ bodyOf (mF m') restoreBB = bodyOf (mF m) restoreBB ++ more ++ restoreInst :: moreR
    /\ result inst = phi
    /\ opcode inst = PHI [saveBB; restoreBB]
    /\ operands inst = [OVal v; OVal restoredVal]
    /\ result restoreInst = restoredVal
    /\ hasBlock (mF m') saveBB /\ hasBlock (mF m') restoreBB /\ hasBlock (mF m') junctionBB.
Proof.
  intros Hsr Hsj Hrj Hs Hr Hj m'.
  destruct (marshalValue_bodies ckptMem saveBB restoreBB junctionBB v m Hsr Hsj Hrj Hs Hr Hj)
    as (_ & Hs' & Hr' & Hj' & _ & _ & Hbodies).
  fold m' in Hs', Hr', Hj', Hbodies.
  assert (Hmap : trackedValPhiValMap m'
                 = <[v := if isPointerTy (getType (mF m) v)
                          then Pos.succ (Pos.succ (Pos.succ (Pos.succ (Pos.succ (Pos.succ
                                 (Pos.succ (nextValue (mF m))))))))
                          else Pos.succ (Pos.succ (Pos.succ (Pos.succ (nextValue (mF m)))))]>
                     (trackedValPhiValMap m)).
  { subst m'. unfold marshalValue, createSlotPtr, createBeforeTerminator.
    by destruct (isPointerTy (getType (mF m) v)). }
  destruct (isPointerTy (getType (mF m) v)).
  - destruct Hbodies as (_ & _ & HR & HJ).
    eexists _, _, _, _, [_; _], [_].
    split; [exact Hmap|]. split; [exact HJ|]. split; [exact HR|].
    by repeat split.
  - destruct Hbodies as (_ & _ & HR & HJ).
    eexists _, _, _, _, [_], [].
    split; [exact Hmap|]. split; [exact HJ|]. split; [exact HR|].
    by repeat split.
Qed.

(** The marshaller records every tracked value, and nothing else, as
    live-out of the save, restore and junction blocks, and gives every
    tracked value a junction phi, so that the lookup of step 3.4 finds
    one; it uses one slot per tracked value; it keeps the control flow of
    the function and touches no block other than the three.  When the
    three blocks are distinct blocks of the function, as the surgeon
    leaves them, the value recorded for a tracked value is the result of
    a phi of the junction block that merges the tracked value, from the
    save block, with a value made in the restore block. *)
Theorem populateSaveAndRestoreBB_record (ckptMem : Value)
    (saveBB restoreBB junctionBB : BasicBlock) (trackedVals : gset Value) (F : Function) :
  let m := populateSaveAndRestoreBB ckptMem saveBB restoreBB junctionBB trackedVals F in
  saveBBLiveOutSet m = trackedVals
  /\ restoreBBLiveOutSet m = trackedVals
  /\ junctionBBLiveOutSet m = trackedVals
  /\ dom (trackedValPhiValMap m) = trackedVals
  /\ valMemSegIndex m = (VALUES_START + Z.of_nat (size trackedVals))%Z
  /\ sameControlFlow F (mF m)
  /\ (forall b, b ≠ saveBB -> b ≠ restoreBB -> b ≠ junctionBB ->
        getBlock (mF m) b = getBlock F b)
  /\ (saveBB ≠ restoreBB -> saveBB ≠ junctionBB -> restoreBB ≠ junctionBB ->
      hasBlock F saveBB -> hasBlock F restoreBB -> hasBlock F junctionBB ->
      forall v phi, trackedValPhiValMap m !! v = Some phi ->
        exists inst restoredVal restoreInst,
          inst ∈ bodyOf (mF m) junctionBB
          /\ result inst = phi
          /\ opcode inst = PHI [saveBB; restoreBB]
          /\ operands inst = [OVal v; OVal restoredVal]
          /\ restoreInst ∈ bodyOf (mF m) restoreBB
          /\ result restoreInst = restoredVal).
Proof.
  unfold populateSaveAndRestoreBB.
  assert (H : forall l : list Value,
    let m := foldl (fun m trackedVal =>
                      marshalValue ckptMem saveBB restoreBB junctionBB trackedVal m)
                   (mkMarshal F VALUES_START ∅ ∅ ∅ ∅) l in
    saveBBLiveOutSet m = list_to_set l
    /\ restoreBBLiveOutSet m = list_to_set l
    /\ junctionBBLiveOutSet m = list_to_set l
    /\ dom (trackedValPhiValMap m) = list_to_set l
    /\ valMemSegIndex m = (VALUES_START + Z.of_nat (length l))%Z
    /\ sameControlFlow F (mF m)
    /\ (forall b, b ≠ saveBB -> b ≠ restoreBB -> b ≠ junctionBB ->
          getBlock (mF m) b = getBlock F b)).
  { induction l as [|v l IH] using rev_ind.
    - simpl. rewrite dom_empty_L. repeat split; try done.
    - rewrite foldl_app. simpl.
      destruct IH as (I1 & I2 & I3 & I4 & I5 & I6 & I7).
      destruct (marshalValue_record ckptMem saveBB restoreBB junctionBB v
                  (foldl (fun m trackedVal =>
                            marshalValue ckptMem saveBB restoreBB junctionBB trackedVal m)
                         (mkMarshal F VALUES_START ∅ ∅ ∅ ∅) l))
        as (M1 & M2 & M3 & M4 & M5 & M6 & M7).
      rewrite M2, M3, M4, M5, M6, I1, I2, I3, I4, I5.
      rewrite list_to_set_app_L, length_app. simpl. rewrite (right_id_L ∅ (∪)).
      split; [done|]. split; [done|]. split; [done|]. split; [done|].
      split; [lia|]. split; [by eapply sameControlFlow_trans|].
      intros b Hs Hr Hj. by rewrite M7, I7. }
  assert (Hphi : saveBB ≠ restoreBB -> saveBB ≠ junctionBB -> restoreBB ≠ junctionBB ->
    hasBlock F saveBB -> hasBlock F restoreBB -> hasBlock F junctionBB ->
    forall l : list Value,
    let m := foldl (fun m trackedVal =>
                      marshalValue ckptMem saveBB restoreBB junctionBB trackedVal m)
                   (mkMarshal F VALUES_START ∅ ∅ ∅ ∅) l in
    hasBlock (mF m) saveBB /\ hasBlock (mF m) restoreBB /\ hasBlock (mF m) junctionBB
    /\ forall v phi, trackedValPhiValMap m !! v = Some phi ->
         exists inst restoredVal restoreInst,
           inst ∈ bodyOf (mF m) junctionBB
           /\ result inst = phi
           /\ opcode inst = PHI [saveBB; restoreBB]
           /\ operands inst = [OVal v; OVal restoredVal]
           /\ restoreInst ∈ bodyOf (mF m) restoreBB
           /\ result restoreInst = restoredVal).
  { intros Hsr Hsj Hrj Hs Hr Hj. induction l as [|u l IH] using rev_ind.
    - simpl. split; [done|]. split; [done|]. split; [done|].
      intros v phi Hv. by rewrite lookup_empty in Hv.
    - rewrite foldl_app. cbn [foldl].
      destruct IH as (Js & Jr & Jj & IH).
      destruct (marshalValue_phi ckptMem saveBB restoreBB junctionBB u
                  (foldl (fun m trackedVal =>
                            marshalValue ckptMem saveBB restoreBB junctionBB trackedVal m)
                         (mkMarshal F VALUES_START ∅ ∅ ∅ ∅) l) Hsr Hsj Hrj Js Jr Jj)
        as (phi0 & rv0 & inst0 & ri0 & more & moreR & Hmap & HJ & HR & P1 & P2 & P3 & P4
            & Ks & Kr & Kj).
      cbv zeta. split; [exact Ks|]. split; [exact Kr|]. split; [exact Kj|].
      intros v phi Hv. rewrite Hmap in Hv. rewrite HJ, HR.
      destruct (decide (u = v)) as [->|Hne].
      + rewrite lookup_insert_eq in Hv. injection Hv as <-.
        exists inst0, rv0, ri0. split; [apply elem_of_app; right; by left|].
        split; [done|]. split; [done|]. split; [done|]. split; [|done].
        apply elem_of_app. right. apply elem_of_app. right. by left.
      + rewrite lookup_insert_ne in Hv by done.
        destruct (IH v phi Hv) as (inst & rv & ri & Q1 & Q2 & Q3 & Q4 & Q5 & Q6).
        exists inst, rv, ri. split; [apply elem_of_app; by left|].
        split; [done|]. split; [done|]. split; [done|]. split; [|done].
        apply elem_of_app. by left. }
  destruct (H (iterate trackedVals)) as (I1 & I2 & I3 & I4 & I5 & I6 & I7).
  assert (Hset : list_to_set (iterate trackedVals) = trackedVals).
  { apply set_eq. intros x. by rewrite elem_of_list_to_set, iterate_elem_of. }
  assert (Hlen : length (iterate trackedVals) = size trackedVals).
  { unfold iterate. by rewrite merge_sort_Permutation. }
  cbv zeta. rewrite I1, I2, I3, I4, I5, Hset, Hlen.
  split; [done|]. split; [done|]. split; [done|]. split; [done|]. split; [done|].
  split; [exact I6|]. split; [exact I7|].
  intros Hsr Hsj Hrj Hs Hr Hj.
  exact (proj2 (proj2 (proj2 (Hphi Hsr Hsj Hrj Hs Hr Hj (iterate trackedVals))))).
Qed.

Lemma populateSaveAndRestoreBB_record_witness :
  let m := populateSaveAndRestoreBB 1 101 103 102 {[2; 20]} F_marshal in
  exists phi inst restoredVal restoreInst,
    trackedValPhiValMap m !! 20 = Some phi
    /\ inst ∈ bodyOf (mF m) 102
    /\ result inst = phi
    /\ opcode inst = PHI [101; 103]
    /\ operands inst = [OVal 20; OVal restoredVal]
    /\ restoreInst ∈ bodyOf (mF m) 103
    /\ result restoreInst = restoredVal.
Proof.
  intros m.
  assert (Hphi : { phi | trackedValPhiValMap m !! 20 = Some phi }).
  { eexists. vm_compute. reflexivity. }
  destruct Hphi as [phi Hphi].
  destruct (populateSaveAndRestoreBB_record 1 101 103 102 {[2; 20]} F_marshal)
    as (_ & _ & _ & _ & _ & _ & _ & H).
  destruct (H ltac:(done) ltac:(done) ltac:(done)
              ltac:(vm_compute; eauto) ltac:(vm_compute; eauto) ltac:(vm_compute; eauto)
              20 phi Hphi)
    as (inst & restoredVal & restoreInst & H1 & H2 & H3 & H4 & H5 & H6).
  exists phi, inst, restoredVal, restoreInst. by repeat split.
Defined.

(** ** Well-formed handles *)

(** * Splitting *)

Lemma wellFormed_blockAdded (F F' : Function) (BB New : BasicBlock) :
  wellFormed F -> blockAdded F F' BB New -> wellFormed F'.
Proof.
  intros [Hnd Hlt] (-> & Hnb & Hperm & _). split.
  - rewrite Hperm. apply NoDup_cons. split; [|done].
    intros Hin. apply Hlt in Hin. lia.
  - intros b Hb. rewrite Hperm in Hb. rewrite Hnb.
    apply elem_of_cons in Hb as [->|Hb]; [lia|]. apply Hlt in Hb. lia.
Qed.

Lemma wellFormed_sameControlFlow (F F' : Function) :
  wellFormed F -> sameControlFlow F F' -> wellFormed F'.
Proof.
  intros [Hnd Hlt] (Hb & _ & Hnb & _). split; [by rewrite Hb|].
  intros b. rewrite Hb, Hnb. apply Hlt.
Qed.

Lemma blockAdded_sameControlFlow (F F' F'' : Function) (BB New : BasicBlock) :
  blockAdded F F' BB New -> sameControlFlow F' F'' -> blockAdded F F'' BB New.
Proof.
  intros (H1 & H2 & H3 & H4 & H5 & H6 & H7 & H8) (S1 & S2 & S3 & S4 & S5 & S6 & S7).
  unfold blockAdded. rewrite S1, S3, S4, S5, S6, S7.
  repeat split; try done. intros b Hb Hn. rewrite S2. by apply H4.
Qed.

Section SplitBids.

Variables (BB New : BasicBlock) (keep split : Block -> Block) (newBlk : Block).
Hypothesis Hkeep : forall blk, bid (keep blk) = bid blk.
Hypothesis Hsplit : forall blk, bid (split blk) = bid blk.
Hypothesis Hnew : bid newBlk = New.

Let splitBlocks (bs : list Block) : list Block :=
  bs ≫= (fun blk => if bool_decide (bid blk = BB) then [split blk; newBlk] else [keep blk]).

Lemma bids_split_absent (bs : list Block) :
  BB ∉ bid <$> bs -> bid <$> splitBlocks bs = bid <$> bs.
Proof.
  unfold splitBlocks. induction bs as [|blk bs IH]; intros Hnot; [done|].
  rewrite fmap_cons in Hnot. apply not_elem_of_cons in Hnot as [Hne Hnot].
  rewrite bind_cons, bool_decide_eq_false_2 by congruence.
  rewrite fmap_app, !fmap_cons, Hkeep, IH by done. done.
Qed.

Lemma bids_split_present (bs : list Block) :
  NoDup (bid <$> bs) -> BB ∈ bid <$> bs ->
  bid <$> splitBlocks bs ≡ₚ New :: (bid <$> bs).
Proof.
  unfold splitBlocks. induction bs as [|blk bs IH]; intros Hnd Hin.
  - by apply elem_of_nil in Hin.
  - rewrite fmap_cons in Hnd, Hin. apply NoDup_cons in Hnd as [Hblk Hnd].
    rewrite bind_cons. destruct (decide (bid blk = BB)) as [Heq|Hne].
    + rewrite bool_decide_eq_true_2 by done.
      rewrite fmap_app, !fmap_cons, Hsplit, Hnew. fold (splitBlocks bs).
      rewrite bids_split_absent by congruence. simpl. apply perm_swap.
    + rewrite bool_decide_eq_false_2 by done.
      rewrite fmap_app, !fmap_cons, Hkeep.
      apply elem_of_cons in Hin as [Heq|Hin]; [congruence|].
      rewrite (IH Hnd Hin). simpl. apply perm_swap.
Qed.

End SplitBids.

Lemma getBlock_elem (F : Function) (b : BasicBlock) :
  is_Some (getBlock F b) <-> b ∈ bid <$> blocks F.
Proof.
  split.
  - intros [blk H]. by eapply getBlock_elem_of.
  - intros H. apply list_elem_of_fmap in H as (blk & -> & Hin).
    unfold getBlock. destruct (find _ (blocks F)) eqn:Hf; [eauto|].
    apply (find_None_elem _ _ Hf) in Hin. by rewrite bool_decide_eq_true_2 in Hin.
Qed.

(** [SplitBlock] at the terminator, as LLVM does it. *)
Lemma llvm_SplitBlock_blockAdded (F : Function) (BB : BasicBlock) (Old : Block) :
  wellFormed F -> getBlock F BB = Some Old ->
  exists F',
    llvm_SplitBlock F BB = Some (F', nextBlock F)
    /\ blockAdded F F' BB (nextBlock F)
    /\ getBBSuccessors F' BB = [nextBlock F]
    /\ getBBSuccessors F' (nextBlock F) = successors Old.
Proof.
  intros [Hnd Hlt] Hg. unfold llvm_SplitBlock. rewrite Hg.
  eexists. split; [reflexivity|].
  assert (HBB : BB ∈ bid <$> blocks F) by (apply getBlock_elem; eauto).
  assert (Hfresh : nextBlock F ∉ bid <$> blocks F).
  { intros Hin. apply Hlt in Hin. lia. }
  assert (Hne : BB ≠ nextBlock F) by (intros ->; done).
  set (fixPhis := fun blk : Block =>
         if bool_decide (bid blk ∈ successors
               (mkBlock (nextBlock F) (bname Old +:+ ".split") [] (term Old)))
         then setBody blk (replaceIncomingBlockWith BB (nextBlock F) <$> body blk)
         else blk).
  assert (Hfix : forall blk, bid (fixPhis blk) = bid blk
                             /\ successors (fixPhis blk) = successors blk).
  { intros blk. unfold fixPhis. by case_bool_decide. }
  split; [|split].
  - unfold blockAdded. split; [done|]. split; [done|]. split.
    { simpl. apply (bids_split_present BB (nextBlock F)); try done.
      - intros blk. apply Hfix.
      - intros blk. simpl. apply Hfix. }
    split; [|done].
    intros b Hb Hn. unfold getBBSuccessors, getBlock. simpl.
    rewrite (find_split_old BB (nextBlock F)); try done.
    2:{ intros blk. apply Hfix. }
    2:{ intros blk. simpl. apply Hfix. }
    destruct (find _ (blocks F)) as [blk|] eqn:Hf; [|done]. simpl.
    apply find_Some_elem in Hf as [_ Hb']. apply bool_decide_eq_true_1 in Hb'.
    rewrite bool_decide_eq_false_2 by congruence. apply Hfix.
  - unfold getBBSuccessors, getBlock. simpl.
    rewrite (find_split_old BB (nextBlock F)); try done.
    2:{ intros blk. apply Hfix. }
    2:{ intros blk. simpl. apply Hfix. }
    fold (getBlock F BB). rewrite Hg. simpl.
    by rewrite (bool_decide_eq_true_2 _ (getBlock_bid _ _ _ Hg)).
  - unfold getBBSuccessors, getBlock. simpl.
    rewrite (find_split_new BB (nextBlock F)); try done.
    all: try (intros blk; simpl; apply Hfix).
    all: try (fold (getBlock F BB); rewrite Hg; eauto).
Qed.

Lemma successors_setSuccessor (n : nat) (New : BasicBlock) (t : Instruction) (blk : Block) :
  is_Some (successors (setTerm blk t) !! n) ->
  successors (setTerm blk (setSuccessor n New t)) !! n = Some New.
Proof.
  unfold successors, setSuccessor. simpl. intros [x Hx].
  destruct (opcode t) as [| | | | | | |succs|d cases|] eqn:Ho; simpl in *; try done.
  - rewrite list_lookup_insert_eq; [done|]. by eapply lookup_lt_Some.
  - destruct n as [|k]; simpl in *; [done|].
    rewrite list_lookup_fmap in Hx |- *. rewrite list_lookup_imap.
    destruct (cases !! k) as [c|]; [|done]. simpl.
    by rewrite bool_decide_eq_true_2.
Qed.

(** [SplitCriticalEdge], as LLVM does it. *)
Lemma llvm_SplitCriticalEdge_blockAdded (F : Function) (BB : BasicBlock) (n : nat) :
  wellFormed F ->
  match llvm_SplitCriticalEdge F BB n with
  | Some F' =>
      isCriticalEdge F BB n = true
      /\ blockAdded F F' BB (nextBlock F)
      /\ getBBSuccessors F' BB !! n = Some (nextBlock F)
  | None => isCriticalEdge F BB n = false \/ getBlock F BB = None
  end.
Proof.
  intros [Hnd Hlt]. unfold llvm_SplitCriticalEdge.
  destruct (isCriticalEdge F BB n) eqn:Hcrit; [|by left].
  destruct (getBlock F BB) as [TIBB|] eqn:Hg; [|by right].
  assert (Hn : is_Some (getBBSuccessors F BB !! n)).
  { unfold isCriticalEdge in Hcrit. destruct (getBBSuccessors F BB !! n); [eauto|done]. }
  destruct Hn as [Dest HDest]. rewrite HDest.
  split; [done|].
  assert (HBB : BB ∈ bid <$> blocks F) by (apply getBlock_elem; eauto).
  assert (Hfresh : nextBlock F ∉ bid <$> blocks F).
  { intros Hin. apply Hlt in Hin. lia. }
  assert (Hne : BB ≠ nextBlock F) by (intros ->; done).
  set (fixPhis := fun blk : Block =>
         if bool_decide (bid blk = Dest)
         then setBody blk (setFirstIncomingBlock BB (nextBlock F) <$> body blk)
         else blk).
  assert (Hfix : forall blk, bid (fixPhis blk) = bid blk
                             /\ successors (fixPhis blk) = successors blk).
  { intros blk. unfold fixPhis. by case_bool_decide. }
  split.
  - unfold blockAdded. split; [done|]. split; [done|]. split.
    { simpl. apply (bids_split_present BB (nextBlock F)); try done.
      all: intros blk; simpl; apply Hfix. }
    split; [|done].
    intros b Hb Hn'. unfold getBBSuccessors, getBlock. simpl.
    rewrite (find_split_old BB (nextBlock F)); try done.
    2,3: intros blk; simpl; apply Hfix.
    destruct (find _ (blocks F)) as [blk|] eqn:Hf; [|done]. simpl.
    apply find_Some_elem in Hf as [_ Hb']. apply bool_decide_eq_true_1 in Hb'.
    rewrite bool_decide_eq_false_2 by congruence. apply Hfix.
  - unfold getBBSuccessors at 1. unfold getBlock. simpl.
    rewrite (find_split_old BB (nextBlock F)); try done.
    2,3: intros blk; simpl; apply Hfix.
    fold (getBlock F BB). rewrite Hg. simpl.
    rewrite (bool_decide_eq_true_2 _ (getBlock_bid _ _ _ Hg)).
    apply successors_setSuccessor.
    unfold getBBSuccessors in HDest. rewrite Hg in HDest.
    exists Dest. exact HDest.
Qed.

(** With LLVM's splitting, [splitEdgeWrapper] from a block of a
    well-formed function never gives null: it adds one block, with the
    next handle; when the source block has one successor, the new block
    sits on that edge. *)
Lemma splitEdgeWrapper_llvm (F : Function) (BB Succ : BasicBlock) (name : string) :
  wellFormed F -> is_Some (getBlock F BB) ->
  exists F',
    splitEdgeWrapper llvmSplit F BB Succ name = Ret (Some (F', nextBlock F))
    /\ blockAdded F F' BB (nextBlock F)
    /\ (getBBSuccessors F BB = [Succ] ->
        getBBSuccessors F' BB = [nextBlock F]
        /\ getBBSuccessors F' (nextBlock F) = [Succ]).
Proof.
  intros Hwf [Old Hg]. unfold splitEdgeWrapper, SplitEdgeCustom. simpl.
  pose proof (llvm_SplitCriticalEdge_blockAdded F BB (GetSuccessorNumber F BB Succ) Hwf)
    as Hcrit.
  destruct (llvm_SplitCriticalEdge F BB _) as [F1|].
  - destruct Hcrit as (Hc & Hadd & Hn). rewrite Hn.
    eexists. split; [reflexivity|]. split.
    { eapply blockAdded_sameControlFlow; [exact Hadd|apply sameControlFlow_setName]. }
    intros Hsingle. unfold isCriticalEdge in Hc. rewrite Hsingle in Hc.
    destruct ([Succ] !! _); [|done]. simpl in Hc.
    first [ done | rewrite bool_decide_eq_false_2 in Hc by lia; done ].
  - destruct (llvm_SplitBlock_blockAdded F BB Old Hwf Hg) as (F1 & -> & Hadd & H1 & H2).
    eexists. split; [reflexivity|]. split.
    { eapply blockAdded_sameControlFlow; [exact Hadd|apply sameControlFlow_setName]. }
    intros Hsingle.
    destruct (sameControlFlow_setName (nextBlock F) name F1) as (_ & Hs & _).
    rewrite !Hs, H1, H2. split; [done|].
    unfold getBBSuccessors in Hsingle. by rewrite Hg in Hsingle.
Qed.

(** [BasicBlock::Create] with its branch: a block is appended. *)
Lemma createBlockWithBranch_blockAdded (name : string) (target : BasicBlock)
    (F : Function) :
  wellFormed F ->
  let New := (createBlockWithBranch name target F).1 in
  let F' := (createBlockWithBranch name target F).2 in
  blockAdded F F' New New
  /\ getBBSuccessors F' New = [target]
  /\ forall b, b ≠ New -> getBBSuccessors F' b = getBBSuccessors F b.
Proof.
  intros [Hnd Hlt]. simpl.
  assert (Hfresh : forall blk, blk ∈ blocks F -> bid blk ≠ nextBlock F).
  { intros blk Hin Heq. assert (Hb : bid blk ∈ bid <$> blocks F)
      by (by apply list_elem_of_fmap_2).
    apply Hlt in Hb. lia. }
  assert (Hfind : forall b,
    find (fun blk => bool_decide (bid blk = b))
         (blocks F ++ [mkBlock (nextBlock F) name []
                         (mkInst (nextValue F) "" VoidTy (Term [target]) [])])
    = if decide (b = nextBlock F)
      then Some (mkBlock (nextBlock F) name []
                   (mkInst (nextValue F) "" VoidTy (Term [target]) []))
      else find (fun blk => bool_decide (bid blk = b)) (blocks F)).
  { intros b. rewrite find_app_l.
    destruct (find _ (blocks F)) as [blk|] eqn:Hf.
    - apply find_Some_elem in Hf as [Hin Hb]. apply bool_decide_eq_true_1 in Hb.
      rewrite decide_False; [done|]. intros ->. by apply (Hfresh blk).
    - simpl. case_decide.
      + by rewrite bool_decide_eq_true_2.
      + by rewrite bool_decide_eq_false_2. }
  assert (Hothers : forall b, b ≠ nextBlock F ->
    getBBSuccessors
      (setBlocks (bumpBlock (bumpValue F))
         (blocks F ++ [mkBlock (nextBlock F) name []
                         (mkInst (nextValue F) "" VoidTy (Term [target]) [])])) b
    = getBBSuccessors F b).
  { intros b Hb. unfold getBBSuccessors, getBlock. simpl.
    by rewrite Hfind, decide_False. }
  split; [|split].
  - unfold blockAdded. split; [done|]. split; [done|]. split.
    { simpl. rewrite fmap_app. simpl. by rewrite Permutation_app_comm. }
    split; [|done]. intros b Hb _. by apply Hothers.
  - unfold getBBSuccessors, getBlock. simpl. by rewrite Hfind, decide_True.
  - exact Hothers.
Qed.

Lemma first_pass_chooseBBWithLeastTrackedVals_spec_witness :
  exists cpBBMap,
    ModuleTransformationPass.chooseBBWithLeastTrackedVals
      {[ 1 := {[ 1 := {[20]}; 2 := {[20]}; 3 := {[20; 2]} ]} ]} F_two 1 = Ret cpBBMap
    /\ cpBBMap !! 1 = Some {[20]} /\ cpBBMap !! 2 = Some {[20]} /\ cpBBMap !! 3 = None.
Proof.
  destruct (first_pass_chooseBBWithLeastTrackedVals_spec
              {[ 1 := {[ 1 := {[20]}; 2 := {[20]}; 3 := {[20; 2]} ]} ]} F_two 1
              {[ 1 := {[20]}; 2 := {[20]}; 3 := {[20; 2]} ]})
    as (cpBBMap & Hret & _).
  - vm_compute. reflexivity.
  - intros H. apply (f_equal size) in H. vm_compute in H. discriminate H.
  - exists cpBBMap. split; [exact Hret|].
    vm_compute in Hret. injection Hret as <-. vm_compute. repeat split.
Defined.

(** * The pass with LLVM's splitting *)

Lemma selectCheckpointBBs_wellFormed (F : Function) (m : gmap BasicBlock (gset Value)) :
  wellFormed F -> wellFormed (selectCheckpointBBs F m).1.
Proof.
  intros [Hnd Hlt]. split.
  - by rewrite selectCheckpointBBs_bids.
  - intros b. rewrite selectCheckpointBBs_bids, selectCheckpointBBs_nextBlock. apply Hlt.
Qed.

Lemma entry_block_exists (F : Function) (entryBlk : Block) (rest : list Block) :
  blocks F = entryBlk :: rest -> is_Some (getBlock F (bid entryBlk)).
Proof.
  intros H. apply getBlock_elem. rewrite H, fmap_cons. apply elem_of_cons. by left.
Qed.

(** With LLVM's splitting, a function of which the pass reports no
    modification is the function it was given. *)
Lemma unmodified_function_is_unchanged (propagate : Propagator)
    (tracked : gmap positive (gmap BasicBlock (gset Value)))
    (live : gmap positive (gmap BasicBlock LiveVals)) (F : Function) (o : FuncOutcome) :
  wellFormed F ->
  injectSubroutinesInFunction llvmSplit propagate tracked live F = Ret o ->
  outcomeModified o = false -> outcomeFunction o = F.
Proof.
  intros Hwf H Hm. unfold injectSubroutinesInFunction in H.
  case_bool_decide; [by injection H as <-|].
  destruct (tracked !! fhandle F) as [bbTracked|]; [|by injection H as <-].
  destruct (getCkptMemSegmentPtr _ _ _) as [ckptMem|]; [|by injection H as <-].
  destruct (blocks F) as [|entryBlk rest] eqn:Hblocks; [done|].
  destruct (getBBSuccessors _ _) as [|succ0 succs]; [by injection H as <-|].
  pose proof (selectCheckpointBBs_none F bbTracked) as Hnone.
  pose proof (selectCheckpointBBs_wellFormed F bbTracked Hwf) as Hwf0.
  pose proof (selectCheckpointBBs_bids F bbTracked) as Hbids.
  destruct (selectCheckpointBBs F bbTracked) as [F0 cp]. simpl in Hnone, Hwf0, Hbids.
  case_bool_decide as Hsize.
  { injection H as <-. simpl. by apply Hnone. }
  destruct (splitEdgeWrapper_llvm F0 (bid entryBlk) succ0
              (fname F0 +:+ ".restoreControllerBB") Hwf0) as (F1 & Hsplit & _).
  { apply getBlock_elem. rewrite Hbids, Hblocks, fmap_cons. apply elem_of_cons. by left. }
  rewrite Hsplit in H. cbn [mbind Res_bind] in H.
  apply bind_Ret in H as (st & Hst & H).
  destruct (getCheckpointIdBBMap _ _) as [F2 ids].
  destruct (getSingleSuccessor F1 _) as [rs'|]; [|done].
  case_bool_decide; injection H as <-; done.
Qed.

(** With LLVM's splitting, a run of the pass that reports the module as
    not modified has left every function of it as it was. *)
Theorem unmodified_module_is_unchanged (propagate : Propagator)
    (tracked : gmap positive (gmap BasicBlock (gset Value)))
    (live : gmap positive (gmap BasicBlock LiveVals)) (M M' : Module) :
  Forall wellFormed M ->
  injectSubroutines llvmSplit propagate tracked live M = Ret (M', false) ->
  M' = M.
Proof.
  intros Hwf. revert M'. induction Hwf as [|F M HF HM IH]; intros M' H.
  - simpl in H. by injection H as <-.
  - simpl in H. apply bind_Ret in H as (o & Ho & H).
    apply bind_Ret in H as ([M1 m1] & Hr & H). simpl in H.
    injection H as <- Hmod. apply orb_false_iff in Hmod as [Hmo ->].
    f_equal.
    + by eapply unmodified_function_is_unchanged.
    + by apply IH.
Qed.

Ltac wellFormed_example :=
  split;
  [ apply (bool_decide_unpack _); vm_compute; exact I
  | let b := fresh "b" in let Hb := fresh "Hb" in
    intros b Hb; vm_compute in Hb;
    repeat (apply elem_of_cons in Hb as [->|Hb]; [reflexivity|]);
    by apply elem_of_nil in Hb ].

Lemma wellFormed_F_two : wellFormed F_two.
Proof. wellFormed_example. Qed.

Lemma wellFormed_F_odr : wellFormed F_odr.
Proof. wellFormed_example. Qed.

Lemma unmodified_module_is_unchanged_witness :
  injectSubroutines llvmSplit (propagateWithFuel 100) ∅ ∅ [F_odr; F_two]
    = Ret ([F_odr; F_two], false).
Proof.
  assert (H : { M' | injectSubroutines llvmSplit (propagateWithFuel 100) ∅ ∅ [F_odr; F_two]
                     = Ret (M', false) }) by (eexists; vm_compute; reflexivity).
  destruct H as [M' H]. rewrite H. do 2 f_equal.
  apply (unmodified_module_is_unchanged (propagateWithFuel 100) ∅ ∅ [F_odr; F_two] M');
    [|exact H].
  apply Forall_cons. split; [exact wellFormed_F_odr|].
  apply Forall_cons. split; [exact wellFormed_F_two|constructor].
Defined.

(** ** The control flow after each step of the pass *)

Lemma propagateWithFuel_keepsControlFlow (fuel : nat) :
  keepsControlFlow (propagateWithFuel fuel).
Proof.
  intros env resumeBB junctionBB trackedVal phi F st H.
  unfold propagateWithFuel, propagateRestoredValuesBFS in H.
  by apply drainQueue_sameControlFlow in H as (Hcf & _).
Qed.

Lemma propagateLoadedValues_sameControlFlow (propagate : Propagator) (env : PropEnv)
    (resumeBB junctionBB : BasicBlock) (phiVals : gmap Value Value)
    (trackedVals : list Value) (F F' : Function) :
  keepsControlFlow propagate ->
  propagateLoadedValues propagate env resumeBB junctionBB phiVals trackedVals F = Ret F' ->
  sameControlFlow F F'.
Proof.
  intros Hkeeps. revert F. induction trackedVals as [|v l IH]; intros F H; simpl in H.
  - injection H as <-. apply sameControlFlow_refl.
  - destruct (phiVals !! v) as [phi|]; [|done].
    apply bind_Ret in H as (st & Hst & H).
    apply Hkeeps in Hst.
    eapply sameControlFlow_trans; [exact Hst|]. by apply IH.
Qed.

Lemma populateSaveAndRestoreBB_sameControlFlow (ckptMem : Value)
    (saveBB restoreBB junctionBB : BasicBlock) (trackedVals : gset Value) (F : Function) :
  sameControlFlow F
    (mF (populateSaveAndRestoreBB ckptMem saveBB restoreBB junctionBB trackedVals F)).
Proof.
  unfold populateSaveAndRestoreBB.
  induction (iterate trackedVals) as [|v l IH] using rev_ind.
  - apply sameControlFlow_refl.
  - rewrite foldl_app. simpl.
    eapply sameControlFlow_trans; [exact IH|].
    apply (marshalValue_record ckptMem saveBB restoreBB junctionBB v).
Qed.

Lemma storeIsComplete_sameControlFlow (ckptMem : Value) (saveBB : BasicBlock)
    (F : Function) :
  sameControlFlow F (storeIsComplete ckptMem saveBB F).
Proof.
  unfold storeIsComplete, createSlotPtr, createBeforeTerminator. simpl. same_cf.
Qed.

Lemma addIdAndHeartbeat_sameControlFlow (ckptMem : Value) (F : Function)
    (entry : Z * CheckpointTopo) :
  sameControlFlow F (addIdAndHeartbeat ckptMem F entry).
Proof.
  unfold addIdAndHeartbeat, createSlotPtr, createBeforeTerminator. simpl. same_cf.
Qed.

Lemma getCheckpointIdBBMap_sameControlFlow (checkpointBB : BasicBlock)
    (t : CheckpointTopo) (F : Function) :
  sameControlFlow F (getCheckpointIdBBMap {[checkpointBB := t]} F).1.
Proof.
  unfold getCheckpointIdBBMap. rewrite iterateMap_singleton. simpl. same_cf.
Qed.

Lemma bids_updateBlock (b : BasicBlock) (f : Block -> Block) (F : Function) :
  (forall blk, bid (f blk) = bid blk) ->
  bid <$> blocks (updateBlock b f F) = bid <$> blocks F.
Proof.
  intros Hf. unfold updateBlock. simpl. rewrite <- list_fmap_compose.
  apply list_fmap_ext. intros i blk _. simpl. by case_bool_decide.
Qed.

Lemma populateRestoreControllerBB_flow (ckptMem : Value) (rc rs : BasicBlock)
    (idMap : gmap Z CheckpointTopo) (F : Function) :
  let F' := populateRestoreControllerBB ckptMem rc rs idMap F in
  bid <$> blocks F' = bid <$> blocks F
  /\ nextBlock F' = nextBlock F
  /\ (forall b, b ≠ rc -> getBBSuccessors F' b = getBBSuccessors F b)
  /\ (is_Some (getBlock F rc) ->
      getBBSuccessors F' rc
      = rs :: ((fun entry : Z * CheckpointTopo => restoreBB entry.2) <$> iterateZMap idMap)).
Proof.
  intros F'. split; [|split; [|split]].
  - subst F'. unfold populateRestoreControllerBB, createSlotPtr, createBeforeTerminator.
    cbv beta iota zeta. rewrite bids_updateBlock by done.
    match goal with
    | |- bid <$> blocks ?G = _ => assert (H : sameControlFlow F G) by same_cf
    end.
    apply H.
  - subst F'. unfold populateRestoreControllerBB, createSlotPtr, createBeforeTerminator.
    cbv beta iota zeta.
    match goal with
    | |- nextBlock (updateBlock _ _ ?G) = _ => assert (H : sameControlFlow F G) by same_cf
    end.
    etrans; [|apply H]. reflexivity.
  - intros b Hb. subst F'.
    unfold populateRestoreControllerBB, createSlotPtr, createBeforeTerminator.
    cbv beta iota zeta.
    unfold getBBSuccessors at 1. rewrite getBlock_updateBlock by done.
    rewrite decide_False by done.
    match goal with
    | |- context [getBlock ?G b] => assert (H : sameControlFlow F G) by same_cf
    end.
    apply H.
  - intros [blk Hblk]. subst F'. unfold getBBSuccessors.
    rewrite populateRestoreControllerBB_block, Hblk. simpl.
    unfold successors. simpl. f_equal. rewrite <- list_fmap_compose. done.
Qed.

(** One run of the loop body of step 3 under LLVM's splitting, for a
    checkpoint block that has one successor: the topology is recorded;
    and, when the propagator keeps the control flow, three blocks are
    added and they are wired as the topology records. *)
Lemma addSubroutine_llvm (propagate : Propagator)
    (live : gmap positive (gmap BasicBlock LiveVals))
    (ckptMem : Value) (cp : gmap BasicBlock (gset Value)) (cb succ : BasicBlock)
    (st st' : InjState) :
  wellFormed (iF st) ->
  is_Some (getBlock (iF st) cb) ->
  getBBSuccessors (iF st) cb = [succ] ->
  addSubroutine llvmSplit propagate live ckptMem cp cb succ st = Ret st' ->
  checkpointBBTopoMap st'
    = emplace cb (mkTopo cb (nextBlock (iF st)) (Pos.succ (Pos.succ (nextBlock (iF st))))
                    (Pos.succ (nextBlock (iF st))) succ)
        (checkpointBBTopoMap st)
  /\ (keepsControlFlow propagate ->
      wellFormed (iF st')
      /\ bid <$> blocks (iF st')
         ≡ₚ Pos.succ (Pos.succ (nextBlock (iF st))) :: Pos.succ (nextBlock (iF st))
            :: nextBlock (iF st) :: (bid <$> blocks (iF st))
      /\ getBBSuccessors (iF st') cb = [nextBlock (iF st)]
      /\ getBBSuccessors (iF st') (nextBlock (iF st)) = [Pos.succ (nextBlock (iF st))]
      /\ getBBSuccessors (iF st') (Pos.succ (nextBlock (iF st))) = [succ]
      /\ getBBSuccessors (iF st') (Pos.succ (Pos.succ (nextBlock (iF st))))
         = [Pos.succ (nextBlock (iF st))]
      /\ (forall b, b ≠ cb -> b ≠ nextBlock (iF st) -> b ≠ Pos.succ (nextBlock (iF st)) ->
            b ≠ Pos.succ (Pos.succ (nextBlock (iF st))) ->
            getBBSuccessors (iF st') b = getBBSuccessors (iF st) b)).
Proof.
  intros Hwf Hcb Hsuccs H. unfold addSubroutine in H.
  assert (Hlt : cb < nextBlock (iF st)).
  { apply Hwf. by apply getBlock_elem. }
  destruct (splitEdgeWrapper_llvm (iF st) cb succ (blockName (iF st) cb +:+ ".saveBB")
              Hwf Hcb) as (F1 & Hs1 & Hadd1 & Hsing1).
  rewrite Hs1 in H. cbn [mbind Res_bind] in H.
  destruct (Hsing1 Hsuccs) as [Hc1 Hn1]. rewrite Hn1 in H.
  cbn [head] in H.
  pose proof (wellFormed_blockAdded _ _ _ _ Hwf Hadd1) as Hwf1.
  assert (Hnb1 : is_Some (getBlock F1 (nextBlock (iF st)))).
  { apply getBlock_elem. destruct Hadd1 as (_ & _ & Hp & _). rewrite Hp. by left. }
  destruct (splitEdgeWrapper_llvm F1 (nextBlock (iF st)) succ
              (blockName (iF st) cb +:+ ".junctionBB") Hwf1 Hnb1)
    as (F2 & Hs2 & Hadd2 & Hsing2).
  rewrite Hs2 in H. cbn [mbind Res_bind] in H. destruct (Hsing2 Hn1) as [Hc2 Hn2].
  pose proof (wellFormed_blockAdded _ _ _ _ Hwf1 Hadd2) as Hwf2.
  pose proof (createBlockWithBranch_blockAdded (blockName (iF st) cb +:+ ".restoreBB")
                (nextBlock F1) F2 Hwf2) as Hcb3.
  destruct (createBlockWithBranch (blockName (iF st) cb +:+ ".restoreBB")
              (nextBlock F1) F2) as [restoreBB F3] eqn:Hcreate.
  cbn [fst snd] in Hcb3. destruct Hcb3 as (Hadd3 & Hr3 & Hoth3).
  pose proof (wellFormed_blockAdded _ _ _ _ Hwf2 Hadd3) as Hwf3.
  destruct (cp !! cb) as [trackedVals|]; [|done].
  apply bind_Ret in H as (F4 & Hprop & H). injection H as <-. cbn [iF checkpointBBTopoMap].
  destruct Hadd1 as (_ & N1 & P1 & O1 & _).
  destruct Hadd2 as (_ & N2 & P2 & O2 & _).
  destruct Hadd3 as (R3 & N3 & P3 & O3 & _).
  rewrite N1 in *. rewrite N2 in R3. subst restoreBB.
  split; [reflexivity|]. intros Hkeeps.
  apply propagateLoadedValues_sameControlFlow in Hprop; [|exact Hkeeps].
  assert (Hcf : sameControlFlow F3 F4).
  { eapply sameControlFlow_trans; [|exact Hprop].
    eapply sameControlFlow_trans; [|apply storeIsComplete_sameControlFlow].
    apply populateSaveAndRestoreBB_sameControlFlow. }
  pose proof (wellFormed_sameControlFlow _ _ Hwf3 Hcf) as Hwf4.
  destruct Hcf as (B4 & S4 & _).
  split; [exact Hwf4|].
  split. { by rewrite B4, P3, P2, P1. }
  split. { rewrite S4, Hoth3, O2, Hc1 by lia. done. }
  split. { rewrite S4, Hoth3, Hc2 by lia. done. }
  split. { rewrite S4, Hoth3, Hn2 by lia. done. }
  split. { by rewrite S4, Hr3. }
  intros b Hb1 Hb2 Hb3 Hb4. by rewrite S4, Hoth3, O2, O1.
Qed.

(** The new block is the first successor of [BB] when [Succ] was. *)
Lemma splitEdgeWrapper_llvm_head (F F' : Function) (BB Succ New : BasicBlock)
    (name : string) :
  wellFormed F ->
  head (getBBSuccessors F BB) = Some Succ ->
  splitEdgeWrapper llvmSplit F BB Succ name = Ret (Some (F', New)) ->
  head (getBBSuccessors F' BB) = Some New.
Proof.
  intros Hwf Hhead H. unfold splitEdgeWrapper, SplitEdgeCustom in H. simpl in H.
  rewrite (GetSuccessorNumber_head _ _ _ Hhead) in H.
  pose proof (llvm_SplitCriticalEdge_blockAdded F BB 0 Hwf) as Hcrit.
  destruct (llvm_SplitCriticalEdge F BB 0) as [F1|].
  - destruct Hcrit as (_ & _ & Hn). rewrite Hn in H. injection H as <- <-.
    rewrite getBBSuccessors_setName. by destruct (getBBSuccessors F1 BB).
  - assert (Hg : is_Some (getBlock F BB)).
    { unfold getBBSuccessors in Hhead. destruct (getBlock F BB); [eauto|done]. }
    destruct Hg as [Old Hg].
    destruct (llvm_SplitBlock_blockAdded F BB Old Hwf Hg) as (F1 & Hs & _ & H1 & _).
    rewrite Hs in H. injection H as <- <-.
    by rewrite getBBSuccessors_setName, H1.
Qed.

(** A selected checkpoint block is a block of the function that has one
    successor. *)
Lemma selected_block_has_one_successor (F : Function)
    (m : gmap BasicBlock (gset Value)) (b : BasicBlock) :
  b ∈ getCkptBBsInFunc (selectCheckpointBBs F m).1 (selectCheckpointBBs F m).2 ->
  b ∈ bid <$> blocks F
  /\ is_Some ((selectCheckpointBBs F m).2 !! b)
  /\ exists succ, getBBSuccessors F b = [succ].
Proof.
  unfold getCkptBBsInFunc. rewrite elem_of_list_to_set, list_elem_of_filter.
  rewrite selectCheckpointBBs_bids. intros [[vs Hsel] Hin].
  split; [done|]. split; [eauto|].
  rewrite selectCheckpointBBs_lookup in Hsel. cbv zeta in Hsel.
  destruct (existsb _ _); [|done].
  apply filterChain_lookup in Hsel as (Hone & _).
  unfold getNumSuccessors in Hone. unfold getBBSuccessors.
  destruct (getBlock F b) as [blk|]; [|done]. simpl.
  destruct (successors blk) as [|s [|s' l]]; try done. eauto.
Qed.

(** Step 3 under LLVM's splitting, after the dispatcher block was split
    off the entry block: the first selected block gets its three blocks. *)
Lemma addSubroutinesForCheckpoints_llvm (propagate : Propagator)
    (live : gmap positive (gmap BasicBlock LiveVals)) (ckptMem : Value)
    (F F1 : Function) (bbTracked : gmap BasicBlock (gset Value))
    (entryBB succ0 rc : BasicBlock) (name : string) (st : InjState) :
  wellFormed F ->
  entryBB ∈ bid <$> blocks F ->
  head (getBBSuccessors F entryBB) = Some succ0 ->
  size (selectCheckpointBBs F bbTracked).2 ≠ 0%nat ->
  splitEdgeWrapper llvmSplit (selectCheckpointBBs F bbTracked).1 entryBB succ0 name
    = Ret (Some (F1, rc)) ->
  addSubroutinesForCheckpoints llvmSplit propagate live ckptMem
    (selectCheckpointBBs F bbTracked).2
    (getCkptBBsInFunc (selectCheckpointBBs F bbTracked).1
       (selectCheckpointBBs F bbTracked).2)
    (mkInj F1 ∅ ∅ {[rc]} ∅ ∅ ∅ ∅) = Ret st ->
  exists cb succ,
    rc = nextBlock F
    /\ getBBSuccessors F cb = [succ]
    /\ checkpointBBTopoMap st
       = {[cb := mkTopo cb (Pos.succ rc) (Pos.succ (Pos.succ (Pos.succ rc)))
                   (Pos.succ (Pos.succ rc))
                   (if decide (cb = entryBB) then rc else succ)]}
    /\ (keepsControlFlow propagate ->
        bid <$> blocks (iF st)
        ≡ₚ Pos.succ (Pos.succ (Pos.succ rc)) :: Pos.succ (Pos.succ rc) :: Pos.succ rc
           :: rc :: (bid <$> blocks F)
        /\ getBBSuccessors (iF st) cb = [Pos.succ rc]
        /\ getBBSuccessors (iF st) (Pos.succ rc) = [Pos.succ (Pos.succ rc)]
        /\ getBBSuccessors (iF st) (Pos.succ (Pos.succ rc))
           = [if decide (cb = entryBB) then rc else succ]
        /\ getBBSuccessors (iF st) (Pos.succ (Pos.succ (Pos.succ rc)))
           = [Pos.succ (Pos.succ rc)]
        /\ (cb ≠ entryBB -> head (getBBSuccessors (iF st) entryBB) = Some rc)
        /\ (forall b, b ∈ bid <$> blocks F -> b ≠ entryBB -> b ≠ cb ->
              getBBSuccessors (iF st) b = getBBSuccessors F b)).
Proof.
  intros Hwf Hentry Hhead Hsize Hsplit Hloop.
  pose proof (selectCheckpointBBs_wellFormed F bbTracked Hwf) as Hwf0.
  pose proof (selectCheckpointBBs_bids F bbTracked) as Hbids0.
  pose proof (selectCheckpointBBs_nextBlock F bbTracked) as Hnext0.
  pose proof (selectCheckpointBBs_successors F bbTracked) as Hsucc0.
  pose proof (selected_block_has_one_successor F bbTracked) as Hselected.
  pose proof (selectCheckpointBBs_lookup F bbTracked) as Hlookup.
  destruct (selectCheckpointBBs F bbTracked) as [F0 cp]. cbn [fst snd] in *.
  assert (Hentry0 : is_Some (getBlock F0 entryBB)).
  { apply getBlock_elem. by rewrite Hbids0. }
  destruct (splitEdgeWrapper_llvm F0 entryBB succ0 name Hwf0 Hentry0)
    as (F1' & Hsplit' & Hadd1 & Hsing1).
  rewrite Hsplit in Hsplit'. injection Hsplit' as <- Hrc. rewrite Hnext0 in Hrc.
  assert (Hhead0 : head (getBBSuccessors F0 entryBB) = Some succ0).
  { by rewrite Hsucc0. }
  pose proof (splitEdgeWrapper_llvm_head _ _ _ _ _ _ Hwf0 Hhead0 Hsplit) as Hentry1.
  pose proof (wellFormed_blockAdded _ _ _ _ Hwf0 Hadd1) as Hwf1.
  unfold addSubroutinesForCheckpoints in Hloop. cbn [iF] in Hloop.
  destruct (iterate (getCkptBBsInFunc F0 cp)) as [|cb others] eqn:Hiter.
  { exfalso. apply Hsize. apply map_size_empty_iff, map_eq. intros b.
    rewrite lookup_empty. destruct (cp !! b) as [vs|] eqn:Hb; [|done]. exfalso.
    assert (Hin : b ∈ getCkptBBsInFunc F0 cp).
    { unfold getCkptBBsInFunc. rewrite elem_of_list_to_set, list_elem_of_filter.
      split; [by rewrite Hb|]. rewrite Hbids0.
      rewrite Hlookup in Hb. cbv zeta in Hb.
      destruct (existsb _ _) eqn:He; [|done].
      apply existsb_exists in He as (blk & Hblk & Hc).
      apply andb_true_iff in Hc as [Hc _]. apply bool_decide_eq_true_1 in Hc.
      rewrite <- Hc. apply list_elem_of_fmap_2. by apply list_elem_of_In. }
    apply iterate_elem_of in Hin. rewrite Hiter in Hin. by apply elem_of_nil in Hin. }
  assert (Hcb : cb ∈ getCkptBBsInFunc F0 cp).
  { apply iterate_elem_of. rewrite Hiter. by left. }
  apply Hselected in Hcb as (Hcbin & Hcp & succ & Hcbsucc).
  assert (Hcblt : cb < rc).
  { subst rc. by apply Hwf. }
  destruct Hadd1 as (_ & N1 & P1 & O1 & _). rewrite Hnext0 in N1, P1. rewrite Hbids0 in P1.
  rewrite <- Hrc in N1, P1.
  assert (Hcb1 : is_Some (getBlock F1 cb)).
  { apply getBlock_elem. rewrite P1. by right. }
  assert (Hcbsucc1 : getBBSuccessors F1 cb
                     = [if decide (cb = entryBB) then rc else succ]).
  { case_decide as Hce.
    - subst cb. rewrite Hcbsucc in Hhead. injection Hhead as <-.
      rewrite Hrc, <- Hnext0. apply Hsing1. by rewrite Hsucc0.
    - rewrite O1, Hsucc0; [done|done|]. rewrite Hnext0, <- Hrc. lia. }
  rewrite Hcbsucc1 in Hloop. simpl in Hloop.
  apply bind_Ret in Hloop as (st1 & Hadd & Hloop). injection Hloop as ->.
  apply addSubroutine_llvm in Hadd; [|done|done|done].
  cbn [iF checkpointBBTopoMap] in Hadd. rewrite N1 in Hadd.
  destruct Hadd as (Ht & Hflow).
  unfold emplace in Ht. rewrite lookup_empty, insert_empty in Ht.
  exists cb, succ.
  split; [done|]. split; [done|]. split; [done|]. intros Hkeeps.
  destruct (Hflow Hkeeps) as (Hwf2 & P2 & Scb & Ssave & Sjunction & Srestore & O2).
  split. { by rewrite P2, P1. }
  split; [done|]. split; [done|]. split; [done|]. split; [done|].
  split.
  { intros Hne. assert (He : entryBB < rc) by (subst rc; by apply Hwf).
    rewrite O2 by lia. exact Hentry1. }
  intros b Hb Hbe Hbc. assert (Hblt : b < rc) by (subst rc; by apply Hwf).
  rewrite O2, O1, Hsucc0; [done|done| |done|lia|lia|lia].
  rewrite Hnext0, <- Hrc. lia.
Qed.

(** What a run that installs a checkpoint under LLVM's splitting has
    built. *)
Lemma injected_llvm_wiring (fuel : nat)
    (tracked : gmap positive (gmap BasicBlock (gset Value)))
    (live : gmap positive (gmap BasicBlock LiveVals))
    (F F' : Function) (rc rs : BasicBlock)
    (topoMap : gmap BasicBlock CheckpointTopo) (idMap : gmap Z CheckpointTopo) :
  wellFormed F ->
  injectSubroutinesInFunction llvmSplit (propagateWithFuel fuel) tracked live F
    = Ret (Injected F' rc rs topoMap idMap) ->
  exists entryBB succ t,
    bid <$> head (blocks F) = Some entryBB
    /\ head (getBBSuccessors F entryBB) = Some rs
    /\ topoMap = {[checkpointBB t := t]}
    /\ getBBSuccessors F (checkpointBB t) = [succ]
    /\ rc = nextBlock F
    /\ saveBB t = rc + 1
    /\ junctionBB t = rc + 2
    /\ restoreBB t = rc + 3
    /\ resumeBB t = (if decide (checkpointBB t = entryBB) then rc else succ)
    /\ bid <$> blocks F'
       ≡ₚ restoreBB t :: junctionBB t :: saveBB t :: rc :: (bid <$> blocks F)
    /\ getBBSuccessors F' (checkpointBB t) = [saveBB t]
    /\ getBBSuccessors F' (saveBB t) = [junctionBB t]
    /\ getBBSuccessors F' (restoreBB t) = [junctionBB t]
    /\ getBBSuccessors F' (junctionBB t) = [resumeBB t]
    /\ getBBSuccessors F' rc = [rs; restoreBB t]
    /\ (checkpointBB t ≠ entryBB -> head (getBBSuccessors F' entryBB) = Some rc)
    /\ (forall b, b ∈ bid <$> blocks F -> b ≠ entryBB -> b ≠ checkpointBB t ->
          getBBSuccessors F' b = getBBSuccessors F b).
Proof.
  intros Hwf H.
  pose proof H as Hinv. apply injected_inv in Hinv
    as (bbTracked & ckptMem & entryBlk & rest & succ0 & succs & F1 & st
        & Htr & _ & Hblocks & Hsuccs & Hsplit & Hrs & Hloop & Htopo & Hids & Hsize & HF').
  assert (Hentry : bid entryBlk ∈ bid <$> blocks F).
  { rewrite Hblocks, fmap_cons. by left. }
  assert (Hhead : head (getBBSuccessors F (bid entryBlk)) = Some succ0).
  { by rewrite Hsuccs. }
  assert (rs = succ0) as ->.
  { eapply restoreController_successor; [| |exact Hsplit|exact Hrs].
    - rewrite selectCheckpointBBs_nextBlock, selectCheckpointBBs_bids.
      intros Hin. apply Hwf in Hin. lia.
    - by rewrite selectCheckpointBBs_successors. }
  assert (Hcp : size (selectCheckpointBBs F bbTracked).2 ≠ 0%nat).
  { intros Hz. unfold injectSubroutinesInFunction in H.
    case_bool_decide; [done|]. rewrite Htr in H.
    destruct (getCkptMemSegmentPtr _ _ _); [|done].
    rewrite Hblocks, Hsuccs in H.
    destruct (selectCheckpointBBs F bbTracked) as [F0 cp]. cbn [snd] in Hz.
    by rewrite bool_decide_eq_true_2 in H. }
  destruct (addSubroutinesForCheckpoints_llvm _ _ _ _ _ _ _ _ _ _ _
              Hwf Hentry Hhead Hcp Hsplit Hloop)
    as (cb & succ & Hrc & Hcbsucc & Ht & Hflow).
  destruct (Hflow (propagateWithFuel_keepsControlFlow fuel))
    as (P2 & Scb & Ssave & Sjunction & Srestore & Hentry1 & O2).
  rewrite Ht in Htopo. subst topoMap.
  rewrite getCheckpointIdBBMap_singleton in Hids. subst idMap.
  rewrite iterateZMap_singleton in HF'. cbn [foldl] in HF'.
  set (t := mkTopo cb (Pos.succ rc) (Pos.succ (Pos.succ (Pos.succ rc)))
              (Pos.succ (Pos.succ rc))
              (if decide (cb = bid entryBlk) then rc else succ)) in *.
  assert (Hcf : sameControlFlow (iF st)
                  (addIdAndHeartbeat ckptMem
                     (getCheckpointIdBBMap {[cb := t]} (iF st)).1 (1%Z, t))).
  { eapply sameControlFlow_trans; [apply getCheckpointIdBBMap_sameControlFlow|].
    apply addIdAndHeartbeat_sameControlFlow. }
  destruct Hcf as (B3 & S3 & _).
  destruct (populateRestoreControllerBB_flow ckptMem rc succ0 {[1%Z := t]}
              (addIdAndHeartbeat ckptMem
                 (getCheckpointIdBBMap {[cb := t]} (iF st)).1 (1%Z, t)))
    as (B4 & _ & O4 & Src).
  rewrite <- HF' in B4, O4, Src.
  assert (Hrcin : is_Some (getBlock
                    (addIdAndHeartbeat ckptMem
                       (getCheckpointIdBBMap {[cb := t]} (iF st)).1 (1%Z, t)) rc)).
  { apply getBlock_elem. rewrite B3, P2. do 3 right. by left. }
  specialize (Src Hrcin). rewrite iterateZMap_singleton in Src.
  assert (Hlt : forall b, b ∈ bid <$> blocks F -> b < rc).
  { intros b Hb. subst rc. by apply Hwf. }
  assert (Hcbin : cb ∈ bid <$> blocks F).
  { apply getBlock_elem. unfold getBBSuccessors in Hcbsucc.
    destruct (getBlock F cb); [eauto|done]. }
  pose proof (Hlt _ Hcbin) as Hcblt.
  exists (bid entryBlk), succ, t. cbn [checkpointBB saveBB junctionBB restoreBB resumeBB t].
  replace (rc + 1) with (Pos.succ rc) by lia.
  replace (rc + 2) with (Pos.succ (Pos.succ rc)) by lia.
  replace (rc + 3) with (Pos.succ (Pos.succ (Pos.succ rc))) by lia.
  split; [by rewrite Hblocks|]. split; [done|]. split; [done|].
  split; [done|]. split; [done|]. split; [done|]. split; [done|]. split; [done|].
  split; [done|].
  split. { by rewrite B4, B3, P2. }
  split. { rewrite O4, S3 by lia. exact Scb. }
  split. { rewrite O4, S3 by lia. exact Ssave. }
  split. { rewrite O4, S3 by lia. exact Srestore. }
  split. { rewrite O4, S3 by lia. exact Sjunction. }
  split. { exact Src. }
  split.
  { intros Hne. pose proof (Hlt _ Hentry). rewrite O4, S3 by lia. by apply Hentry1. }
  intros b Hb Hbe Hbc. pose proof (Hlt _ Hb). rewrite O4, S3 by lia. by apply O2.
Qed.

(** A skip under LLVM's splitting, whatever the propagator. *)
Lemma skipped_llvm_inv (propagate : Propagator)
    (tracked : gmap positive (gmap BasicBlock (gset Value)))
    (live : gmap positive (gmap BasicBlock LiveVals))
    (F F' : Function) (why : SkipReason) (isModified : bool) :
  wellFormed F ->
  injectSubroutinesInFunction llvmSplit propagate tracked live F
    = Ret (Skipped why F' isModified) ->
  F' = F /\ isModified = false
  /\ why ≠ RestoreControllerSplitFailed /\ why ≠ NoCheckpointsInserted.
Proof.
  intros Hwf H.
  assert (Hwhy : why ≠ RestoreControllerSplitFailed /\ why ≠ NoCheckpointsInserted).
  { unfold injectSubroutinesInFunction in H.
    case_bool_decide; [by injection H as <- <- <-|].
    destruct (tracked !! fhandle F) as [bbTracked|]; [|by injection H as <- <- <-].
    destruct (getCkptMemSegmentPtr _ _ _) as [ckptMem|]; [|by injection H as <- <- <-].
    destruct (blocks F) as [|entryBlk rest] eqn:Hblocks; [done|].
    destruct (getBBSuccessors _ _) as [|succ0 succs] eqn:Hsuccs;
      [by injection H as <- <- <-|].
    assert (Hentry : bid entryBlk ∈ bid <$> blocks F).
    { rewrite Hblocks, fmap_cons. by left. }
    assert (Hhead : head (getBBSuccessors F (bid entryBlk)) = Some succ0).
    { by rewrite Hsuccs. }
    pose proof (selectCheckpointBBs_wellFormed F bbTracked Hwf) as Hwf0.
    pose proof (selectCheckpointBBs_bids F bbTracked) as Hbids.
    pose proof (addSubroutinesForCheckpoints_llvm propagate live ckptMem F) as Hstep.
    specialize (Hstep) with (bbTracked := bbTracked) (entryBB := bid entryBlk)
                            (succ0 := succ0).
    destruct (selectCheckpointBBs F bbTracked) as [F0 cp]. cbn [fst snd] in *.
    case_bool_decide as Hsize; [by injection H as <- <- <-|].
    destruct (splitEdgeWrapper_llvm F0 (bid entryBlk) succ0
                (fname F0 +:+ ".restoreControllerBB") Hwf0) as (F1 & Hsplit & _).
    { apply getBlock_elem. by rewrite Hbids. }
    rewrite Hsplit in H. cbn [mbind Res_bind] in H.
    apply bind_Ret in H as (st & Hst & H).
    destruct (Hstep _ _ _ _ Hwf Hentry Hhead Hsize Hsplit Hst)
      as (cb & succ & _ & _ & Ht & _).
    pose proof (getCheckpointIdBBMap_singleton cb
                  (mkTopo cb (Pos.succ (nextBlock F0))
                     (Pos.succ (Pos.succ (Pos.succ (nextBlock F0))))
                     (Pos.succ (Pos.succ (nextBlock F0)))
                     (if decide (cb = bid entryBlk) then nextBlock F0 else succ))
                  (iF st)) as Hids.
    rewrite <- Ht in Hids.
    destruct (getCheckpointIdBBMap _ _) as [F2 ids]. cbn [snd] in Hids.
    destruct (getSingleSuccessor F1 _) as [rs'|]; [|done].
    case_bool_decide as Hz; [|done]. exfalso.
    rewrite Hids, map_size_singleton in Hz. done. }
  destruct Hwhy as [Hw1 Hw2].
  destruct (early_skip_leaves_function_unchanged _ _ _ _ _ _ _ _ H Hw1 Hw2) as [-> ->].
  done.
Qed.

(** With LLVM's splitting, the two skips the pass takes after it has
    changed the function are never taken: a function that is skipped is
    the function the pass was given, and it is reported as not modified. *)
Theorem skipped_function_is_unchanged_with_llvm (fuel : nat)
    (tracked : gmap positive (gmap BasicBlock (gset Value)))
    (live : gmap positive (gmap BasicBlock LiveVals))
    (F F' : Function) (why : SkipReason) (isModified : bool) :
  wellFormed F ->
  injectSubroutinesInFunction llvmSplit (propagateWithFuel fuel) tracked live F
    = Ret (Skipped why F' isModified) ->
  F' = F /\ isModified = false
  /\ why ≠ RestoreControllerSplitFailed /\ why ≠ NoCheckpointsInserted.
Proof. apply skipped_llvm_inv. Qed.

(** C1: a function that the pass skips is the function it was given: no
    directive has been erased, no block split, no switch installed.  The
    skips are the ones taken before anything is changed (linkage, no
    tracked values, no [ckpt_mem] argument, a single block, no block with
    a directive); a split never gives null to the pass, so the skips for
    a failed split and for no checkpoint inserted are not taken. *)
Theorem C1_skipped_function_is_unchanged (propagate : Propagator)
    (tracked : gmap positive (gmap BasicBlock (gset Value)))
    (live : gmap positive (gmap BasicBlock LiveVals))
    (F F' : Function) (why : SkipReason) (isModified : bool) :
  wellFormed F ->
  injectSubroutinesInFunction llvmSplit propagate tracked live F
    = Ret (Skipped why F' isModified) ->
  F' = F.
Proof. intros Hwf H. by destruct (skipped_llvm_inv _ _ _ _ _ _ _ Hwf H) as (-> & _). Qed.

Lemma C1_skipped_function_is_unchanged_witness :
  exists why isModified,
    injectSubroutinesInFunction llvmSplit (propagateWithFuel 100)
      tracked_two live_two F_no_ckpt_mem
    = Ret (Skipped why F_no_ckpt_mem isModified).
Proof.
  assert (Hwf : wellFormed F_no_ckpt_mem) by wellFormed_example.
  destruct (injectSubroutinesInFunction llvmSplit (propagateWithFuel 100)
              tracked_two live_two F_no_ckpt_mem)
    as [[why Fs m|F' rc rs topoMap idMap]|e] eqn:H.
  - exists why, m. do 2 f_equal.
    exact (C1_skipped_function_is_unchanged _ _ _ _ _ _ _ Hwf H).
  - vm_compute in H. discriminate H.
  - vm_compute in H. discriminate H.
Defined.

Lemma skipped_function_is_unchanged_with_llvm_witness :
  injectSubroutinesInFunction llvmSplit (propagateWithFuel 100)
    {[ 1 := {[ 4 := {[ 20 ]} ]} ]} live_two F_two
  = Ret (Skipped NoCheckpointDirective F_two false).
Proof.
  assert (Hwf : wellFormed F_two) by wellFormed_example.
  destruct (injectSubroutinesInFunction llvmSplit (propagateWithFuel 100)
              {[ 1 := {[ 4 := {[ 20 ]} ]} ]} live_two F_two)
    as [[why Fs m|F' rc rs topoMap idMap]|e] eqn:H.
  - destruct (skipped_function_is_unchanged_with_llvm _ _ _ _ _ _ _ Hwf H)
      as (-> & -> & _). vm_compute in H. injection H as <-. reflexivity.
  - vm_compute in H. discriminate H.
  - vm_compute in H. discriminate H.
Defined.

(** With LLVM's splitting, a run that installs a checkpoint adds four
    blocks to the function, with the next four handles: the dispatcher,
    the save block, the junction block and the restore block.  The
    checkpoint block branches to the save block, the save and the restore
    block to the junction block, the junction block to the resume block,
    and the dispatcher switches between the first successor the entry
    block had and the restore block.  The resume block is the successor
    the checkpoint block had, unless the checkpoint block is the entry
    block: then it is the dispatcher itself.  No other block but the entry
    block has its successors changed. *)
Theorem installed_checkpoint_wiring (fuel : nat)
    (tracked : gmap positive (gmap BasicBlock (gset Value)))
    (live : gmap positive (gmap BasicBlock LiveVals))
    (F F' : Function) (rc rs : BasicBlock)
    (topoMap : gmap BasicBlock CheckpointTopo) (idMap : gmap Z CheckpointTopo) :
  wellFormed F ->
  injectSubroutinesInFunction llvmSplit (propagateWithFuel fuel) tracked live F
    = Ret (Injected F' rc rs topoMap idMap) ->
  exists entryBB succ t,
    bid <$> head (blocks F) = Some entryBB
    /\ head (getBBSuccessors F entryBB) = Some rs
    /\ topoMap = {[checkpointBB t := t]}
    /\ getBBSuccessors F (checkpointBB t) = [succ]
    /\ rc = nextBlock F
    /\ saveBB t = rc + 1
    /\ junctionBB t = rc + 2
    /\ restoreBB t = rc + 3
    /\ resumeBB t = (if decide (checkpointBB t = entryBB) then rc else succ)
    /\ bid <$> blocks F'
       ≡ₚ restoreBB t :: junctionBB t :: saveBB t :: rc :: (bid <$> blocks F)
    /\ getBBSuccessors F' (checkpointBB t) = [saveBB t]
    /\ getBBSuccessors F' (saveBB t) = [junctionBB t]
    /\ getBBSuccessors F' (restoreBB t) = [junctionBB t]
    /\ getBBSuccessors F' (junctionBB t) = [resumeBB t]
    /\ getBBSuccessors F' rc = [rs; restoreBB t]
    /\ (checkpointBB t ≠ entryBB -> head (getBBSuccessors F' entryBB) = Some rc)
    /\ (forall b, b ∈ bid <$> blocks F -> b ≠ entryBB -> b ≠ checkpointBB t ->
          getBBSuccessors F' b = getBBSuccessors F b).
Proof. apply injected_llvm_wiring. Qed.

Lemma installed_checkpoint_wiring_witness :
  exists F' rc rs topoMap idMap t,
    injectSubroutinesInFunction llvmSplit (propagateWithFuel 100)
      tracked_two live_two F_two = Ret (Injected F' rc rs topoMap idMap)
    /\ topoMap = {[checkpointBB t := t]}
    /\ getBBSuccessors F' (checkpointBB t) = [saveBB t]
    /\ getBBSuccessors F' (saveBB t) = [junctionBB t]
    /\ getBBSuccessors F' (restoreBB t) = [junctionBB t]
    /\ getBBSuccessors F' (junctionBB t) = [resumeBB t]
    /\ getBBSuccessors F' rc = [rs; restoreBB t].
Proof.
  assert (Hwf : wellFormed F_two) by wellFormed_example.
  destruct (injectSubroutinesInFunction llvmSplit (propagateWithFuel 100)
              tracked_two live_two F_two)
    as [[why Fs m|F' rc rs topoMap idMap]|e] eqn:H.
  - vm_compute in H. discriminate H.
  - destruct (installed_checkpoint_wiring _ _ _ _ _ _ _ _ _ Hwf H)
      as (entryBB & succ & t & _ & _ & Ht & _ & _ & _ & _ & _ & _ & _
          & H1 & H2 & H3 & H4 & H5 & _).
    exists F', rc, rs, topoMap, idMap, t. repeat split; assumption.
  - vm_compute in H. discriminate H.
Defined.

(** When the checkpoint block is the entry block, the dispatcher is not
    what the entry block leads to: the entry block branches to the save
    block, the junction block resumes at the dispatcher, and the restore
    block, which the dispatcher switches to, leads through the junction
    block back to the dispatcher. *)
Theorem checkpoint_in_entry_block_resumes_at_dispatcher (fuel : nat)
    (tracked : gmap positive (gmap BasicBlock (gset Value)))
    (live : gmap positive (gmap BasicBlock LiveVals))
    (F F' : Function) (rc rs entryBB : BasicBlock)
    (topoMap : gmap BasicBlock CheckpointTopo) (idMap : gmap Z CheckpointTopo)
    (t : CheckpointTopo) :
  wellFormed F ->
  injectSubroutinesInFunction llvmSplit (propagateWithFuel fuel) tracked live F
    = Ret (Injected F' rc rs topoMap idMap) ->
  bid <$> head (blocks F) = Some entryBB ->
  topoMap !! entryBB = Some t ->
  resumeBB t = rc
  /\ getBBSuccessors F' entryBB = [saveBB t]
  /\ getBBSuccessors F' (saveBB t) = [junctionBB t]
  /\ getBBSuccessors F' (junctionBB t) = [rc]
  /\ getBBSuccessors F' rc = [rs; restoreBB t]
  /\ getBBSuccessors F' (restoreBB t) = [junctionBB t].
Proof.
  intros Hwf H Hentry Ht.
  destruct (injected_llvm_wiring _ _ _ _ _ _ _ _ _ Hwf H)
    as (entryBB' & succ & t' & Hentry' & _ & Htopo & _ & _ & _ & _ & _ & Hres & _
        & H1 & H2 & H3 & H4 & H5 & _).
  assert (entryBB' = entryBB) as -> by congruence.
  subst topoMap. apply lookup_singleton_Some in Ht as [Hcb <-].
  rewrite Hcb in *. rewrite decide_True in Hres by done. rewrite Hres in H4.
  by repeat split.
Qed.

Lemma checkpoint_in_entry_block_resumes_at_dispatcher_witness :
  exists F' rc rs topoMap idMap t,
    injectSubroutinesInFunction llvmSplit (propagateWithFuel 100)
      tracked_entry live_entry F_entry = Ret (Injected F' rc rs topoMap idMap)
    /\ topoMap !! 1 = Some t
    /\ resumeBB t = rc
    /\ getBBSuccessors F' 1 = [saveBB t]
    /\ getBBSuccessors F' (junctionBB t) = [rc]
    /\ getBBSuccessors F' rc = [rs; restoreBB t]
    /\ getBBSuccessors F' (restoreBB t) = [junctionBB t].
Proof.
  assert (Hwf : wellFormed F_entry) by wellFormed_example.
  destruct (injectSubroutinesInFunction llvmSplit (propagateWithFuel 100)
              tracked_entry live_entry F_entry)
    as [[why Fs m|F' rc rs topoMap idMap]|e] eqn:H.
  - vm_compute in H. discriminate H.
  - assert (Ht : { t | topoMap !! 1 = Some t }).
    { pose proof H as H'. vm_compute in H'. injection H' as _ _ _ <- _.
      eexists. vm_compute. reflexivity. }
    destruct Ht as [t Ht].
    destruct (checkpoint_in_entry_block_resumes_at_dispatcher _ _ _ _ _ _ _ 1 _ _ t Hwf H)
      as (H1 & H2 & H3 & H4 & H5 & H6); [reflexivity|exact Ht|].
    exists F', rc, rs, topoMap, idMap, t. repeat split; assumption.
  - vm_compute in H. discriminate H.
Defined.

Lemma foldl_insert_unless (ignoredValues : gset Value) (l : list Value) (acc : gset Value) :
  foldl (fun filteredTrackedValues val =>
           if bool_decide (val ∈ ignoredValues) then filteredTrackedValues
           else filteredTrackedValues ∪ {[val]}) acc l
  = acc ∪ (list_to_set l ∖ ignoredValues).
Proof.
  revert acc. induction l as [|v l IH]; intros acc; simpl.
  - apply set_eq. intros x. rewrite elem_of_union, elem_of_difference, elem_of_empty.
    tauto.
  - rewrite IH. apply set_eq. intros x. case_bool_decide as Hv.
    + rewrite !elem_of_union, !elem_of_difference, elem_of_union, elem_of_singleton.
      split; [tauto|]. intros [?|[[ -> | ?] ?]]; tauto.
    + rewrite !elem_of_union, !elem_of_difference, elem_of_union, !elem_of_singleton.
      split; [|tauto]. intros [[?| -> ]|[? ?]]; tauto.
Qed.

Lemma foldl_emplace_fmap (g : gset Value -> gset Value)
    (l : list (BasicBlock * gset Value)) (acc : gmap BasicBlock (gset Value))
    (b : BasicBlock) :
  (forall x y, (b, x) ∈ l -> (b, y) ∈ l -> x = y) ->
  foldl (fun m (entry : BasicBlock * gset Value) => emplace entry.1 (g entry.2) m) acc l !! b
  = match acc !! b with
    | Some x => Some x
    | None => g <$> (snd <$> find (fun e : BasicBlock * gset Value => bool_decide (e.1 = b)) l)
    end.
Proof.
  revert acc. induction l as [|[k x] l IH]; intros acc Huniq; simpl.
  - by destruct (acc !! b).
  - rewrite IH by (intros ? ? ? ?; apply Huniq; by right).
    rewrite emplace_lookup. destruct (acc !! b) as [t|]; [done|].
    case_decide as Hk.
    + subst k. by rewrite bool_decide_eq_true_2.
    + by rewrite bool_decide_eq_false_2.
Qed.

(** [removeSelectedTrackedVals] keeps every block of the map, those that
    are left without tracked values too, and takes the ignored values, and
    no other, out of the tracked values of each. *)
Theorem removeSelectedTrackedVals_spec (bbTrackedVals : gmap BasicBlock (gset Value))
    (ignoredValues : gset Value) :
  removeSelectedTrackedVals bbTrackedVals ignoredValues
  = (fun trackedValues => trackedValues ∖ ignoredValues) <$> bbTrackedVals
  /\ dom (removeSelectedTrackedVals bbTrackedVals ignoredValues) = dom bbTrackedVals
  /\ removeSelectedTrackedVals bbTrackedVals ∅ = bbTrackedVals.
Proof.
  assert (H : forall ig, removeSelectedTrackedVals bbTrackedVals ig
                         = (fun trackedValues => trackedValues ∖ ig) <$> bbTrackedVals).
  { intros ig. apply map_eq. intros b. unfold removeSelectedTrackedVals.
    rewrite (foldl_emplace_fmap
               (fun vs => foldl (fun acc val => if bool_decide (val ∈ ig) then acc
                                                else acc ∪ {[val]}) ∅ (iterate vs))).
    2:{ intros x y Hx Hy. apply iterateMap_elem_of in Hx, Hy. congruence. }
    rewrite lookup_empty, lookup_fmap.
    destruct (bbTrackedVals !! b) as [vs|] eqn:Hb.
    - destruct (find _ (iterateMap bbTrackedVals)) as [[k x]|] eqn:Hf.
      + apply find_Some_elem in Hf as [Hin Hk]. apply bool_decide_eq_true_1 in Hk.
        simpl in Hk. subst k. apply iterateMap_elem_of in Hin.
        assert (x = vs) as -> by congruence. simpl. f_equal.
        rewrite foldl_insert_unless, (left_id_L ∅ (∪)). f_equal.
        apply set_eq. intros v. by rewrite elem_of_list_to_set, iterate_elem_of.
      + exfalso. apply iterateMap_elem_of in Hb.
        apply (find_None_elem _ _ Hf) in Hb. simpl in Hb.
        by rewrite bool_decide_eq_true_2 in Hb.
    - destruct (find _ (iterateMap bbTrackedVals)) as [[k x]|] eqn:Hf; [|done].
      apply find_Some_elem in Hf as [Hin Hk]. apply bool_decide_eq_true_1 in Hk.
      simpl in Hk. subst k. apply iterateMap_elem_of in Hin. congruence. }
  split; [apply H|]. split.
  - by rewrite H, dom_fmap_L.
  - rewrite H. rewrite <- (map_fmap_id bbTrackedVals) at 2.
    apply map_fmap_ext. intros b vs _. simpl. apply set_eq. intros v.
    rewrite elem_of_difference, elem_of_empty. tauto.
Qed.

Lemma drainQueue_reachable (env : PropEnv) (F : Function) (startBB : BasicBlock)
    (fuel : nat) (st st' : PropState) :
  sameControlFlow F (pF st) ->
  (forall r, r ∈ queue st -> reachable F startBB (currBB r)) ->
  (forall b, getBlock (pF st) b ≠ getBlock F b -> reachable F startBB b) ->
  drainQueue env fuel st = Ret st' ->
  forall b, getBlock (pF st') b ≠ getBlock F b -> reachable F startBB b.
Proof.
  revert st. induction fuel as [|fuel IH]; intros st Hcf Hq Hb H; simpl in H.
  - destruct (queue st); [|done]. by injection H as <-.
  - destruct (queue st) as [|r q] eqn:Hqueue; [by injection H as <-|].
    apply bind_Ret in H as (st1 & H1 & H).
    assert (Hr : reachable F startBB (currBB r)).
    { apply Hq. by left. }
    pose proof (processUpdateRequest_sameControlFlow _ _ _ _ H1) as [Hcf1 _].
    destruct (processUpdateRequest_queue _ _ _ _ H1) as (blk & join & Hg & _ & Hq1).
    destruct (processUpdateRequest_function _ _ _ _ H1)
      as (blk0 & blk' & F0 & _ & Hbid & _ & _ & HF0 & HF1).
    cbn [pF queue] in *.
    apply (IH st1); [by eapply sameControlFlow_trans| | |exact H].
    + intros r' Hr'. rewrite Hq1 in Hr'. apply elem_of_app in Hr' as [Hr'|Hr'].
      { apply Hq. by right. }
      assert (Hs : currBB r' ∈ successors blk).
      { unfold pushedRequests in Hr'.
        repeat match type of Hr' with
               | _ ∈ (if ?c then _ else _) => destruct c
               | _ ∈ [] => by apply elem_of_nil in Hr'
               end.
        all: apply list_elem_of_fmap in Hr' as (s & -> & Hs); simpl.
        all: by apply list_elem_of_filter in Hs as [_ Hs]. }
      eapply rtc_r; [exact Hr|]. simpl.
      destruct Hcf as (_ & Hsucc & _). rewrite <- Hsucc.
      unfold getBBSuccessors. by rewrite Hg.
    + intros b Hne. destruct (decide (b = currBB r)) as [->|Hbr]; [done|].
      apply Hb. rewrite HF1 in Hne.
      rewrite getBlock_replace_other in Hne by done.
      by destruct HF0 as [->| ->].
Qed.

(** The propagation of one value changes blocks that can be reached from
    the block it starts at, and no other. *)
Theorem propagation_confined_to_reachable_blocks (env : PropEnv) (fuel : nat)
    (startBB prevBB : BasicBlock) (oldVal newVal : Value)
    (visited : gmap BasicBlock (gset Value)) (F : Function) (st : PropState) :
  propagateRestoredValuesBFS env fuel startBB prevBB oldVal newVal visited F = Ret st ->
  forall b, getBlock (pF st) b ≠ getBlock F b -> reachable F startBB b.
Proof.
  unfold propagateRestoredValuesBFS. intros H.
  eapply drainQueue_reachable; [| | |exact H]; cbn [pF queue].
  - apply sameControlFlow_refl.
  - intros r Hr. apply list_elem_of_singleton in Hr as ->. simpl. apply rtc_refl.
  - done.
Qed.

Lemma propagation_confined_to_reachable_blocks_witness :
  exists st,
    propagateRestoredValuesBFS env_diamond 100 3 102 20 108 ∅ marshalled_diamond = Ret st
    /\ getBlock (pF st) 7 ≠ getBlock marshalled_diamond 7
    /\ reachable marshalled_diamond 3 7.
Proof.
  assert (H : { st | propagateRestoredValuesBFS env_diamond 100 3 102 20 108 ∅
                       marshalled_diamond = Ret st }).
  { eexists. vm_compute. reflexivity. }
  destruct H as [st H]. exists st. split; [exact H|].
  assert (Hne : getBlock (pF st) 7 ≠ getBlock marshalled_diamond 7).
  { pose proof H as H'. vm_compute in H'. injection H' as <-. vm_compute. discriminate. }
  split; [exact Hne|].
  exact (propagation_confined_to_reachable_blocks _ _ _ _ _ _ _ _ _ H 7 Hne).
Defined.



Lemma chooseBBWithLeastTrackedVals_spec_witness :
  exists cpBBMap,
    chooseBBWithLeastTrackedVals {[ 1 := {[20]}; 2 := {[20]}; 3 := {[20; 2]} ]} F_two 1
      = Ret cpBBMap
    /\ cpBBMap !! 1 = Some {[20]} /\ cpBBMap !! 2 = Some {[20]} /\ cpBBMap !! 3 = None.
Proof.
  destruct (proj2 (chooseBBWithLeastTrackedVals_spec
                     {[ 1 := {[20]}; 2 := {[20]}; 3 := {[20; 2]} ]} F_two 1))
    as (cpBBMap & Hret & _).
  - intros H. apply (f_equal size) in H. vm_compute in H. discriminate H.
  - exists cpBBMap. split; [exact Hret|].
    vm_compute in Hret. injection Hret as <-. vm_compute. repeat split.
Defined.
